(** * Intel Portal: persistence and activity-feed engine

    A shallow embedding of the storage layer ([storage.js] in its
    Firestore + IndexedDB and Firestore + Firebase Storage variants), of the
    start-up load and report creation of [dashboard.js], and of the live
    activity subscription of [admin.js], with the properties of the
    specification stated over them.

    Asynchronous code is modelled by explicit state passing: a promise is
    the pair of the effects it has on the stores and of its settlement
    ([Resolved] or [Rejected]).  Operations started together and awaited
    with [Promise.all] settle in an order chosen by a schedule. *)

From stdpp Require Import gmap strings list pretty sorting.
From Stdlib Require Import ZArith.

Local Open Scope Z_scope.

(** ** JavaScript values and strings *)

(** The values a [dataUrl] field may hold.  [JObj] is an object that is
    neither a string nor an array (a [Blob], a stream handle): it is truthy
    and has neither a [length] nor an [indexOf] property. *)
Inductive jsval : Type :=
| JUndefined
| JNull
| JStr (s : string)
| JObj.

Global Instance jsval_eq_dec : EqDecision jsval.
Proof. solve_decision. Defined.

(** [ToBoolean]: the empty string, [null] and [undefined] are falsy. *)
Definition truthy (v : jsval) : bool :=
  match v with
  | JStr s => negb (String.eqb s "")
  | JObj => true
  | JUndefined | JNull => false
  end.

(** [v.length] for a truthy [v]; [None] is [undefined]. *)
Definition js_length (v : jsval) : option Z :=
  match v with
  | JStr s => Some (Z.of_nat (String.length s))
  | _ => None
  end.

(** [x > n] where [x] may be [undefined]: [undefined] converts to [NaN],
    and every comparison with [NaN] is false. *)
Definition js_gt (x : option Z) (n : Z) : bool :=
  match x with
  | Some m => n <? m
  | None => false
  end.

(** [s.indexOf(pat) === 0] *)
Definition starts_with (pat s : string) : bool := String.prefix pat s.

Fixpoint string_drop (n : nat) (s : string) : string :=
  match n, s with
  | O, _ => s
  | S n', String _ s' => string_drop n' s'
  | S _, EmptyString => EmptyString
  end.

(** [s.replace(pat, rep)] with a string pattern: the first occurrence only. *)
Fixpoint replace_first (pat rep s : string) : string :=
  if String.prefix pat s then rep +:+ string_drop (String.length pat) s
  else match s with
       | EmptyString => EmptyString
       | String c s' => String c (replace_first pat rep s')
       end.

(** [String(n)] for a non-negative integer. *)
Definition String_of_nat (n : nat) : string := pretty n.

(** [s.padStart(n, "0")] *)
Definition padStart0 (n : nat) (s : string) : string :=
  String.concat "" (replicate (n - String.length s)%nat "0"%string) +:+ s.

(** ** Data model *)

(** An attachment object.  [att_file] is the raw [File] handle of the
    Storage variant (here: its bytes); a field that is absent is [None] or
    [JUndefined]. *)
Record attachment : Type := Attachment {
  att_name : string;
  att_type : string;
  att_size : Z;
  att_dataUrl : jsval;
  att_textContent : jsval;
  att_file : option string;
  att_storageUrl : option string;
  att_storagePath : option string;
}.

Global Instance attachment_eq_dec : EqDecision attachment.
Proof. solve_decision. Defined.

(** A report object.  [A] is what its [attachments] field holds: the list
    itself in a stored document, the address of the array for an object in
    the memory of the page. *)
Record report_of (A : Type) : Type := Report {
  id : string;
  passportNumber : string;
  subjectName : string;
  nationality : string;
  date : string;
  classification : string;
  summary : string;
  content : string;
  locationName : option string;
  (* [attachments] may be absent on a document *)
  attachments : option A;
}.
Arguments Report {A}.
Arguments id {A}.
Arguments passportNumber {A}.
Arguments subjectName {A}.
Arguments nationality {A}.
Arguments date {A}.
Arguments classification {A}.
Arguments summary {A}.
Arguments content {A}.
Arguments locationName {A}.
Arguments attachments {A}.

(** A report by value: a Firestore document, or an object nobody shares. *)
Abbreviation report := (report_of (list attachment)).
(** A report object whose attachment array is shared through its address. *)
Abbreviation report_obj := (report_of nat).

Global Instance report_eq_dec {A} `{EqDecision A} : EqDecision (report_of A).
Proof. solve_decision. Defined.

Definition set_dataUrl (v : jsval) (a : attachment) : attachment :=
  {| att_name := att_name a; att_type := att_type a; att_size := att_size a;
     att_dataUrl := v; att_textContent := att_textContent a;
     att_file := att_file a; att_storageUrl := att_storageUrl a;
     att_storagePath := att_storagePath a |}.

Definition set_attachments {A B} (l : option B) (r : report_of A) : report_of B :=
  {| id := id r; passportNumber := passportNumber r;
     subjectName := subjectName r; nationality := nationality r;
     date := date r; classification := classification r;
     summary := summary r; content := content r;
     locationName := locationName r; attachments := l |}.

(** ** Stores, faults, promises *)

(** The three stores the engine talks to, and the part of the page's memory
    that is shared by reference. *)
Record world : Type := World {
  (* Firestore collection "reports": document id -> document *)
  docs : gmap string report;
  (* IndexedDB object store "blobs": key -> the [dataUrl] of the record *)
  local_blobs : gmap string jsval;
  (* Firebase Storage: path -> object bytes *)
  storage : gmap string string;
  (* number of Storage uploads completed so far *)
  storage_gen : nat;
  (* JavaScript heap: address -> attachment array *)
  arrays : gmap nat (list attachment);
}.

Definition set_docs (d : gmap string report) (w : world) : world :=
  {| docs := d; local_blobs := local_blobs w; storage := storage w;
     storage_gen := storage_gen w; arrays := arrays w |}.
Definition set_local_blobs (b : gmap string jsval) (w : world) : world :=
  {| docs := docs w; local_blobs := b; storage := storage w;
     storage_gen := storage_gen w; arrays := arrays w |}.
Definition set_storage (s : gmap string string) (g : nat) (w : world) : world :=
  {| docs := docs w; local_blobs := local_blobs w; storage := s;
     storage_gen := g; arrays := arrays w |}.
Definition set_arrays (a : gmap nat (list attachment)) (w : world) : world :=
  {| docs := docs w; local_blobs := local_blobs w; storage := storage w;
     storage_gen := storage_gen w; arrays := a |}.

Definition empty_world : world :=
  {| docs := ∅; local_blobs := ∅; storage := ∅; storage_gen := 0%nat; arrays := ∅ |}.

(** The errors of Firebase Storage other than "object not found". *)
Inductive storage_error : Type :=
| StorageUnauthorized
| StorageRetryLimitExceeded
| StorageUnknown.

Definition error_code (err : storage_error) : string :=
  match err with
  | StorageUnauthorized => "storage/unauthorized"
  | StorageRetryLimitExceeded => "storage/retry-limit-exceeded"
  | StorageUnknown => "storage/unknown"
  end.

(** The behaviour of the environment: which store operations fail, and what
    the browser and Storage compute.  Each fault oracle is indexed by the
    key, path or document id the operation works on. *)
Record env : Type := Env {
  (* [indexedDB.open] fails for the operation on this key *)
  idb_open_fails : string → bool;
  (* the readwrite transaction putting this key errors *)
  idb_put_fails : string → bool;
  (* the get request for this key errors *)
  idb_get_fails : string → bool;
  doc_get_fails : string → bool;
  doc_set_fails : string → bool;
  doc_delete_fails : string → bool;
  storage_put_fails : string → bool;
  storage_url_fails : string → bool;
  (* [ref.delete()] fails with this error *)
  storage_delete_error : string → option storage_error;
  (* [getDownloadURL()] of the object at a path, after so many uploads *)
  download_url : string → nat → string;
  (* [atob(dataUrl.split(",")[1])]; [None] when it throws *)
  atob_payload : string → option string;
}.

Definition no_faults : env :=
  {| idb_open_fails := λ _, false; idb_put_fails := λ _, false;
     idb_get_fails := λ _, false; doc_get_fails := λ _, false;
     doc_set_fails := λ _, false; doc_delete_fails := λ _, false;
     storage_put_fails := λ _, false; storage_url_fails := λ _, false;
     storage_delete_error := λ _, None;
     download_url := λ path n, "https://storage/" +:+ path +:+ "?gen=" +:+ pretty n;
     atob_payload := λ s, Some s |}.

(** How a promise settles. *)
Inductive outcome (A : Type) : Type :=
| Resolved (a : A)
| Rejected (err : string).
Arguments Resolved {A} a.
Arguments Rejected {A} err.

(** Store operations, in the order they completed.  A write to a blob tier
    or a delete is recorded when it succeeded; a document write is recorded
    whether Firestore accepted it ([DocSet]) or not ([DocSetFailed]). *)
Inductive event : Type :=
| IdbPut (key : string) (v : jsval)
| StoragePut (path : string) (data : string)
| StorageDelete (path : string)
| DocSet (doc_id : string) (doc : report)
| DocSetFailed (doc_id : string) (doc : report)
| DocDelete (doc_id : string).

Global Instance event_eq_dec : EqDecision event.
Proof. solve_decision. Defined.

(** *** Scheduling of concurrent operations

    Operations started in the same turn complete in any order.  A schedule
    is a list of numbers; [completion_order] turns it into a permutation of
    the started operations (every permutation is reached by some
    schedule). *)
Fixpoint insert_at {A} (n : nat) (x : A) (l : list A) : list A :=
  match n, l with
  | O, _ => x :: l
  | S n', y :: l' => y :: insert_at n' x l'
  | S _, [] => [x]
  end.

Fixpoint completion_order {A} (sched : list nat) (started : list A) : list A :=
  match started with
  | [] => []
  | x :: rest => insert_at (hd 0%nat sched) x (completion_order (tl sched) rest)
  end.

(** *** Promises as store transformers *)
Definition io (A : Type) : Type := world → world * list event * outcome A.

Definition ret {A} (a : A) : io A := λ w, (w, [], Resolved a).
Definition reject {A} (err : string) : io A := λ w, (w, [], Rejected err).

(** [p.then(k)] *)
Definition bind {A B} (p : io A) (k : A → io B) : io B := λ w,
  match p w with
  | (w1, t1, Resolved a) =>
      match k a w1 with
      | (w2, t2, r) => (w2, t1 ++ t2, r)
      end
  | (w1, t1, Rejected err) => (w1, t1, Rejected err)
  end.

Notation "x <- p ;; k" := (bind p (λ x, k))
  (at level 100, p at next level, right associativity, only parsing).

(** Operations that were all started run to completion one after the other
    in the given order, whether or not an earlier one rejected; the
    combined promise rejects with the first rejection. *)
Fixpoint settle {A} (ops : list (io A)) : io (list A) := λ w,
  match ops with
  | [] => (w, [], Resolved [])
  | op :: rest =>
      match op w with
      | (w1, t1, r1) =>
          match settle rest w1 with
          | (w2, t2, r2) =>
              (w2, t1 ++ t2,
               match r1, r2 with
               | Rejected err, _ => Rejected err
               | Resolved _, Rejected err => Rejected err
               | Resolved a, Resolved l => Resolved (a :: l)
               end)
          end
      end
  end.

(** [Promise.all(ops)]: the started operations complete in the order the
    schedule picks.  The values are listed in completion order; the callers
    below either ignore them or tag them with the index they belong to. *)
Definition promise_all {A} (sched : list nat) (ops : list (io A)) : io (list A) :=
  settle (completion_order sched ops).

(** ** The Firestore collection "reports"

    [fbDb.collection(COLLECTION).doc(id)] and its [set], [delete], [get]. *)
Definition doc_set (e : env) (doc_id : string) (doc : report) : io unit := λ w,
  if doc_set_fails e doc_id
  then (w, [DocSetFailed doc_id doc], Rejected "Firestore set failed")
  else (set_docs (<[doc_id := doc]> (docs w)) w, [DocSet doc_id doc], Resolved ()).

Definition doc_delete (e : env) (doc_id : string) : io unit := λ w,
  if doc_delete_fails e doc_id then (w, [], Rejected "Firestore delete failed")
  else (set_docs (delete doc_id (docs w)) w, [DocDelete doc_id], Resolved ()).

(** [doc(id).get()]: the snapshot; [None] when [!doc.exists] *)
Definition doc_get (e : env) (doc_id : string) : io (option report) := λ w,
  if doc_get_fails e doc_id then (w, [], Rejected "Firestore get failed")
  else (w, [], Resolved (docs w !! doc_id)).

(** The order of [orderBy("date", "desc")] on pairs of a document id and a
    document: later dates first, documents of the same date by descending
    document id.  Strings compare byte by byte. *)
Definition newer_first (a b : string * report) : Prop :=
  (date a.2 ≠ date b.2 ∧ String.le (date b.2) (date a.2))
  ∨ (date a.2 = date b.2 ∧ String.le b.1 a.1).

Global Instance newer_first_dec : RelDecision newer_first.
Proof. intros a b. unfold newer_first. apply _. Defined.

(** [fbDb.collection(COLLECTION).orderBy("date", "desc").get()]: the
    documents of the snapshot, in the order [snap.forEach] visits them. *)
Definition query_by_date_desc (fails : bool) : io (list report) := λ w,
  if fails then (w, [], Rejected "Firestore query failed")
  else (w, [], Resolved ((merge_sort newer_first (map_to_list (docs w))).*2)).

(** The documents after the writes of a batch, applied in the order of the
    [batch.set] calls. *)
Definition write_all (m : gmap string report) (batch : list (string * report))
  : gmap string report :=
  foldl (λ m op, <[op.1 := op.2]> m) m batch.

(** [batch.commit()]: the writes of the batch take effect together or not at
    all; the commit fails when one of its writes does. *)
Definition batch_commit (e : env) (batch : list (string * report)) : io unit := λ w,
  if existsb (λ op, doc_set_fails e op.1) batch
  then (w, (λ op, DocSetFailed op.1 op.2) <$> batch,
        Rejected "Firestore batch commit failed")
  else (set_docs (write_all (docs w) batch) w,
        (λ op, DocSet op.1 op.2) <$> batch, Resolved ()).

(** ** storage.js, Firestore + IndexedDB variant

    Reports live in Firestore; a [dataUrl] too large for the document is
    kept in the local IndexedDB store and replaced by a ["local:"]
    reference. *)
Module Overflow.

Definition COLLECTION : string := "reports".

(** [openLocalDB()] on behalf of the operation on [key] *)
Definition openLocalDB (e : env) (key : string) : io unit :=
  if idb_open_fails e key then reject "IndexedDB open error" else ret ().

Definition saveBlobLocal (e : env) (key : string) (dataUrl : jsval) : io unit :=
  _ <- openLocalDB e key ;;
  λ w,
    if idb_put_fails e key then (w, [], Rejected "IndexedDB transaction error")
    else (set_local_blobs (<[key := dataUrl]> (local_blobs w)) w,
          [IdbPut key dataUrl], Resolved ()).

Definition getBlobLocal (e : env) (key : string) : io jsval :=
  _ <- openLocalDB e key ;;
  λ w,
    if idb_get_fails e key then (w, [], Resolved JNull)
    else (w, [],
          Resolved (match local_blobs w !! key with
                    | Some dataUrl => dataUrl
                    | None => JNull
                    end)).

(** Max size for an inline dataUrl in Firestore *)
Definition MAX_INLINE_SIZE : Z := 800000.

(** The placement the [map] callback of [prepareForFirestore] takes for
    one attachment. *)
Inductive PlacementDecision : Type := inline | overflow.

Definition place (att : attachment) : PlacementDecision :=
  if truthy (att_dataUrl att)
     && js_gt (js_length (att_dataUrl att)) MAX_INLINE_SIZE
  then overflow else inline.

Definition blobKeyOf (report_id : string) (i : nat) : string :=
  report_id +:+ "_att_" +:+ String_of_nat i.

(** The callback of [clone.attachments.map]: the cloned attachment and
    the [saveBlobLocal] call it starts, if any. *)
Definition prepareAttachment (report_id : string) (i : nat) (att : attachment)
  : attachment * list (string * jsval) :=
  match place att with
  | overflow =>
      let blobKey := blobKeyOf report_id i in
      (set_dataUrl (JStr ("local:" +:+ blobKey)) att, [(blobKey, att_dataUrl att)])
  | inline => (att, [])
  end.

(** The clone, and the arguments of the [saveBlobLocal] calls pushed on
    [blobPromises], in the order they were started. *)
Definition prepareForFirestore (r : report) : report * list (string * jsval) :=
  match attachments r with
  | Some atts =>
      if (0 <? length atts)%nat then
        let mapped := imap (prepareAttachment (id r)) atts in
        (set_attachments (Some (mapped.*1)) r, concat (mapped.*2))
      else (r, [])
  | None => (r, [])
  end.

Definition saveReport (e : env) (sched : list nat) (r : report) : io unit :=
  let '(cleaned, blobPromises) := prepareForFirestore r in
  _ <- promise_all sched ((λ kv, saveBlobLocal e kv.1 kv.2) <$> blobPromises) ;;
  doc_set e (id r) cleaned.

Definition deleteReport (e : env) (doc_id : string) : io unit :=
  doc_delete e doc_id.

(** What the [map] callback of [restoreFromFirestore] does with one
    attachment: nothing ([Resolved None]), a lookup of a blob key, or a
    [TypeError] when [dataUrl] is an object without [indexOf]. *)
Definition local_ref (v : jsval) : outcome (option string) :=
  if truthy v then
    match v with
    | JStr s =>
        if starts_with "local:" s
        then Resolved (Some (replace_first "local:" "" s))
        else Resolved None
    | _ => Rejected "TypeError: att.dataUrl.indexOf is not a function"
    end
  else Resolved None.

(** The synchronous part of [report.attachments.map]: for each attachment
    the blob key whose lookup was started, if any.  The first [TypeError]
    leaves the function. *)
Fixpoint started_lookups (atts : list attachment)
  : outcome (list (attachment * option string)) :=
  match atts with
  | [] => Resolved []
  | att :: rest =>
      match local_ref (att_dataUrl att) with
      | Rejected err => Rejected err
      | Resolved ref =>
          match started_lookups rest with
          | Rejected err => Rejected err
          | Resolved refs => Resolved ((att, ref) :: refs)
          end
      end
  end.

(** One promise of the [map]: [att.dataUrl] is overwritten with what
    [getBlobLocal] resolved to. *)
Definition finish_lookup (e : env) (p : attachment * option string) : io attachment :=
  match p.2 with
  | None => ret p.1
  | Some blobKey =>
      dataUrl <- getBlobLocal e blobKey ;;
      ret (set_dataUrl dataUrl p.1)
  end.

(** [Promise.all(promises)].  [getBlobLocal] only reads: the order in which
    the lookups complete cannot be observed, and they are taken in index
    order. *)
Fixpoint await_lookups (e : env) (refs : list (attachment * option string))
  : io (list attachment) :=
  match refs with
  | [] => ret []
  | p :: rest =>
      a <- finish_lookup e p ;;
      l <- await_lookups e rest ;;
      ret (a :: l)
  end.

Definition restoreFromFirestore (e : env) (r : report) : io report :=
  match attachments r with
  | None => ret r
  | Some atts =>
      if (length atts =? 0)%nat then ret r
      else
        match started_lookups atts with
        | Rejected err => reject err
        | Resolved refs =>
            restored <- await_lookups e refs ;;
            ret (set_attachments (Some restored) r)
        end
  end.

(** [null] is [None]. *)
Definition getReport (e : env) (doc_id : string) : io (option report) :=
  doc <- doc_get e doc_id ;;
  match doc with
  | None => ret None
  | Some data =>
      r <- restoreFromFirestore e data ;;
      ret (Some r)
  end.

(** [{ name: att.name, type: att.type, size: att.size }] *)
Definition list_view (att : attachment) : attachment :=
  {| att_name := att_name att; att_type := att_type att; att_size := att_size att;
     att_dataUrl := JUndefined; att_textContent := JUndefined;
     att_file := None; att_storageUrl := None; att_storagePath := None |}.

(** The body of [snap.forEach] in [getAllReports]. *)
Definition strip_report (data : report) : report :=
  match attachments data with
  | Some atts => set_attachments (Some (list_view <$> atts)) data
  | None => data
  end.

Definition getAllReports (query_fails : bool) : io (list report) :=
  snap <- query_by_date_desc query_fails ;;
  ret (strip_report <$> snap).

(** [saveAllReports]: the overflow writes of all reports are started in the
    [forEach]; [sched_blobs] orders their completion.  The [then] callbacks
    that call [batch.set] touch no store; [sched_batch] is the order in which
    they run.  [batch.commit()] is called once every callback has run. *)
Definition saveAllReports (e : env) (sched_blobs sched_batch : list nat)
                          (reports : list report) : io unit :=
  let blobPromises := concat ((λ r, (prepareForFirestore r).2) <$> reports) in
  let batch := (λ r, (id r, (prepareForFirestore r).1)) <$> reports in
  _ <- promise_all sched_blobs ((λ kv, saveBlobLocal e kv.1 kv.2) <$> blobPromises) ;;
  batch_commit e (completion_order sched_batch batch).

End Overflow.

(** ** storage.js, Firestore + Firebase Storage variant

    Report documents live in Firestore, attachment files in Firebase
    Storage.  [prepareForFirestore] writes the cloned attachments into the
    array it was given: [Object.assign({}, report)] copies the reference to
    the array, so [clone.attachments] and [report.attachments] are one
    array, and what is stored in its slots is seen through both. *)
Module RemoteBlob.

Definition COLLECTION : string := "reports".

Definition storage_put (e : env) (path data : string) : io unit := λ w,
  if storage_put_fails e path then (w, [], Rejected "storage/unknown")
  else (set_storage (<[path := data]> (storage w)) (S (storage_gen w)) w,
        [StoragePut path data], Resolved ()).

Definition getDownloadURL (e : env) (path : string) : io string := λ w,
  if storage_url_fails e path then (w, [], Rejected "storage/unknown")
  else (w, [], Resolved (download_url e path (storage_gen w))).

(** [fbStorage.ref(path).delete()]: deleting an object that does not exist
    rejects with the not-found code. *)
Definition storage_delete (e : env) (path : string) : io unit := λ w,
  match storage_delete_error e path with
  | Some err => (w, [], Rejected (error_code err))
  | None =>
      match storage w !! path with
      | None => (w, [], Rejected "storage/object-not-found")
      | Some _ =>
          (set_storage (delete path (storage w)) (storage_gen w) w,
           [StorageDelete path], Resolved ())
      end
  end.

(** [p.catch(h)] *)
Definition catch {A} (p : io A) (h : string → io A) : io A := λ w,
  match p w with
  | (w1, t1, Resolved a) => (w1, t1, Resolved a)
  | (w1, t1, Rejected err) =>
      match h err w1 with
      | (w2, t2, r) => (w2, t1 ++ t2, r)
      end
  end.

(** Resolves with [(storageUrl, storagePath)]. *)
Definition uploadAttachment (e : env) (reportId fileName fileData : string)
  : io (string * string) :=
  let path := "attachments/" +:+ reportId +:+ "/" +:+ fileName in
  _ <- storage_put e path fileData ;;
  url <- getDownloadURL e path ;;
  ret (url, path).

Definition truthy_str (o : option string) : bool :=
  match o with
  | Some s => negb (String.eqb s "")
  | None => false
  end.

Definition deleteAttachment (e : env) (storagePath : option string) : io unit :=
  match storagePath with
  | Some path =>
      if truthy_str storagePath then
        catch (storage_delete e path)
              (λ code, if String.eqb code "storage/object-not-found"
                       then ret () else reject code)
      else ret ()
  | None => ret ()
  end.

(** What the [then] callback of an upload does to [attClone]. *)
Definition set_located (result : string * string) (a : attachment) : attachment :=
  {| att_name := att_name a; att_type := att_type a; att_size := att_size a;
     att_dataUrl := JUndefined; att_textContent := att_textContent a;
     att_file := None; att_storageUrl := Some result.1;
     att_storagePath := Some result.2 |}.

(** [delete attClone.file; delete attClone.dataUrl] *)
Definition strip_payload (a : attachment) : attachment :=
  {| att_name := att_name a; att_type := att_type a; att_size := att_size a;
     att_dataUrl := JUndefined; att_textContent := att_textContent a;
     att_file := None; att_storageUrl := att_storageUrl a;
     att_storagePath := att_storagePath a |}.

(** The branch the [map] callback takes for one attachment. *)
Inductive branch : Type :=
| Upload (fileData : string)   (* a [File], or the blob of a legacy dataUrl *)
| AsIs
| Throws.

Definition classify (e : env) (att : attachment) : branch :=
  match att_file att with
  | Some fileData => Upload fileData
  | None =>
      if truthy (att_dataUrl att) && negb (truthy_str (att_storageUrl att)) then
        match att_dataUrl att with
        | JStr s =>
            match atob_payload e s with
            | Some blob => Upload blob
            | None => Throws
            end
        | _ => Throws   (* no [split] on an object that is not a string *)
        end
      else AsIs
  end.

(** An upload that was started: the slot of its [attClone], the file name
    and the bytes. *)
Record upload : Type := Started {
  up_index : nat;
  up_name : string;
  up_data : string;
}.

(** The synchronous part of [clone.attachments.map], from index [i] on:
    the slots as the callback leaves them, the uploads it started, and
    whether it threw (the slots after the throwing one are untouched). *)
Fixpoint map_callback (e : env) (i : nat) (atts : list attachment)
  : list attachment * list upload * bool :=
  match atts with
  | [] => ([], [], false)
  | att :: rest =>
      match classify e att with
      | Throws => (att :: rest, [], true)
      | AsIs =>
          match map_callback e (S i) rest with
          | (slots, ups, threw) => (strip_payload att :: slots, ups, threw)
          end
      | Upload fileData =>
          match map_callback e (S i) rest with
          | (slots, ups, threw) =>
              (att :: slots, Started i (att_name att) fileData :: ups, threw)
          end
      end
  end.

(** One upload with its [then] callback, which updates the [attClone] in
    slot [up_index] of the array at [addr]. *)
Definition run_upload (e : env) (reportId : string) (addr : nat) (u : upload)
  : io unit :=
  result <- uploadAttachment e reportId (up_name u) (up_data u) ;;
  λ w, (set_arrays (alter (alter (set_located result) (up_index u)) addr (arrays w)) w,
        [], Resolved ()).

(** Resolves with the clone, which shares the attachment array of [r]. *)
Definition prepareForFirestore (e : env) (sched : list nat) (r : report_obj)
  : io report_obj := λ w,
  match attachments r with
  | None => ret r w
  | Some addr =>
      let atts := default [] (arrays w !! addr) in
      if (length atts =? 0)%nat then ret r w
      else
        match map_callback e 0 atts with
        | (slots, ups, threw) =>
            let w1 := set_arrays (<[addr := slots]> (arrays w)) w in
            (uploaded <- promise_all sched (run_upload e (id r) addr <$> ups) ;;
             if threw then reject "exception in prepareForFirestore"
             else ret r) w1
        end
  end.

(** The document [set] serializes: the report with the current content of
    its attachment array. *)
Definition snapshot (w : world) (r : report_obj) : report :=
  set_attachments (addr ← attachments r; arrays w !! addr) r.

Definition saveReport (e : env) (sched : list nat) (r : report_obj)
  : io report_obj :=
  cleaned <- prepareForFirestore e sched r ;;
  _ <- (λ w, doc_set e (id r) (snapshot w cleaned) w) ;;
  ret cleaned.

Definition storagePaths (data : report) : list (option string) :=
  filter (λ p, truthy_str p = true)
         (att_storagePath <$> default [] (attachments data)).

Definition deleteReport (e : env) (sched : list nat) (doc_id : string)
  : io (list unit) :=
  doc <- doc_get e doc_id ;;
  let promises :=
    match doc with
    | Some data => deleteAttachment e <$> storagePaths data
    | None => []
    end in
  promise_all sched (promises ++ [doc_delete e doc_id]).

Definition getReport (e : env) (doc_id : string) : io (option report) :=
  doc_get e doc_id.

(** [x || null] on a string field *)
Definition or_null (o : option string) : option string :=
  if truthy_str o then o else None.

(** The attachment entry [getAllReports] keeps: metadata and the storage
    references. *)
Definition list_view (att : attachment) : attachment :=
  {| att_name := att_name att; att_type := att_type att; att_size := att_size att;
     att_dataUrl := JUndefined; att_textContent := JUndefined; att_file := None;
     att_storageUrl := or_null (att_storageUrl att);
     att_storagePath := or_null (att_storagePath att) |}.

Definition strip_report (data : report) : report :=
  match attachments data with
  | Some atts => set_attachments (Some (list_view <$> atts)) data
  | None => data
  end.

Definition getAllReports (query_fails : bool) : io (list report) :=
  snap <- query_by_date_desc query_fails ;;
  ret (strip_report <$> snap).

End RemoteBlob.

(** ** storage.js, IndexedDB-only variant

    Reports are kept whole in the object store "reports" of the local
    database, under the key path "id". *)
Module LocalOnly.

Definition DB_NAME : string := "intel_portal_db".
Definition STORE_NAME : string := "reports".

(** Which steps of an operation fail: [indexedDB.open], and the
    transaction or its request. *)
Record faults : Type := Faults {
  open_fails : bool;
  tx_fails : bool;
}.

Definition healthy : faults := {| open_fails := false; tx_fails := false |}.

(** The order of the keys of an object store. *)
Definition by_key (a b : string * report) : Prop := String.le a.1 b.1.

Global Instance by_key_dec : RelDecision by_key.
Proof. intros a b. unfold by_key. apply _. Defined.

(** [store.put(report)]: the record replaces the one stored under
    [report.id], if any.  A transaction that errors is rolled back. *)
Definition saveReport (f : faults) (r : report) (db : gmap string report)
  : gmap string report * outcome unit :=
  if open_fails f then (db, Rejected "IndexedDB open error")
  else if tx_fails f then (db, Rejected "IndexedDB transaction error")
  else (<[id r := r]> db, Resolved ()).

Definition deleteReport (f : faults) (report_id : string) (db : gmap string report)
  : gmap string report * outcome unit :=
  if open_fails f then (db, Rejected "IndexedDB open error")
  else if tx_fails f then (db, Rejected "IndexedDB transaction error")
  else (delete report_id db, Resolved ()).

(** [store.getAll()]: the records in the order of their keys. *)
Definition getAllReports (f : faults) (db : gmap string report)
  : outcome (list report) :=
  if open_fails f then Rejected "IndexedDB open error"
  else if tx_fails f then Rejected "IndexedDB request error"
  else Resolved ((merge_sort by_key (map_to_list db)).*2).

(** [reports.forEach((r) => store.put(r))] in one transaction. *)
Definition saveAllReports (f : faults) (reports : list report)
                          (db : gmap string report)
  : gmap string report * outcome unit :=
  if open_fails f then (db, Rejected "IndexedDB open error")
  else if tx_fails f then (db, Rejected "IndexedDB transaction error")
  else (foldl (λ db r, <[id r := r]> db) db reports, Resolved ()).

End LocalOnly.

(** ** dashboard.js: start-up load, report creation and deletion *)
Module Dashboard.

(** When and how a pending promise settles; times are milliseconds since
    the race was started. *)
Inductive settlement (A : Type) : Type :=
| Never
| FulfilledAt (t : Z) (v : A)
| RejectedAt (t : Z) (err : string).
Arguments Never {A}.
Arguments FulfilledAt {A} t v.
Arguments RejectedAt {A} t err.

Definition DB_TIMEOUT : Z := 3000.

(** [Promise.race([p, dbTimeout])]: the time at which the race settles and
    its settlement.  [dbTimeout] rejects at [DB_TIMEOUT]; [p], listed
    first, wins when it settles no later than that. *)
Definition race_dbTimeout {A} (p : settlement A) : Z * outcome A :=
  match p with
  | FulfilledAt t v =>
      if t <=? DB_TIMEOUT then (t, Resolved v)
      else (DB_TIMEOUT, Rejected "DB timeout")
  | RejectedAt t err =>
      if t <=? DB_TIMEOUT then (t, Rejected err)
      else (DB_TIMEOUT, Rejected "DB timeout")
  | Never => (DB_TIMEOUT, Rejected "DB timeout")
  end.

Inductive console_entry : Type :=
| ConsoleLog (msg : string)
| ConsoleError (msg err : string).

(** The global [REPORTS] array and the console, most recent entry first. *)
Record page : Type := Page {
  REPORTS : list report;
  console : list console_entry;
}.

(** The load block at start-up; [remote] is how [StorageDB.getAllReports()]
    settles.  Returns the page and the time at which the block is left. *)
Definition loadAll (remote : settlement (list report)) (pg : page) : page * Z :=
  match race_dbTimeout remote with
  | (t, Resolved saved) =>
      if (0 <? length saved)%nat then
        ({| REPORTS := saved;
            console := ConsoleLog ("Loaded " +:+ String_of_nat (length saved)
                                   +:+ " report(s) from storage.") :: console pg |}, t)
      else (pg, t)
  | (t, Rejected err) =>
      ({| REPORTS := REPORTS pg;
          console := ConsoleError "Failed to load from IndexedDB:" err :: console pg |}, t)
  end.

(** [toUpperCase] on the ASCII letters *)
Definition upper_ascii (c : Ascii.ascii) : Ascii.ascii :=
  let n := Ascii.nat_of_ascii c in
  if ((97 <=? n) && (n <=? 122))%nat then Ascii.ascii_of_nat (n - 32) else c.

Fixpoint toUpperCase (s : string) : string :=
  match s with
  | EmptyString => EmptyString
  | String c s' => String (upper_ascii c) (toUpperCase s')
  end.

Definition newline : string := String (Ascii.ascii_of_nat 10) EmptyString.

(** The trimmed values of the upload form. *)
Record form : Type := Form {
  rpt_passport : string;
  rpt_name : string;
  rpt_nationality : string;
  rpt_date : string;
  rpt_classification : string;
  rpt_summary : string;
  rpt_content : string;
  rpt_location : string;
}.

(** The id the CREATE branch assigns; [year] is [new Date().getFullYear()]. *)
Definition newId (year : nat) (reports : list report) : string :=
  let seq := padStart0 4 (String_of_nat (length reports + 1)) in
  "RPT-" +:+ String_of_nat year +:+ "-" +:+ seq.

(** The CREATE branch of the submit handler, up to [REPORTS.unshift]. *)
Definition createReport (year : nat) (fm : form) (newAttachments : list attachment)
                        (pg : page) : page * report :=
  let id := newId year (REPORTS pg) in
  let r : report :=
    {| id := id;
       passportNumber := toUpperCase (rpt_passport fm);
       subjectName := rpt_name fm;
       nationality := rpt_nationality fm;
       date := rpt_date fm;
       classification := rpt_classification fm;
       summary := rpt_summary fm;
       content := if String.eqb (rpt_content fm) ""
                  then "# Report: " +:+ id +:+ newline +:+ newline
                       +:+ "No detailed content provided."
                  else rpt_content fm;
       locationName := if String.eqb (rpt_location fm) "" then None
                       else Some (rpt_location fm);
       attachments := Some newAttachments |} in
  ({| REPORTS := r :: REPORTS pg; console := console pg |}, r).

(** [REPORTS.splice(REPORTS.findIndex(r => r.id === id), 1)] when the index
    is not [-1] *)
Fixpoint removeReport (report_id : string) (reports : list report) : list report :=
  match reports with
  | [] => []
  | r :: rest =>
      if String.eqb (id r) report_id then rest
      else r :: removeReport report_id rest
  end.

(** The confirm button of the delete dialog, on the in-memory list. *)
Definition confirmDelete (report_id : string) (pg : page) : page :=
  {| REPORTS := removeReport report_id (REPORTS pg); console := console pg |}.

(** *** File sizes *)

(** [(num / den).toFixed(1)] for [num >= 0] and [den] a power of two: the
    quotient is exact in a double, and [toFixed] rounds its decimal
    expansion to the nearest tenth, halves upwards. *)
Definition toFixed1 (num den : Z) : string :=
  let tenths := (20 * num + den) / (2 * den) in
  pretty (tenths / 10) +:+ "." +:+ pretty (tenths mod 10).

Definition formatFileSize (bytes : Z) : string :=
  if bytes <? 1024 then pretty bytes +:+ " B"
  else if bytes <? 1024 * 1024 then toFixed1 bytes 1024 +:+ " KB"
  else toFixed1 bytes (1024 * 1024) +:+ " MB".

(** *** The files waiting in the upload form *)

(** A [File] picked or dropped by the user. *)
Record file : Type := File {
  file_name : string;
  file_size : Z;
  file_type : string;
  file_bytes : string;
}.

(** [p.name === f.name && p.size === f.size] *)
Definition same_file (p f : file) : bool :=
  String.eqb (file_name p) (file_name f) && (file_size p =? file_size f).

(** [handleFiles(list)] on [pendingFiles] *)
Definition handleFiles (picked : list file) (pendingFiles : list file) : list file :=
  foldl (λ pending f,
           if existsb (λ p, same_file p f) pending then pending
           else pending ++ [f])
        pendingFiles picked.

(** The remove button of entry [i]: [pendingFiles.splice(i, 1)] *)
Definition removePending (i : nat) (pendingFiles : list file) : list file :=
  delete i pendingFiles.

(** *** Search *)

(** Strings in which every character is an ASCII character; on these the
    case mappings and [trim] below are those of JavaScript. *)
Fixpoint ascii_only (s : string) : bool :=
  match s with
  | EmptyString => true
  | String c s' => (Ascii.nat_of_ascii c <? 128)%nat && ascii_only s'
  end.

(** [toLowerCase] on the ASCII letters *)
Definition lower_ascii (c : Ascii.ascii) : Ascii.ascii :=
  let n := Ascii.nat_of_ascii c in
  if ((65 <=? n) && (n <=? 90))%nat then Ascii.ascii_of_nat (n + 32) else c.

Fixpoint toLowerCase (s : string) : string :=
  match s with
  | EmptyString => EmptyString
  | String c s' => String (lower_ascii c) (toLowerCase s')
  end.

(** [s.includes(q)] *)
Fixpoint includes (s q : string) : bool :=
  String.prefix q s
  || match s with
     | EmptyString => false
     | String _ s' => includes s' q
     end.

(** The predicate of [REPORTS.filter] in [renderReportList]; [query] is the
    lower-cased filter. *)
Definition matches (query : string) (r : report) : bool :=
  if String.eqb query "" then true
  else includes (toLowerCase (passportNumber r)) query
       || includes (toLowerCase (subjectName r)) query
       || includes (toLowerCase (id r)) query
       || includes (toLowerCase (summary r)) query
       || includes (toLowerCase (nationality r)) query.

(** What the sidebar shows. *)
Inductive sidebar : Type :=
| NoMatch (text : string)
| Items (reports : list report).

Definition filtered (filter_text : string) (pg : page) : list report :=
  List.filter (matches (toLowerCase filter_text)) (REPORTS pg).

Definition renderReportList (filter_text : string) (pg : page) : sidebar :=
  match filtered filter_text pg with
  | [] => NoMatch "No reports match your search."
  | l => Items l
  end.

(** *** Editing *)

(** What the EDIT branch of the submit handler assigns to the report it
    found. *)
Definition applyEdit (fm : form) (newAttachments : list attachment)
                     (existing : report) : report :=
  {| id := id existing;
     passportNumber := toUpperCase (rpt_passport fm);
     subjectName := rpt_name fm;
     nationality := rpt_nationality fm;
     date := rpt_date fm;
     classification := rpt_classification fm;
     summary := rpt_summary fm;
     content := if String.eqb (rpt_content fm) "" then content existing
                else rpt_content fm;
     locationName := if String.eqb (rpt_location fm) "" then None
                     else Some (rpt_location fm);
     attachments := if (0 <? length newAttachments)%nat
                    then Some (default [] (attachments existing) ++ newAttachments)
                    else attachments existing |}.

(** The report [REPORTS.find((r) => r.id === editingReportId)] returns is
    updated in place; nothing happens when there is none. *)
Fixpoint editFirst (editingReportId : string) (f : report → report)
                   (reports : list report) : list report :=
  match reports with
  | [] => []
  | r :: rest =>
      if String.eqb (id r) editingReportId then f r :: rest
      else r :: editFirst editingReportId f rest
  end.

Definition editReport (editingReportId : string) (fm : form)
                      (newAttachments : list attachment) (pg : page) : page :=
  {| REPORTS := editFirst editingReportId (applyEdit fm newAttachments) (REPORTS pg);
     console := console pg |}.

End Dashboard.

(** ** admin.js: the live activity feed *)
Module Admin.

(** A Firestore query on the "activity" collection, newest first. *)
Record query : Type := Query {
  where_username : option string;
  where_action : option string;
  limit : nat;
}.

(** A snapshot listener registered with Firestore: its query and the
    [dateFilter] its callback closes over. *)
Record listener : Type := Listener {
  l_query : query;
  l_dateFilter : string;
}.

(** The values of the three filter controls. *)
Record filters : Type := Filters {
  filterUserSelect : string;
  filterAction : string;
  filterDate : string;
}.

(** [currentUnsubscribe] holds the function returned by [onSnapshot],
    named by the number of the listener it detaches.  [live] is the set
    of listeners Firestore still delivers snapshots to; [unsubscribed]
    lists the unsubscribe calls made, most recent first. *)
Record feed : Type := Feed {
  currentUnsubscribe : option nat;
  live : gmap nat listener;
  next_listener : nat;
  unsubscribed : list nat;
}.

Definition init : feed :=
  {| currentUnsubscribe := None; live := ∅; next_listener := 0%nat;
     unsubscribed := [] |}.

(** Calling the function returned by [onSnapshot]; detaching a listener
    that is already detached changes nothing. *)
Definition unsubscribe (n : nat) (s : feed) : feed :=
  {| currentUnsubscribe := currentUnsubscribe s;
     live := delete n (live s);
     next_listener := next_listener s;
     unsubscribed := n :: unsubscribed s |}.

Definition nonempty (s : string) : bool := negb (String.eqb s "").

Definition build_query (fl : filters) : query :=
  let userFilter := filterUserSelect fl in
  let actionFilter := filterAction fl in
  if nonempty userFilter && nonempty actionFilter then
    {| where_username := Some userFilter; where_action := Some actionFilter;
       limit := 50 |}
  else if nonempty userFilter then
    {| where_username := Some userFilter; where_action := None; limit := 50 |}
  else if nonempty actionFilter then
    {| where_username := None; where_action := Some actionFilter; limit := 50 |}
  else
    {| where_username := None; where_action := None; limit := 50 |}.

(** [query.onSnapshot(...)]: registers a fresh listener and returns its
    unsubscribe function. *)
Definition onSnapshot (l : listener) (s : feed) : feed * nat :=
  let n := next_listener s in
  ({| currentUnsubscribe := currentUnsubscribe s;
      live := <[n := l]> (live s);
      next_listener := S n;
      unsubscribed := unsubscribed s |}, n).

Definition subscribeToActivity (fl : filters) (s : feed) : feed :=
  let s1 := match currentUnsubscribe s with
            | Some u => unsubscribe u s
            | None => s
            end in
  let l := {| l_query := build_query fl; l_dateFilter := filterDate fl |} in
  match onSnapshot l s1 with
  | (s2, u) =>
      {| currentUnsubscribe := Some u; live := live s2;
         next_listener := next_listener s2; unsubscribed := unsubscribed s2 |}
  end.

(** The initial subscription followed by one click on "apply" per entry
    of [changes], each with the filter values set before the click. *)
Definition run (initial : filters) (changes : list filters) : feed :=
  foldl (λ s fl, subscribeToActivity fl s) (subscribeToActivity initial init) changes.

(** *** The snapshot callback *)

(** A document of the "activity" collection as the feed reads it.
    [act_timestamp] is the time of [data.timestamp.toDate()] in ms; it is
    [None] when [data.timestamp] is null or has no [toDate] (the server has
    not assigned the timestamp yet). *)
Record activity : Type := Activity {
  act_username : string;
  act_action : string;
  act_timestamp : option Z;
}.

(** The where-clauses of a query. *)
Definition satisfies (q : query) (a : activity) : bool :=
  match where_username q with
  | Some u => String.eqb (act_username a) u
  | None => true
  end
  && match where_action q with
     | Some x => String.eqb (act_action a) x
     | None => true
     end.

(** What Firestore delivers for a query: of the documents of the collection,
    given newest first, those that satisfy the where-clauses, cut at the
    limit. *)
Definition snapshot_of (q : query) (collection : list activity) : list activity :=
  take (limit q) (List.filter (satisfies q) collection).

(** The content of the feed element. *)
Inductive feed_view : Type :=
| FeedMessage (text color : string)
| FeedItems (items : list activity).

(** Whether the [forEach] body returns before rendering the item;
    [filterDateObj] is the time of [new Date(dateFilter)], [None] for an
    invalid date. *)
Definition skipped_by_date (dateFilter : string) (filterDateObj : option Z)
                           (a : activity) : bool :=
  nonempty dateFilter
  && match act_timestamp a, filterDateObj with
     | Some eventDate, Some d => eventDate <? d
     | _, _ => false
     end.

(** The success callback of [onSnapshot]; [Date_parse] is [new Date(s)]. *)
Definition render_snapshot (Date_parse : string → option Z) (l : listener)
                           (snap : list activity) : feed_view :=
  match snap with
  | [] => FeedMessage "No activity found." "var(--text-muted)"
  | _ =>
      FeedItems
        (List.filter
           (λ a, negb (skipped_by_date (l_dateFilter l)
                                       (Date_parse (l_dateFilter l)) a))
           snap)
  end.

(** The error callback. *)
Definition render_error (message : string) : feed_view :=
  FeedMessage ("Error loading activity: " +:+ message) "var(--danger)".

(** The feed after the listener opened for the filter values [fl] received
    the snapshot of the collection. *)
Definition feed_for (Date_parse : string → option Z) (fl : filters)
                    (collection : list activity) : feed_view :=
  let l := {| l_query := build_query fl; l_dateFilter := filterDate fl |} in
  render_snapshot Date_parse l (snapshot_of (l_query l) collection).

End Admin.

(** ** activity.js: the debounced search log *)
Module ActivityLog.





(** [searchTimer] is the pending timeout: the time at which it is due and
    the query its callback closes over.  [logged] lists the queries of the
    "search" events written, most recent first. *)
Record logger : Type := Logger {
  searchTimer : option (Z * string);
  logged : list string;
}.

Definition init : logger := {| searchTimer := None; logged := [] |}.





End ActivityLog.

(** ** auth.js, client-side variant: fallback hash and session *)
Module AuthDemo.

(** [ToInt32] *)
Definition ToInt32 (x : Z) : Z := (x + 2 ^ 31) mod 2 ^ 32 - 2 ^ 31.

(** [x << n] *)
Definition shl (x n : Z) : Z := ToInt32 (Z.shiftl (ToInt32 x) n).

(** [x | y] *)
Definition bor (x y : Z) : Z := ToInt32 (Z.lor (ToInt32 x) (ToInt32 y)).

(** The body of the loop of the fallback of [sha256]:
    [hash = ((hash << 5) - hash) + char; hash |= 0]. *)
Definition hash_step (hash char : Z) : Z :=
  bor ((shl hash 5 - hash) + char) 0.

(** The loop, over the UTF-16 code units of the message. *)
Definition fallback_hash (message : list Z) : Z := foldl hash_step 0 message.

Definition hex_digit (d : Z) : Ascii.ascii :=
  Ascii.ascii_of_nat (Z.to_nat (if d <? 10 then 48 + d else 87 + d)).

Fixpoint toString16_go (fuel : nat) (n : Z) (acc : string) : string :=
  match fuel with
  | O => acc
  | S fuel' =>
      if n <? 16 then String (hex_digit n) acc
      else toString16_go fuel' (n / 16) (String (hex_digit (n mod 16)) acc)
  end.

(** [n.toString(16)] for an integer [n >= 0] *)
Definition toString16 (n : Z) : string :=
  toString16_go (S (Z.to_nat (Z.log2 n))) n EmptyString.

(** [sha256(message)] where [crypto.subtle] is not available *)
Definition sha256_fallback (message : list Z) : string :=
  "fallback-" +:+ toString16 (Z.abs (fallback_hash message)).

(** The code units of an ASCII string. *)
Fixpoint charCodes (s : string) : list Z :=
  match s with
  | EmptyString => []
  | String c s' => Z.of_nat (Ascii.nat_of_ascii c) :: charCodes s'
  end.

Definition VALID_CREDENTIALS : list string :=
  [ "a2ebd311010aa556de3aaca9f99dd04e354cd47e8a1f7621d43f472067892f9d";
    "68af29504a3f78f91bed2dadd0c4bf06c7727c4f4511a99a6bcb1c4f9f098d54";
    "fallback-454c751e";
    "fallback-5863703c" ].

(** The test of the login handler, with the fallback hash, on the code
    units of [username + ":" + password]. *)
Definition login_accepts (message : list Z) : bool :=
  bool_decide (sha256_fallback message ∈ VALID_CREDENTIALS).

Definition SESSION_DURATION_MS : Z := 30 * 60 * 1000.

(** The object [setSession] stores under [AUTH_KEY]. *)
Record session : Type := Session {
  username : string;
  timestamp : Z;
}.

(** [sessionStorage] holds the JSON of a session written by [setSession],
    or nothing.  Each function takes [Date.now()] as [now]. *)
Definition getSession (now : Z) (stored : option session)
  : option session * option session :=
  match stored with
  | None => (stored, None)
  | Some s =>
      if SESSION_DURATION_MS <? now - timestamp s then (None, None)
      else (stored, Some s)
  end.

Definition setSession (now : Z) (name : string) (stored : option session)
  : option session :=
  Some {| username := name; timestamp := now |}.

Definition clearSession (stored : option session) : option session := None.

(** [requireAuth()]: "auth disabled during development". *)
Definition requireAuth (now : Z) (stored : option session) : option session :=
  match getSession now stored with
  | (stored', None) => setSession now "admin" stored'
  | (stored', Some _) => stored'
  end.

End AuthDemo.

(** ** Notions used in the statements *)

(** A document write, accepted or not. *)
Definition is_doc_write (ev : event) : bool :=
  match ev with
  | DocSet _ _ | DocSetFailed _ _ => true
  | _ => false
  end.

(** A completed write to the overflow store under [target], or to Storage
    at the path [target]. *)
Definition is_put_to (target : string) (ev : event) : bool :=
  match ev with
  | IdbPut key _ => String.eqb key target
  | StoragePut path _ => String.eqb path target
  | _ => false
  end.

Fixpoint count_puts (target : string) (tr : list event) : nat :=
  match tr with
  | [] => 0
  | ev :: rest =>
      ((if is_put_to target ev then 1 else 0) + count_puts target rest)%nat
  end.

Definition idb_put_event (kv : string * jsval) : event := IdbPut kv.1 kv.2.

Definition upload_path (reportId : string) (u : RemoteBlob.upload) : string :=
  "attachments/" +:+ reportId +:+ "/" +:+ RemoteBlob.up_name u.

Definition storage_put_event (reportId : string) (u : RemoteBlob.upload) : event :=
  StoragePut (upload_path reportId u) (RemoteBlob.up_data u).

(** An attachment that carries no raw payload any more. *)
Definition placed (a : attachment) : Prop :=
  att_file a = None ∧ att_dataUrl a = JUndefined.

(** A ["local:"] reference to [key]. *)
Definition local_ref_to (key : string) : jsval := JStr ("local:" +:+ key).

(** The worlds one reaches by deleting: documents and Storage objects only
    disappear, the overflow store is untouched. *)
Definition shrinks (w w' : world) : Prop :=
  docs w' ⊆ docs w ∧ storage w' ⊆ storage w ∧ local_blobs w' = local_blobs w.

(** ** Test data *)

Fixpoint string_repeat (c : Ascii.ascii) (n : nat) : string :=
  match n with
  | O => EmptyString
  | S n' => String c (string_repeat c n')
  end.

Definition letter_A : Ascii.ascii := Ascii.ascii_of_nat 65.

(** A data URL of 800001 characters, one more than the inline budget. *)
Definition big_payload : string := string_repeat letter_A (Pos.to_nat 800001).

Definition mk_attachment (name : string) (size : Z) (dataUrl : jsval) : attachment :=
  {| att_name := name; att_type := "application/pdf"; att_size := size;
     att_dataUrl := dataUrl; att_textContent := JNull; att_file := None;
     att_storageUrl := None; att_storagePath := None |}.

Definition mk_report {A} (report_id : string) (atts : option A) : report_of A :=
  {| id := report_id; passportNumber := "X1"; subjectName := "Subject";
     nationality := "N"; date := "2024-06-01"; classification := "secret";
     summary := "s"; content := "c"; locationName := None; attachments := atts |}.

Definition small_att : attachment := mk_attachment "note.pdf" 3 (JStr "data:abc").
Definition big_att : attachment := mk_attachment "scan.pdf" 600000 (JStr big_payload).
Definition stream_att : attachment := mk_attachment "stream.bin" 0 JObj.
Definition unread_att : attachment := mk_attachment "unread.bin" 12 JNull.

Definition small_report : report := mk_report "RPT-2024-0001" (Some [small_att]).
Definition big_report : report := mk_report "RPT-2024-0001" (Some [big_att]).
Definition big_key : string := "RPT-2024-0001_att_0".

(** An environment in which IndexedDB cannot be opened. *)
Definition idb_unavailable : env :=
  {| idb_open_fails := λ _, true; idb_put_fails := idb_put_fails no_faults;
     idb_get_fails := idb_get_fails no_faults; doc_get_fails := doc_get_fails no_faults;
     doc_set_fails := doc_set_fails no_faults;
     doc_delete_fails := doc_delete_fails no_faults;
     storage_put_fails := storage_put_fails no_faults;
     storage_url_fails := storage_url_fails no_faults;
     storage_delete_error := storage_delete_error no_faults;
     download_url := download_url no_faults; atob_payload := atob_payload no_faults |}.

(** The remote read failed, or did not resolve within the timeout. *)
Definition not_loaded_in_time {A} (p : Dashboard.settlement A) : Prop :=
  match p with
  | Dashboard.Never => True
  | Dashboard.RejectedAt _ _ => True
  | Dashboard.FulfilledAt t _ => Dashboard.DB_TIMEOUT < t
  end.

Definition sample_form : Dashboard.form :=
  {| Dashboard.rpt_passport := "ab123"; Dashboard.rpt_name := "Subject";
     Dashboard.rpt_nationality := "N"; Dashboard.rpt_date := "2024-06-01";
     Dashboard.rpt_classification := "secret"; Dashboard.rpt_summary := "s";
     Dashboard.rpt_content := ""; Dashboard.rpt_location := "" |}.

Definition empty_page : Dashboard.page :=
  {| Dashboard.REPORTS := []; Dashboard.console := [] |}.

(** Two reports are created, the first one is deleted, a third is created:
    the page before the third creation, and the third report. *)
Definition create_create_delete_create (year : nat)
  : Dashboard.page * report * report :=
  let '(pg1, a) := Dashboard.createReport year sample_form [] empty_page in
  let '(pg2, b) := Dashboard.createReport year sample_form [] pg1 in
  let pg3 := Dashboard.confirmDelete (id a) pg2 in
  let '(pg4, c) := Dashboard.createReport year sample_form [] pg3 in
  (pg3, b, c).

(** The listener [subscribeToActivity] registers for given filter values. *)
Definition listener_for (fl : Admin.filters) : Admin.listener :=
  {| Admin.l_query := Admin.build_query fl; Admin.l_dateFilter := Admin.filterDate fl |}.

(** Between two calls of [subscribeToActivity]: the only listener that can
    be live is the one [currentUnsubscribe] detaches, and every listener
    registered before it had its unsubscribe function called. *)
Definition single_listener (s : Admin.feed) : Prop :=
  (∀ n, is_Some (Admin.live s !! n) → Admin.currentUnsubscribe s = Some n)
  ∧ (∀ n, Admin.currentUnsubscribe s = Some n → S n = Admin.next_listener s)
  ∧ (∀ n, S n < Admin.next_listener s → n ∈ Admin.unsubscribed s)%nat
  ∧ (Admin.currentUnsubscribe s = None → Admin.next_listener s = 0%nat).

Definition is_resolved {A} (r : outcome A) : Prop :=
  match r with
  | Resolved _ => True
  | Rejected _ => False
  end.

Definition no_doc_write (tr : list event) : Prop :=
  Forall (λ ev, is_doc_write ev = false) tr.

(** The overflow write for [kv] meets no fault. *)
Definition put_ok (e : env) (kv : string * jsval) : Prop :=
  idb_open_fails e kv.1 = false ∧ idb_put_fails e kv.1 = false.

(** The overflow store after the writes [l], in that order. *)
Definition store_all (m : gmap string jsval) (l : list (string * jsval))
  : gmap string jsval :=
  foldl (λ m kv, <[kv.1 := kv.2]> m) m l.

(** The uploads [RemoteBlob.prepareForFirestore] starts for [r], in the
    order of the attachments. *)
Definition started_uploads (e : env) (w : world) (r : report_obj)
  : list RemoteBlob.upload :=
  match attachments r with
  | Some addr => (RemoteBlob.map_callback e 0 (default [] (arrays w !! addr))).1.2
  | None => []
  end.

(** Every attachment in the array of [r] carries no raw payload. *)
Definition all_placed (w : world) (r : report_obj) : Prop :=
  ∀ addr slots, attachments r = Some addr → arrays w !! addr = Some slots →
                Forall placed slots.

(** The document [Overflow.saveReport] writes for [big_report], and the
    world after saving it into the empty world. *)
Definition big_cleaned : report :=
  mk_report "RPT-2024-0001" (Some [set_dataUrl (local_ref_to big_key) big_att]).

Definition big_saved : world :=
  set_docs (<["RPT-2024-0001" := big_cleaned]> ∅)
           (set_local_blobs (<[big_key := JStr big_payload]> ∅) empty_world).

(** A report object in memory whose one attachment carries a raw file. *)
Definition file_att : attachment :=
  {| att_name := "photo.png"; att_type := "image/png"; att_size := 5;
     att_dataUrl := JUndefined; att_textContent := JNull;
     att_file := Some "bytes"; att_storageUrl := None; att_storagePath := None |}.

Definition file_report : report_obj := mk_report "RPT-2024-0003" (Some 0%nat).

Definition file_world : world := set_arrays {[ 0%nat := [file_att] ]} empty_world.

(** The operations [RemoteBlob.deleteReport] starts. *)
Inductive del_op : Type :=
| DelBlob (storagePath : option string)
| DelDoc (doc_id : string).

Definition run_del (e : env) (op : del_op) : io unit :=
  match op with
  | DelBlob storagePath => RemoteBlob.deleteAttachment e storagePath
  | DelDoc doc_id => doc_delete e doc_id
  end.

(** What a resolved delete operation has achieved in the world [w]. *)
Definition del_done (op : del_op) (w : world) : Prop :=
  match op with
  | DelBlob (Some path) => path ≠ "" → storage w !! path = None
  | DelBlob None => True
  | DelDoc doc_id => docs w !! doc_id = None
  end.

(** [att'] is [att] after hydration in the world [w]: only [dataUrl] may
    differ; a ["local:"] reference is replaced by the stored payload, or by
    [null] when the key is not in the overflow store or the get request
    errors; anything else is left as it is. *)
Definition hydrates (e : env) (w : world) (att att' : attachment) : Prop :=
  att' = set_dataUrl (att_dataUrl att') att
  ∧ (∀ key, att_dataUrl att = local_ref_to key →
       (local_blobs w !! key = None ∨ idb_get_fails e key = true →
        att_dataUrl att' = JNull)
       ∧ (∀ v, local_blobs w !! key = Some v → idb_get_fails e key = false →
          att_dataUrl att' = v))
  ∧ ((∀ key, att_dataUrl att ≠ local_ref_to key) → att' = att).

(** A stored attachment as the application writes it: [dataUrl] is a
    string, [null] or absent, and the overflow database can be opened for
    the key it refers to. *)
Definition readable (e : env) (att : attachment) : Prop :=
  att_dataUrl att ≠ JObj
  ∧ ∀ key, att_dataUrl att = local_ref_to key → idb_open_fails e key = false.

(** Another device: the document of [big_report] is in Firestore, the
    overflow store is empty. *)
Definition other_device : world :=
  set_docs (<["RPT-2024-0001" := big_cleaned]> ∅) empty_world.

(** A payload that is not mistaken for an overflow reference: a string that
    is not of the form ["local:" + key], [null] or absent. *)
Definition plain_payload (att : attachment) : Prop :=
  att_dataUrl att ≠ JObj ∧ ∀ key, att_dataUrl att ≠ local_ref_to key.

(** What a resolved [RemoteBlob.saveReport] of the report [rid] leaves in
    the slot of the attachment [att], in the world [w]: the metadata and the
    text content are those of [att], the payload is gone, and an attachment
    that was uploaded is located at the path built from the report id and
    its name, where Storage holds an object. *)
Definition saved_as (e : env) (rid : string) (w : world) (att slot : attachment) : Prop :=
  att_name slot = att_name att ∧ att_type slot = att_type att
  ∧ att_size slot = att_size att ∧ att_textContent slot = att_textContent att
  ∧ placed slot
  ∧ match RemoteBlob.classify e att with
    | RemoteBlob.Upload _ =>
        att_storagePath slot = Some ("attachments/" +:+ rid +:+ "/" +:+ att_name att)
        ∧ is_Some (att_storageUrl slot)
        ∧ is_Some (storage w !! ("attachments/" +:+ rid +:+ "/" +:+ att_name att))
    | RemoteBlob.AsIs =>
        att_storageUrl slot = att_storageUrl att
        ∧ att_storagePath slot = att_storagePath att
    | RemoteBlob.Throws => False
    end.

(** The object store "reports" has the key path "id": every record is stored
    under its own id. *)
Definition keyed (db : gmap string report) : Prop :=
  ∀ k r, db !! k = Some r → id r = k.

(** The searched fields of the report are ASCII strings. *)
Definition ascii_report (r : report) : Prop :=
  Dashboard.ascii_only (passportNumber r) = true
  ∧ Dashboard.ascii_only (subjectName r) = true
  ∧ Dashboard.ascii_only (id r) = true
  ∧ Dashboard.ascii_only (summary r) = true
  ∧ Dashboard.ascii_only (nationality r) = true.

(** No two entries of the list have the same name and the same size. *)
Definition no_same_file (l : list Dashboard.file) : Prop :=
  ∀ i j p q, l !! i = Some p → l !! j = Some q →
             Dashboard.same_file p q = true → i = j.

(** [a] is listed before [b] by [orderBy("timestamp", "desc")]: both have a
    timestamp, and that of [b] is not later. *)
Definition not_older (a b : Admin.activity) : Prop :=
  match Admin.act_timestamp a, Admin.act_timestamp b with
  | Some ta, Some tb => tb ≤ ta
  | _, _ => False
  end.

(** The collection as the query orders it. *)
Definition newest_first (collection : list Admin.activity) : Prop :=
  StronglySorted not_older collection.

(** The event passes the three filters of the feed; [since] is the time of
    the date typed into the date filter. *)
Definition passes (fl : Admin.filters) (since : option Z) (a : Admin.activity) : Prop :=
  (Admin.filterUserSelect fl = "" ∨ Admin.act_username a = Admin.filterUserSelect fl)
  ∧ (Admin.filterAction fl = "" ∨ Admin.act_action a = Admin.filterAction fl)
  ∧ (Admin.filterDate fl ≠ "" →
     ∀ d t, since = Some d → Admin.act_timestamp a = Some t → d ≤ t).


(** The polynomial hash with base 31 over the integers:
    [c_0 * 31^(n-1) + ... + c_(n-1)]. *)
Definition poly31 (message : list Z) : Z := foldl (λ h c, 31 * h + c) 0 message.

(** * Properties *)

(** ** Strings *)

Lemma string_repeat_length c n : String.length (string_repeat c n) = n.
Proof. induction n as [|n IH]; simpl; [done | by rewrite IH]. Qed.

Lemma big_payload_length : Z.of_nat (String.length big_payload) = 800001.
Proof. unfold big_payload. rewrite string_repeat_length. apply positive_nat_Z. Qed.

Lemma truthy_JStr_nonempty s : (0 < String.length s)%nat → truthy (JStr s) = true.
Proof. destruct s; simpl; [lia | done]. Qed.

Lemma truthy_big_payload : truthy (JStr big_payload) = true.
Proof.
  apply truthy_JStr_nonempty.
  pose proof big_payload_length as H. lia.
Qed.

Lemma string_drop_app s1 s2 : string_drop (String.length s1) (s1 +:+ s2) = s2.
Proof. induction s1 as [|c s1 IH]; simpl; [by destruct s2 | done]. Qed.

Lemma prefix_app s1 s2 : String.prefix s1 (s1 +:+ s2) = true.
Proof.
  induction s1 as [|c s1 IH]; simpl; [by destruct s2 |].
  destruct (Ascii.ascii_dec c c); [done | congruence].
Qed.

Lemma replace_first_unfold pat rep s :
  replace_first pat rep s =
  if String.prefix pat s then rep +:+ string_drop (String.length pat) s
  else match s with
       | EmptyString => EmptyString
       | String c s' => String c (replace_first pat rep s')
       end.
Proof. by destruct s. Qed.

Lemma replace_first_prefix pat s : replace_first pat "" (pat +:+ s) = s.
Proof. by rewrite replace_first_unfold, prefix_app, string_drop_app. Qed.

Lemma blobKeyOf_inj report_id i j :
  Overflow.blobKeyOf report_id i = Overflow.blobKeyOf report_id j → i = j.
Proof.
  unfold Overflow.blobKeyOf, String_of_nat. intros H.
  apply (inj (String.app report_id)) in H.
  apply (inj (String.app "_att_")) in H.
  by apply (inj pretty) in H.
Qed.

(** ** Lists *)

Lemma elem_of_concat {A} (x : A) (ls : list (list A)) :
  x ∈ concat ls ↔ ∃ l, l ∈ ls ∧ x ∈ l.
Proof.
  induction ls as [|l ls IH]; simpl.
  - split; [by intros ?%elem_of_nil | by intros (l & ?%elem_of_nil & _)].
  - rewrite elem_of_app, IH. split.
    + intros [H | (l' & Hl' & Hx)].
      * exists l. split; [apply elem_of_cons; by left | done].
      * exists l'. split; [apply elem_of_cons; by right | done].
    + intros (l' & [-> | Hl']%elem_of_cons & Hx); [by left | right; eauto].
Qed.

(** ** Placement in the overflow variant *)

Lemma place_overflow_iff att :
  Overflow.place att = Overflow.overflow ↔
  ∃ s, att_dataUrl att = JStr s ∧ Overflow.MAX_INLINE_SIZE < Z.of_nat (String.length s).
Proof.
  unfold Overflow.place. destruct (att_dataUrl att) as [| |s|]; simpl.
  - split; [done | by intros (? & ? & _)].
  - split; [done | by intros (? & ? & _)].
  - destruct (negb (String.eqb s "")) eqn:Ht; simpl.
    + destruct (Overflow.MAX_INLINE_SIZE <? Z.of_nat (String.length s)) eqn:Hl.
      * apply Z.ltb_lt in Hl. split; [eauto | done].
      * apply Z.ltb_ge in Hl. split; [done |].
        intros (s' & [= <-] & ?). lia.
    + split; [done |]. intros (s' & [= <-] & Hlen).
      apply negb_false_iff, String.eqb_eq in Ht. subst s.
      unfold Overflow.MAX_INLINE_SIZE in Hlen. simpl in Hlen. lia.
  - split; [done | by intros (? & ? & _)].
Qed.

Lemma place_big_att : Overflow.place big_att = Overflow.overflow.
Proof.
  apply place_overflow_iff. exists big_payload. split; [done |].
  rewrite big_payload_length. unfold Overflow.MAX_INLINE_SIZE. lia.
Qed.

Lemma prepare_lookup (r : report) atts i att :
  attachments r = Some atts → atts !! i = Some att →
  attachments (Overflow.prepareForFirestore r).1 ≫= (.!! i)
  = Some (Overflow.prepareAttachment (id r) i att).1.
Proof.
  intros Hr Hi. unfold Overflow.prepareForFirestore. rewrite Hr.
  assert (0 < length atts)%nat as Hlen
    by (pose proof (lookup_lt_Some _ _ _ Hi); lia).
  apply Nat.ltb_lt in Hlen. rewrite Hlen. simpl.
  by rewrite list_lookup_fmap, list_lookup_imap, Hi.
Qed.

Lemma prepare_puts (r : report) atts k v :
  attachments r = Some atts →
  (k, v) ∈ (Overflow.prepareForFirestore r).2 ↔
  ∃ i att, atts !! i = Some att ∧ Overflow.place att = Overflow.overflow
           ∧ k = Overflow.blobKeyOf (id r) i ∧ v = att_dataUrl att.
Proof.
  intros Hr. unfold Overflow.prepareForFirestore. rewrite Hr.
  destruct (0 <? length atts)%nat eqn:Hlen; simpl.
  - rewrite elem_of_concat. split.
    + intros (l & Hl & Hx).
      apply list_elem_of_fmap in Hl as ([a' l'] & -> & Hin).
      apply list_elem_of_lookup in Hin as (i & Hi).
      rewrite list_lookup_imap in Hi.
      destruct (atts !! i) as [att|] eqn:Hatt; [|done].
      simpl in Hi. injection Hi as Hi. exists i, att. split; [done |].
      unfold Overflow.prepareAttachment in Hi.
      destruct (Overflow.place att); simplify_eq/=.
      * by apply elem_of_nil in Hx.
      * apply list_elem_of_singleton in Hx. by simplify_eq.
    + intros (i & att & Hi & Hp & -> & ->).
      exists [(Overflow.blobKeyOf (id r) i, att_dataUrl att)].
      split; [| by apply list_elem_of_singleton].
      apply list_elem_of_fmap.
      exists (Overflow.prepareAttachment (id r) i att). split.
      * unfold Overflow.prepareAttachment. by rewrite Hp.
      * apply list_elem_of_lookup. exists i.
        by rewrite list_lookup_imap, Hi.
  - apply Nat.ltb_ge in Hlen. destruct atts; [|simpl in Hlen; lia].
    split; [by intros ?%elem_of_nil | by intros (i & att & Hi & _)].
Qed.

(** C1. Without a remote blob store, an attachment whose data URL has at
    most [MAX_INLINE_SIZE] = 800000 characters is placed inline: it is
    copied unchanged into the document and no overflow write is started for
    its slot.  One whose data URL is longer is placed in overflow: a write
    of the data URL under the slot's key is started, and the document
    carries the ["local:"] reference to that key instead. *)
Theorem C1_placement_by_size (r : report) atts i att s :
  attachments r = Some atts →
  atts !! i = Some att →
  att_dataUrl att = JStr s →
  Overflow.MAX_INLINE_SIZE = 800000 ∧
  (Z.of_nat (String.length s) ≤ Overflow.MAX_INLINE_SIZE →
     Overflow.place att = Overflow.inline
     ∧ attachments (Overflow.prepareForFirestore r).1 ≫= (.!! i) = Some att
     ∧ ∀ v, (Overflow.blobKeyOf (id r) i, v) ∉ (Overflow.prepareForFirestore r).2)
  ∧ (Overflow.MAX_INLINE_SIZE < Z.of_nat (String.length s) →
     Overflow.place att = Overflow.overflow
     ∧ attachments (Overflow.prepareForFirestore r).1 ≫= (.!! i)
       = Some (set_dataUrl (local_ref_to (Overflow.blobKeyOf (id r) i)) att)
     ∧ (Overflow.blobKeyOf (id r) i, JStr s) ∈ (Overflow.prepareForFirestore r).2).
Proof.
  intros Hr Hi Hs. split; [done |]. split; intros Hlen.
  - assert (Overflow.place att = Overflow.inline) as Hp.
    { destruct (Overflow.place att) eqn:Hp; [done |].
      apply place_overflow_iff in Hp as (s' & Hs' & ?).
      rewrite Hs in Hs'. injection Hs' as <-. lia. }
    split; [done |]. split.
    + rewrite (prepare_lookup r atts i att Hr Hi).
      unfold Overflow.prepareAttachment. by rewrite Hp.
    + intros v Hin. apply (prepare_puts r atts _ _ Hr) in Hin
        as (j & att' & Hj & Hp' & Hk & _).
      apply blobKeyOf_inj in Hk. subst j. congruence.
  - assert (Overflow.place att = Overflow.overflow) as Hp.
    { apply place_overflow_iff. eauto. }
    split; [done |]. split.
    + rewrite (prepare_lookup r atts i att Hr Hi).
      unfold Overflow.prepareAttachment. by rewrite Hp.
    + apply (prepare_puts r atts _ _ Hr). exists i, att. by rewrite Hs.
Qed.

Lemma C1_placement_by_size_witness :
  Overflow.place small_att = Overflow.inline
  ∧ Overflow.place big_att = Overflow.overflow.
Proof.
  split.
  - destruct (C1_placement_by_size small_report [small_att] 0 small_att "data:abc"
                eq_refl eq_refl eq_refl) as (_ & Hsmall & _).
    apply Hsmall. unfold Overflow.MAX_INLINE_SIZE. simpl. lia.
  - destruct (C1_placement_by_size big_report [big_att] 0 big_att big_payload
                eq_refl eq_refl eq_refl) as (_ & _ & Hbig).
    apply Hbig. rewrite big_payload_length. unfold Overflow.MAX_INLINE_SIZE. lia.
Defined.

(** C9 (as stated, refuted). A payload without a measurable length, here a
    stream handle and an unread ([null]) data URL, is placed inline. *)
Lemma C9_unknown_size_is_inline :
  js_length (att_dataUrl stream_att) = None
  ∧ Overflow.place stream_att = Overflow.inline
  ∧ js_length (att_dataUrl unread_att) = None
  ∧ Overflow.place unread_att = Overflow.inline
  ∧ Overflow.prepareForFirestore (mk_report "RPT-2024-0002" (Some [stream_att; unread_att]))
    = (mk_report "RPT-2024-0002" (Some [stream_att; unread_att]), []).
Proof. repeat split. Qed.

(** C9 (amended). In the variant without a remote blob store, an attachment
    whose payload has no measurable length ([null], [undefined], or an
    object without [length]) is never sent to overflow: the placement is
    inline, the attachment is copied unchanged and no overflow write is
    started for it. *)
Theorem C9_no_length_stays_inline (report_id : string) (i : nat) (att : attachment) :
  js_length (att_dataUrl att) = None →
  Overflow.place att = Overflow.inline
  ∧ Overflow.prepareAttachment report_id i att = (att, []).
Proof.
  intros Hlen.
  assert (Overflow.place att = Overflow.inline) as Hp.
  { destruct (Overflow.place att) eqn:Hp; [done |].
    apply place_overflow_iff in Hp as (s & Hs & _).
    rewrite Hs in Hlen. done. }
  split; [done |]. unfold Overflow.prepareAttachment. by rewrite Hp.
Qed.

Lemma C9_no_length_stays_inline_witness :
  Overflow.place stream_att = Overflow.inline
  ∧ Overflow.prepareAttachment "RPT-2024-0002" 0 stream_att = (stream_att, []).
Proof. apply (C9_no_length_stays_inline "RPT-2024-0002" 0 stream_att). reflexivity. Defined.

(** ** The overflow store *)

(** What [getBlobLocal] does in general: once the local database is open it
    always resolves, with the stored payload when the key is present and the
    get request succeeds, with [null] when the key is missing or the get
    request errors; when opening the database fails it rejects.  It never
    changes a store. *)
Lemma getBlobLocal_outcomes (e : env) (key : string) (w : world) :
  (idb_open_fails e key = false →
     ∃ v, Overflow.getBlobLocal e key w = (w, [], Resolved v)
          ∧ (∀ d, local_blobs w !! key = Some d → idb_get_fails e key = false → v = d)
          ∧ (local_blobs w !! key = None ∨ idb_get_fails e key = true → v = JNull))
  ∧ (idb_open_fails e key = true →
     ∃ err, Overflow.getBlobLocal e key w = (w, [], Rejected err)).
Proof.
  unfold Overflow.getBlobLocal, Overflow.openLocalDB, bind, ret, reject.
  split; intros Hopen; rewrite Hopen; simpl.
  - destruct (idb_get_fails e key) eqn:Hget.
    + eexists. split; [done |]. split; [done | done].
    + eexists. split; [done |]. split.
      * by intros d ->.
      * by intros [-> | ?].
  - by eexists.
Qed.

(** C10 (the code at the failing input). The report with an oversized
    attachment has been saved on this device, so the key of its overflow
    entry is present in the overflow store; IndexedDB then cannot be opened:
    [getBlobLocal] of that key rejects, it does not resolve with the payload
    or with [null]. *)
Theorem C10_getBlobLocal_rejects :
  local_blobs big_saved !! big_key = Some (JStr big_payload)
  ∧ Overflow.getBlobLocal idb_unavailable big_key big_saved
    = (big_saved, [], Rejected "IndexedDB open error").
Proof. split; [apply lookup_insert_eq | reflexivity]. Qed.

(** ** The activity subscription *)

Lemma single_listener_init : single_listener Admin.init.
Proof.
  unfold single_listener, Admin.init; simpl. repeat split.
  - intros n [x Hx]. by rewrite lookup_empty in Hx.
  - done.
  - intros n Hn. lia.
Qed.

(** What one call of [subscribeToActivity] leaves behind. *)
Lemma subscribe_step (fl : Admin.filters) (s : Admin.feed) :
  single_listener s →
  let s' := Admin.subscribeToActivity fl s in
  single_listener s'
  ∧ Admin.currentUnsubscribe s' = Some (Admin.next_listener s)
  ∧ Admin.live s' = {[ Admin.next_listener s := listener_for fl ]}
  ∧ Admin.next_listener s' = S (Admin.next_listener s)
  ∧ (∀ u, Admin.currentUnsubscribe s = Some u → u ∈ Admin.unsubscribed s').
Proof.
  intros (Hlive & Hcur & Hold & Hnone).
  assert (Admin.live (match Admin.currentUnsubscribe s with
                      | Some u => Admin.unsubscribe u s
                      | None => s
                      end) = ∅) as Hempty.
  { apply map_eq. intros n. rewrite lookup_empty.
    destruct (Admin.currentUnsubscribe s) as [u|] eqn:Hu; simpl.
    - destruct (decide (u = n)) as [->|Hne].
      + apply lookup_delete_eq.
      + rewrite lookup_delete_ne by done.
        destruct (Admin.live s !! n) eqn:Hn; [|done].
        specialize (Hlive n (mk_is_Some _ _ Hn)). congruence.
    - destruct (Admin.live s !! n) eqn:Hn; [|done].
      specialize (Hlive n (mk_is_Some _ _ Hn)). congruence. }
  unfold Admin.subscribeToActivity, Admin.onSnapshot. simpl.
  rewrite Hempty.
  assert (Admin.next_listener (match Admin.currentUnsubscribe s with
                               | Some u => Admin.unsubscribe u s
                               | None => s
                               end) = Admin.next_listener s) as Hnext
      by (by destruct (Admin.currentUnsubscribe s)).
  rewrite Hnext. repeat split; simpl.
  - intros n [x Hx]. rewrite insert_empty in Hx.
    apply lookup_singleton_Some in Hx as [-> _]. done.
  - by intros n [= ->].
  - intros n Hn.
    destruct (Admin.currentUnsubscribe s) as [u|] eqn:Hu; simpl.
    + specialize (Hcur u eq_refl).
      destruct (decide (n = u)) as [->|Hne]; [apply elem_of_cons; by left |].
      apply elem_of_cons; right. apply Hold. lia.
    + specialize (Hnone eq_refl). lia.
  - done.
  - intros u Hu. rewrite Hu. simpl. apply elem_of_cons; by left.
Qed.

Lemma unsubscribed_mono (fl : Admin.filters) (s : Admin.feed) n :
  n ∈ Admin.unsubscribed s → n ∈ Admin.unsubscribed (Admin.subscribeToActivity fl s).
Proof.
  unfold Admin.subscribeToActivity, Admin.onSnapshot. simpl.
  destruct (Admin.currentUnsubscribe s); simpl; [|done].
  intros ?. apply elem_of_cons; by right.
Qed.

Lemma run_snoc initial changes fl :
  Admin.run initial (changes ++ [fl])
  = Admin.subscribeToActivity fl (Admin.run initial changes).
Proof. unfold Admin.run. by rewrite foldl_app. Qed.

Lemma run_state initial changes :
  let s := Admin.run initial changes in
  single_listener s
  ∧ Admin.currentUnsubscribe s = Some (length changes)
  ∧ Admin.next_listener s = S (length changes)
  ∧ Admin.live s = {[ length changes := listener_for (List.last changes initial) ]}.
Proof.
  induction changes as [|fl changes IH] using rev_ind.
  - destruct (subscribe_step initial Admin.init single_listener_init)
      as (Hs & Hc & Hl & Hn & _). done.
  - rewrite run_snoc. destruct IH as (Hs & Hc & Hn & Hl).
    destruct (subscribe_step fl _ Hs) as (Hs' & Hc' & Hl' & Hn' & _).
    rewrite Hn in Hc', Hl', Hn'. rewrite length_app, List.last_last. simpl.
    replace (length changes + 1)%nat with (S (length changes)) by lia. done.
Qed.

(** C5. After the initial subscription and any sequence of filter changes
    exactly one snapshot listener is live, the one opened for the filter
    values applied last, and the unsubscribe function of every listener
    opened before it has been called.  In particular after [setFilter A]
    followed by [setFilter B] the listener of [B] is the only live one and
    the unsubscribe of [A]'s has been called.  Before the first call no
    listener is live. *)
Theorem C5_single_live_subscription (initial : Admin.filters) (changes : list Admin.filters) :
  let s := Admin.run initial changes in
  size (Admin.live s) = 1%nat
  ∧ Admin.live s = {[ length changes := listener_for (List.last changes initial) ]}
  ∧ Admin.currentUnsubscribe s = Some (length changes)
  ∧ (∀ n, n < length changes → n ∈ Admin.unsubscribed s ∧ Admin.live s !! n = None)%nat
  ∧ size (Admin.live Admin.init) = 0%nat
  ∧ (∀ A B, let sA := Admin.subscribeToActivity A s in
            let sB := Admin.subscribeToActivity B sA in
            ∃ a b, Admin.currentUnsubscribe sA = Some a
                   ∧ Admin.live sB = {[ b := listener_for B ]}
                   ∧ a ≠ b ∧ a ∈ Admin.unsubscribed sB).
Proof.
  destruct (run_state initial changes) as (Hs & Hc & Hn & Hl). simpl.
  split; [by rewrite Hl, map_size_singleton |].
  split; [done |]. split; [done |]. split; [|split].
  - intros n Hlt. split.
    + destruct Hs as (_ & _ & Hold & _). apply Hold. lia.
    + rewrite Hl. apply lookup_singleton_ne. lia.
  - done.
  - intros A B.
    destruct (subscribe_step A _ Hs) as (HsA & HcA & HlA & HnA & _).
    destruct (subscribe_step B _ HsA) as (HsB & HcB & HlB & HnB & HuB).
    exists (Admin.next_listener (Admin.run initial changes)),
           (Admin.next_listener (Admin.subscribeToActivity A (Admin.run initial changes))).
    split; [done |]. split; [done |]. split; [lia |]. by apply HuB.
Qed.

(** ** The start-up load *)

(** C6. When the remote read of the start-up load rejects, or does not
    resolve within the timeout of 3000 ms, the in-memory list [REPORTS] is
    left as it was, the failure is written to the console, and the load
    block is left no later than the timeout. *)
Theorem C6_load_failure_keeps_cache
    (remote : Dashboard.settlement (list report)) (pg : Dashboard.page) :
  not_loaded_in_time remote →
  Dashboard.DB_TIMEOUT = 3000
  ∧ Dashboard.REPORTS (Dashboard.loadAll remote pg).1 = Dashboard.REPORTS pg
  ∧ (∃ err, Dashboard.console (Dashboard.loadAll remote pg).1
            = Dashboard.ConsoleError "Failed to load from IndexedDB:" err
                :: Dashboard.console pg)
  ∧ (Dashboard.loadAll remote pg).2 ≤ Dashboard.DB_TIMEOUT.
Proof.
  intros H. split; [done |].
  unfold Dashboard.loadAll, Dashboard.race_dbTimeout.
  destruct remote as [|t v|t err]; simpl in *.
  - split; [done |]. split; [by eexists | done].
  - apply Z.leb_gt in H. rewrite H. simpl.
    split; [done |]. split; [by eexists | done].
  - destruct (t <=? Dashboard.DB_TIMEOUT) eqn:Ht; simpl.
    + apply Z.leb_le in Ht. split; [done |]. split; [by eexists | done].
    + split; [done |]. split; [by eexists | done].
Qed.

Lemma C6_load_failure_keeps_cache_witness :
  Dashboard.REPORTS
    (Dashboard.loadAll Dashboard.Never
       {| Dashboard.REPORTS := [small_report]; Dashboard.console := [] |}).1
  = [small_report]
  ∧ Dashboard.REPORTS
      (Dashboard.loadAll (Dashboard.FulfilledAt 3001 [])
         {| Dashboard.REPORTS := [small_report]; Dashboard.console := [] |}).1
    = [small_report].
Proof.
  split.
  - apply (C6_load_failure_keeps_cache Dashboard.Never
             {| Dashboard.REPORTS := [small_report]; Dashboard.console := [] |}).
    exact I.
  - apply (C6_load_failure_keeps_cache (Dashboard.FulfilledAt 3001 [])
             {| Dashboard.REPORTS := [small_report]; Dashboard.console := [] |}).
    unfold not_loaded_in_time, Dashboard.DB_TIMEOUT. lia.
Defined.

(** ** Report identifiers *)

(** C7 (the code at the failing input). Two reports are created, the first
    is deleted, a third is created: the third report gets the identifier of
    the second, which is still in the list. *)
Theorem C7_id_reused_after_delete :
  let '(pg, b, c) := create_create_delete_create 2024 in
  id c = "RPT-2024-0002" ∧ id b = id c ∧ b ∈ Dashboard.REPORTS pg.
Proof.
  vm_compute. split; [done |]. split; [done |]. apply elem_of_cons; by left.
Qed.

(** ** Schedules and [Promise.all] *)

Lemma insert_at_perm {A} n (x : A) l : insert_at n x l ≡ₚ x :: l.
Proof.
  revert n. induction l as [|y l IH]; intros [|n]; simpl; try done.
  rewrite IH. apply Permutation_swap.
Qed.

Lemma completion_order_perm {A} sched (l : list A) : completion_order sched l ≡ₚ l.
Proof.
  revert sched. induction l as [|x l IH]; intros sched; simpl; [done |].
  by rewrite insert_at_perm, IH.
Qed.

Lemma insert_at_middle {A} (x : A) l1 l2 :
  insert_at (length l1) x (l1 ++ l2) = l1 ++ x :: l2.
Proof. induction l1 as [|y l1 IH]; simpl; [by destruct l2 | by rewrite IH]. Qed.

(** Every order in which the started operations can complete is the
    completion order of some schedule. *)
Lemma completion_order_complete {A} (l l' : list A) :
  l' ≡ₚ l → ∃ sched, completion_order sched l = l'.
Proof.
  revert l'. induction l as [|x l IH]; intros l' Hperm.
  - apply Permutation_nil_r in Hperm as ->. by exists [].
  - assert (x ∈ l') as Hin by (rewrite Hperm; apply elem_of_cons; by left).
    apply list_elem_of_split in Hin as (l1 & l2 & ->).
    symmetry in Hperm. apply Permutation_cons_app_inv in Hperm.
    destruct (IH (l1 ++ l2)) as (sched & Hs); [done |].
    exists (length l1 :: sched). simpl. by rewrite Hs, insert_at_middle.
Qed.

Lemma insert_at_fmap {A B} (f : A → B) n x l :
  insert_at n (f x) (f <$> l) = f <$> insert_at n x l.
Proof.
  revert n. induction l as [|y l IH]; intros [|n]; simpl; try done.
  by rewrite IH.
Qed.

Lemma completion_order_fmap {A B} (f : A → B) sched l :
  completion_order sched (f <$> l) = f <$> completion_order sched l.
Proof.
  revert sched. induction l as [|x l IH]; intros sched; simpl; [done |].
  by rewrite IH, insert_at_fmap.
Qed.

Lemma elem_of_completion_order {A} sched (l : list A) x :
  x ∈ completion_order sched l ↔ x ∈ l.
Proof. by rewrite completion_order_perm. Qed.

(** Where a document write sits in a trace that is a run of blob-tier
    operations followed by at most one document write. *)
Lemma doc_write_position (trP trD tr1 tr2 : list event) ev :
  no_doc_write trP →
  trD = [] ∨ (∃ ev', trD = [ev']) →
  trP ++ trD = tr1 ++ ev :: tr2 →
  is_doc_write ev = true →
  tr1 = trP ∧ trD = [ev] ∧ tr2 = [].
Proof.
  intros HP HD Heq Hev.
  apply app_eq_inv in Heq as [(k & -> & Hk) | (k & -> & Hk)].
  - destruct k as [|x k].
    + simpl in Hk. rewrite app_nil_r.
      destruct HD as [-> | (ev' & ->)]; [done |].
      by injection Hk as <- <-.
    + exfalso. injection Hk as <- _.
      apply Forall_app in HP as [_ HP].
      apply Forall_cons in HP as [HP _]. congruence.
  - destruct HD as [-> | (ev' & ->)]; [by destruct k |].
    destruct k as [|x k].
    + injection Hk as <- <-. by rewrite app_nil_r.
    + exfalso. injection Hk as _ Hk. by destruct k.
Qed.

(** ** Saving in the overflow variant *)

Lemma set_local_blobs_id w : set_local_blobs (local_blobs w) w = w.
Proof. by destruct w. Qed.

Lemma settle_puts e (l : list (string * jsval)) w w' tr res :
  settle ((λ kv, Overflow.saveBlobLocal e kv.1 kv.2) <$> l) w = (w', tr, res) →
  w' = set_local_blobs (local_blobs w') w
  ∧ no_doc_write tr
  ∧ (is_resolved res →
       Forall (put_ok e) l ∧ tr = idb_put_event <$> l
       ∧ local_blobs w' = store_all (local_blobs w) l)
  ∧ (Forall (put_ok e) l → is_resolved res).
Proof.
  revert w w' tr res. induction l as [|[k v] l IH]; intros w w' tr res; simpl.
  - intros [= <- <- <-]. split; [by rewrite set_local_blobs_id |].
    split; [by apply Forall_nil |]. done.
  - unfold Overflow.saveBlobLocal at 1, Overflow.openLocalDB, bind, ret, reject.
    destruct (idb_open_fails e k) eqn:Ho; simpl.
    { destruct (settle _ w) as [[w2 t2] r2] eqn:Hs. intros [= <- <- <-].
      destruct (IH _ _ _ _ Hs) as (Hw & Ht & _). simpl.
      split; [done |]. split; [done |]. split; [done |].
      intros [[??] _]%Forall_cons. simpl in *. congruence. }
    destruct (idb_put_fails e k) eqn:Hp; simpl.
    { destruct (settle _ w) as [[w2 t2] r2] eqn:Hs. intros [= <- <- <-].
      destruct (IH _ _ _ _ Hs) as (Hw & Ht & _). simpl.
      split; [done |]. split; [done |]. split; [done |].
      intros [[??] _]%Forall_cons. simpl in *. congruence. }
    destruct (settle _ (set_local_blobs _ w)) as [[w2 t2] r2] eqn:Hs.
    intros [= <- <- <-].
    destruct (IH _ _ _ _ Hs) as (Hw & Ht & Hres & Hok). simpl in *.
    split; [by rewrite Hw at 1 |].
    split; [by apply Forall_cons |].
    split.
    + intros Hr. destruct r2 as [x|]; [|done].
      destruct (Hres I) as (Hall & -> & Hb).
      split; [by apply Forall_cons |]. split; [done |]. by rewrite Hb.
    + intros [_ Hall]%Forall_cons. specialize (Hok Hall). by destruct r2.
Qed.

Lemma Overflow_saveReport_trace e sched (r : report) w w' tr res :
  Overflow.saveReport e sched r w = (w', tr, res) →
  let cleaned := (Overflow.prepareForFirestore r).1 in
  let started := completion_order sched (Overflow.prepareForFirestore r).2 in
  ∃ trP trD,
    tr = trP ++ trD ∧ no_doc_write trP
    ∧ ((trD = [] ∧ ¬ is_resolved res)
       ∨ (Forall (put_ok e) started
          ∧ trP = idb_put_event <$> started
          ∧ local_blobs w' = store_all (local_blobs w) started
          ∧ ((trD = [DocSet (id r) cleaned] ∧ is_resolved res
              ∧ docs w' = <[id r := cleaned]> (docs w))
             ∨ (trD = [DocSetFailed (id r) cleaned] ∧ ¬ is_resolved res
                ∧ docs w' = docs w)))).
Proof.
  unfold Overflow.saveReport.
  destruct (Overflow.prepareForFirestore r) as [cleaned puts]. simpl.
  unfold bind, promise_all. rewrite completion_order_fmap.
  destruct (settle _ w) as [[w1 t1] r1] eqn:Hs.
  destruct (settle_puts _ _ _ _ _ _ Hs) as (Hw & Ht & Hres & _).
  destruct r1 as [x|err].
  - destruct (Hres I) as (Hall & -> & Hb).
    unfold doc_set. destruct (doc_set_fails e (id r)); intros [= <- <- <-].
    + eexists _, _. split; [done |]. split; [done |]. right.
      split; [done |]. split; [done |]. split; [done |]. right.
      split; [done |]. split; [by intros [] |]. by rewrite Hw.
    + eexists _, _. split; [done |]. split; [done |]. right.
      split; [done |]. split; [done |]. split; [done |]. left.
      split; [done |]. split; [done |]. simpl. by rewrite Hw at 1.
  - intros [= <- <- <-]. exists t1, []. split; [by rewrite app_nil_r |].
    split; [done |]. left. split; [done | by intros []].
Qed.

(** ** Saving in the Storage variant *)

Lemma set_arrays_id w : set_arrays (arrays w) w = w.
Proof. by destruct w. Qed.

Lemma placed_set_located result a : placed (RemoteBlob.set_located result a).
Proof. by split. Qed.

Lemma placed_strip_payload a : placed (RemoteBlob.strip_payload a).
Proof. by split. Qed.

Lemma strip_payload_placed a : placed a → RemoteBlob.strip_payload a = a.
Proof. destruct a. intros [Hf Hd]. simpl in *. by subst. Qed.

Lemma classify_placed e a : placed a → RemoteBlob.classify e a = RemoteBlob.AsIs.
Proof. intros [Hf Hd]. unfold RemoteBlob.classify. by rewrite Hf, Hd. Qed.

Lemma map_callback_placed e i l :
  Forall placed l → RemoteBlob.map_callback e i l = (l, [], false).
Proof.
  revert i. induction l as [|a l IH]; intros i Hall; simpl; [done |].
  apply Forall_cons in Hall as [Ha Hl].
  by rewrite (classify_placed e a Ha), (IH (S i) Hl), (strip_payload_placed a Ha).
Qed.

Lemma map_callback_slots e i atts slots ups :
  RemoteBlob.map_callback e i atts = (slots, ups, false) →
  ∀ j a, slots !! j = Some a →
         placed a ∨ (i + j)%nat ∈ (RemoteBlob.up_index <$> ups).
Proof.
  revert i slots ups. induction atts as [|att atts IH]; intros i slots ups; simpl.
  - intros [= <- <-] j a Hj. by rewrite lookup_nil in Hj.
  - destruct (RemoteBlob.classify e att); [| |done].
    + destruct (RemoteBlob.map_callback e (S i) atts) as [[slots1 ups1] threw1] eqn:Hm.
      intros [= <- <- ->] [|j] a Hj; simpl in *.
      * right. rewrite Nat.add_0_r. apply elem_of_cons. by left.
      * destruct (IH _ _ _ Hm j a Hj) as [?|Hin]; [by left |].
        right. apply elem_of_cons. right. by rewrite <- Nat.add_succ_comm.
    + destruct (RemoteBlob.map_callback e (S i) atts) as [[slots1 ups1] threw1] eqn:Hm.
      intros [= <- <- ->] [|j] a Hj; simpl in *.
      * left. injection Hj as <-. apply placed_strip_payload.
      * destruct (IH _ _ _ Hm j a Hj) as [?|Hin]; [by left |].
        right. by rewrite <- Nat.add_succ_comm.
Qed.

Lemma run_upload_spec e rid addr u w w' tr res :
  RemoteBlob.run_upload e rid addr u w = (w', tr, res) →
  docs w' = docs w ∧ local_blobs w' = local_blobs w ∧ no_doc_write tr
  ∧ (is_resolved res →
       tr = [storage_put_event rid u]
       ∧ ∃ result, arrays w' = alter (alter (RemoteBlob.set_located result)
                                            (RemoteBlob.up_index u)) addr (arrays w))
  ∧ (¬ is_resolved res → arrays w' = arrays w).
Proof.
  unfold RemoteBlob.run_upload, RemoteBlob.uploadAttachment, bind, ret,
    RemoteBlob.storage_put, RemoteBlob.getDownloadURL.
  destruct (storage_put_fails e _); simpl.
  { intros [= <- <- <-]. split; [done |]. split; [done |].
    split; [by apply Forall_nil |]. by split. }
  destruct (storage_url_fails e _); simpl.
  { intros [= <- <- <-]. split; [done |]. split; [done |].
    split; [by repeat constructor |]. by split. }
  intros [= <- <- <-]. split; [done |]. split; [done |].
  split; [by repeat constructor |]. split; [|by intros []].
  intros _. split; [done |]. by eexists.
Qed.

Lemma settle_uploads e rid addr us w w' tr res :
  settle (RemoteBlob.run_upload e rid addr <$> us) w = (w', tr, res) →
  docs w' = docs w ∧ local_blobs w' = local_blobs w ∧ no_doc_write tr
  ∧ (is_resolved res →
       tr = storage_put_event rid <$> us
       ∧ ∀ slots, arrays w !! addr = Some slots →
           ∃ slots', arrays w' !! addr = Some slots'
             ∧ ∀ j a', slots' !! j = Some a' →
                 placed a' ∨ ((j ∉ RemoteBlob.up_index <$> us) ∧ slots !! j = Some a')).
Proof.
  revert w w' tr res. induction us as [|u us IH]; intros w w' tr res; simpl.
  - intros [= <- <- <-]. split; [done |]. split; [done |].
    split; [by apply Forall_nil |]. intros _. split; [done |].
    intros slots Hs. exists slots. split; [done |]. intros j a' Hj. right.
    split; [by intros ?%elem_of_nil | done].
  - destruct (RemoteBlob.run_upload e rid addr u w) as [[w1 t1] r1] eqn:Hu.
    destruct (settle _ w1) as [[w2 t2] r2] eqn:Hs. intros [= <- <- <-].
    destruct (run_upload_spec _ _ _ _ _ _ _ _ Hu) as (Hd1 & Hb1 & Ht1 & Hres1 & _).
    destruct (IH _ _ _ _ Hs) as (Hd2 & Hb2 & Ht2 & Hres2).
    split; [congruence |]. split; [congruence |].
    split; [by apply Forall_app |].
    intros Hr. destruct r1 as [x1|]; [|done]. destruct r2 as [x2|]; [|done].
    destruct (Hres1 I) as (-> & result & Harr). destruct (Hres2 I) as (-> & Hslots).
    split; [done |]. intros slots Hsl.
    assert (arrays w1 !! addr
            = Some (alter (RemoteBlob.set_located result) (RemoteBlob.up_index u) slots))
      as Hsl1 by (by rewrite Harr, lookup_alter_eq, Hsl).
    destruct (Hslots _ Hsl1) as (slots' & Hsl' & Hall).
    exists slots'. split; [done |]. intros j a' Hj.
    destruct (Hall j a' Hj) as [?|[Hnin Hj1]]; [by left |].
    destruct (decide (j = RemoteBlob.up_index u)) as [->|Hne].
    + left. rewrite list_lookup_alter_eq in Hj1.
      destruct (slots !! RemoteBlob.up_index u); simplify_eq/=.
      apply placed_set_located.
    + right. rewrite list_lookup_alter_ne in Hj1 by done. split; [|done].
      intros [->|?]%elem_of_cons; done.
Qed.

Lemma RemoteBlob_prepare e sched (r : report_obj) w w' tr res :
  RemoteBlob.prepareForFirestore e sched r w = (w', tr, res) →
  docs w' = docs w ∧ local_blobs w' = local_blobs w ∧ no_doc_write tr
  ∧ (is_resolved res →
       res = Resolved r ∧ all_placed w' r
       ∧ tr = storage_put_event (id r) <$> completion_order sched (started_uploads e w r)).
Proof.
  unfold RemoteBlob.prepareForFirestore, started_uploads, all_placed.
  destruct (attachments r) as [addr|] eqn:Hattr.
  2:{ intros [= <- <- <-]. split; [done |]. split; [done |].
      split; [by apply Forall_nil |]. intros _. split; [done |]. by split. }
  destruct (arrays w !! addr) as [atts|] eqn:Harr; simpl.
  2:{ intros [= <- <- <-]. split; [done |]. split; [done |].
      split; [by apply Forall_nil |]. intros _. split; [done |].
      split; [|done]. intros a slots [= <-] Hs. congruence. }
  destruct (length atts =? 0)%nat eqn:Hlen.
  { apply Nat.eqb_eq in Hlen. destruct atts; [|done].
    intros [= <- <- <-]. split; [done |]. split; [done |].
    split; [by apply Forall_nil |]. intros _. split; [done |].
    split; [|done]. intros a slots [= <-] Hs.
    rewrite Harr in Hs. injection Hs as <-. by apply Forall_nil. }
  destruct (RemoteBlob.map_callback e 0 atts) as [[slots ups] threw] eqn:Hm.
  unfold bind, promise_all. rewrite completion_order_fmap.
  destruct (settle _ _) as [[w1 t1] r1] eqn:Hs. simpl.
  destruct (settle_uploads _ _ _ _ _ _ _ _ Hs) as (Hd & Hb & Ht & Hres).
  destruct r1 as [x|err].
  - destruct threw; unfold reject, ret; intros [= <- <- <-];
      (split; [done |]); (split; [done |]);
      (split; [by rewrite app_nil_r |]); [done |].
    intros _. split; [done |]. destruct (Hres I) as (-> & Hslots).
    split; [|by rewrite app_nil_r].
    intros a slots' [= <-] Hs'.
    destruct (Hslots slots) as (slots'' & Hs'' & Hall);
      [simpl; apply lookup_insert_eq |].
    rewrite Hs' in Hs''. injection Hs'' as <-.
    apply Forall_lookup. intros j a' Hj.
    destruct (Hall j a' Hj) as [?|[Hnin Hj0]]; [done |].
    destruct (map_callback_slots _ _ _ _ _ Hm j a' Hj0) as [?|Hin]; [done |].
    exfalso. apply Hnin. simpl in Hin.
    rewrite <- completion_order_fmap. by apply elem_of_completion_order.
  - intros [= <- <- <-]. split; [done |]. split; [done |]. by split.
Qed.

Lemma RemoteBlob_prepare_placed e sched (r : report_obj) w :
  all_placed w r →
  RemoteBlob.prepareForFirestore e sched r w = (w, [], Resolved r).
Proof.
  unfold RemoteBlob.prepareForFirestore, all_placed. intros Hall.
  destruct (attachments r) as [addr|] eqn:Hattr; [|done].
  destruct (arrays w !! addr) as [atts|] eqn:Harr; simpl; [|done].
  destruct (length atts =? 0)%nat eqn:Hlen; [done |].
  rewrite (map_callback_placed e 0 atts (Hall addr atts eq_refl Harr)).
  rewrite insert_id by done. rewrite set_arrays_id. done.
Qed.

Lemma RemoteBlob_saveReport_trace e sched (r : report_obj) w w' tr res :
  RemoteBlob.saveReport e sched r w = (w', tr, res) →
  ∃ wp trP rp trD,
    RemoteBlob.prepareForFirestore e sched r w = (wp, trP, rp)
    ∧ tr = trP ++ trD ∧ no_doc_write trP ∧ arrays w' = arrays wp
    ∧ storage w' = storage wp
    ∧ ((trD = [] ∧ ¬ is_resolved res ∧ ¬ is_resolved rp)
       ∨ (is_resolved rp
          ∧ ((trD = [DocSet (id r) (RemoteBlob.snapshot wp r)] ∧ res = Resolved r
              ∧ docs w' = <[id r := RemoteBlob.snapshot wp r]> (docs w))
             ∨ (trD = [DocSetFailed (id r) (RemoteBlob.snapshot wp r)]
                ∧ ¬ is_resolved res ∧ docs w' = docs w)))).
Proof.
  unfold RemoteBlob.saveReport, bind at 1.
  destruct (RemoteBlob.prepareForFirestore e sched r w) as [[wp trP] rp] eqn:Hp.
  destruct (RemoteBlob_prepare _ _ _ _ _ _ _ Hp) as (Hd & Hb & Ht & Hres).
  destruct rp as [c|err].
  - destruct (Hres I) as ([= ->] & _ & _).
    unfold bind, doc_set, ret. destruct (doc_set_fails e (id r)); intros [= <- <- <-].
    + exists wp, trP, (Resolved r), [DocSetFailed (id r) (RemoteBlob.snapshot wp r)].
      split; [done |]. split; [done |]. split; [done |]. split; [done |].
      split; [done |]. right. split; [done |]. right.
      split; [done |]. split; [by intros [] | done].
    + exists wp, trP, (Resolved r), [DocSet (id r) (RemoteBlob.snapshot wp r)].
      split; [done |]. split; [done |]. split; [done |]. split; [done |].
      split; [done |]. right. split; [done |]. left.
      split; [done |]. split; [done |]. simpl. by rewrite Hd.
  - intros [= <- <- <-]. exists wp, trP, (Rejected err), [].
    split; [done |]. split; [by rewrite app_nil_r |]. split; [done |].
    split; [done |]. split; [done |]. left.
    split; [done |]. split; by intros [].
Qed.

Lemma store_all_snoc m l kv :
  store_all m (l ++ [kv]) = <[kv.1 := kv.2]> (store_all m l).
Proof. unfold store_all. by rewrite foldl_app. Qed.

Lemma store_all_lookup m l k v :
  (k, v) ∈ l → (∀ v', (k, v') ∈ l → v' = v) → store_all m l !! k = Some v.
Proof.
  induction l as [|[k' v'] l IH] using rev_ind; [by intros ?%elem_of_nil |].
  intros Hin Hfun. rewrite store_all_snoc. simpl.
  destruct (decide (k' = k)) as [->|Hne].
  - rewrite lookup_insert_eq. f_equal. apply Hfun.
    apply elem_of_app. right. by apply list_elem_of_singleton.
  - rewrite lookup_insert_ne by done. apply IH.
    + apply elem_of_app in Hin as [?|Hin]; [done |].
      apply list_elem_of_singleton in Hin. congruence.
    + intros v'' Hin'. apply Hfun. apply elem_of_app. by left.
Qed.

Lemma store_all_lookup_ne m l k :
  (∀ v, (k, v) ∉ l) → store_all m l !! k = m !! k.
Proof.
  induction l as [|[k' v'] l IH] using rev_ind; [done |].
  intros Hnin. rewrite store_all_snoc. simpl.
  rewrite lookup_insert_ne.
  - apply IH. intros v Hin. apply (Hnin v). apply elem_of_app. by left.
  - intros ->. apply (Hnin v'). apply elem_of_app. right.
    by apply list_elem_of_singleton.
Qed.

Lemma prepare_puts_functional (r : report) k v v' :
  (k, v) ∈ (Overflow.prepareForFirestore r).2 →
  (k, v') ∈ (Overflow.prepareForFirestore r).2 → v' = v.
Proof.
  destruct (attachments r) as [atts|] eqn:Hr.
  - intros (i & a & Hi & _ & -> & ->)%(prepare_puts r atts _ _ Hr).
    intros (j & b & Hj & _ & Hk & ->)%(prepare_puts r atts _ _ Hr).
    apply blobKeyOf_inj in Hk. subst j. congruence.
  - unfold Overflow.prepareForFirestore. rewrite Hr. by intros ?%elem_of_nil.
Qed.

Lemma prepare_big_report :
  Overflow.prepareForFirestore big_report = (big_cleaned, [(big_key, JStr big_payload)]).
Proof.
  unfold Overflow.prepareForFirestore, big_report, mk_report.
  cbn [attachments length Nat.ltb Nat.leb imap fmap list_fmap concat app fst snd id].
  unfold Overflow.prepareAttachment. rewrite place_big_att. reflexivity.
Qed.

Lemma save_big_report :
  Overflow.saveReport no_faults [] big_report empty_world
  = (big_saved, [IdbPut big_key (JStr big_payload); DocSet "RPT-2024-0001" big_cleaned],
     Resolved ()).
Proof.
  unfold Overflow.saveReport. rewrite prepare_big_report. reflexivity.
Qed.

Lemma save_big_report_again :
  Overflow.saveReport no_faults [] big_report big_saved
  = (big_saved, [IdbPut big_key (JStr big_payload); DocSet "RPT-2024-0001" big_cleaned],
     Resolved ()).
Proof.
  unfold Overflow.saveReport. rewrite prepare_big_report.
  unfold promise_all, bind, settle, completion_order, insert_at, fmap, list_fmap,
    Overflow.saveBlobLocal, Overflow.openLocalDB, bind, ret, doc_set, big_saved.
  cbn [no_faults idb_open_fails idb_put_fails doc_set_fails fst snd hd tl app
       set_docs set_local_blobs docs local_blobs storage storage_gen arrays
       empty_world big_report mk_report id].
  by rewrite !insert_insert_eq.
Qed.

(** C2. In every run of [saveReport], in either variant and under every
    schedule and every pattern of store failures, a document write is the
    last store operation of the run, and every blob-tier write the
    placement called for (the overflow puts, the Storage uploads) has
    completed before it; in the overflow variant the overflow store holds
    each written payload when the document is written.  A save that
    resolves did write the document. *)
Theorem C2_tier_writes_before_document_write (e : env) (sched : list nat) :
  (∀ (r : report) w tr1 ev tr2,
     (Overflow.saveReport e sched r w).1.2 = tr1 ++ ev :: tr2 →
     is_doc_write ev = true →
     tr2 = []
     ∧ ∀ kv, kv ∈ (Overflow.prepareForFirestore r).2 →
         idb_put_event kv ∈ tr1
         ∧ local_blobs (Overflow.saveReport e sched r w).1.1 !! kv.1 = Some kv.2)
  ∧ (∀ (r : report_obj) w tr1 ev tr2,
     (RemoteBlob.saveReport e sched r w).1.2 = tr1 ++ ev :: tr2 →
     is_doc_write ev = true →
     tr2 = []
     ∧ ∀ u, u ∈ started_uploads e w r → storage_put_event (id r) u ∈ tr1)
  ∧ (∀ (r : report) w,
     is_resolved (Overflow.saveReport e sched r w).2 →
     DocSet (id r) (Overflow.prepareForFirestore r).1
       ∈ (Overflow.saveReport e sched r w).1.2)
  ∧ (∀ (r : report_obj) w,
     is_resolved (RemoteBlob.saveReport e sched r w).2 →
     ∃ doc, DocSet (id r) doc ∈ (RemoteBlob.saveReport e sched r w).1.2).
Proof.
  split; [|split; [|split]].
  - intros r w tr1 ev tr2.
    destruct (Overflow.saveReport e sched r w) as [[w' tr] res] eqn:Hs. simpl.
    intros Heq Hev.
    destruct (Overflow_saveReport_trace _ _ _ _ _ _ _ Hs)
      as (trP & trD & -> & HP & Hcases).
    destruct Hcases as [[-> _] | (Hall & -> & Hb & Hdoc)].
    { destruct (doc_write_position _ _ _ _ _ HP (or_introl eq_refl) Heq Hev)
        as (_ & ? & _). done. }
    assert (trD = [] ∨ ∃ ev', trD = [ev']) as HD.
    { destruct Hdoc as [(-> & _) | (-> & _)]; right; by eexists. }
    destruct (doc_write_position _ _ _ _ _ HP HD Heq Hev) as (-> & _ & ->).
    split; [done |]. intros [k v] Hin. split.
    + apply list_elem_of_fmap. exists (k, v). split; [done |].
      by apply elem_of_completion_order.
    + rewrite Hb. simpl. apply store_all_lookup.
      * by apply elem_of_completion_order.
      * intros v' Hin'%elem_of_completion_order.
        by apply (prepare_puts_functional r k).
  - intros r w tr1 ev tr2.
    destruct (RemoteBlob.saveReport e sched r w) as [[w' tr] res] eqn:Hs. simpl.
    intros Heq Hev.
    destruct (RemoteBlob_saveReport_trace _ _ _ _ _ _ _ Hs)
      as (wp & trP & rp & trD & Hp & -> & HP & _ & _ & Hcases).
    destruct Hcases as [(-> & _) | (Hrp & Hdoc)].
    { destruct (doc_write_position _ _ _ _ _ HP (or_introl eq_refl) Heq Hev)
        as (_ & ? & _). done. }
    assert (trD = [] ∨ ∃ ev', trD = [ev']) as HD.
    { destruct Hdoc as [(-> & _) | (-> & _)]; right; by eexists. }
    destruct (doc_write_position _ _ _ _ _ HP HD Heq Hev) as (-> & _ & ->).
    split; [done |]. intros u Hin.
    destruct (RemoteBlob_prepare _ _ _ _ _ _ _ Hp) as (_ & _ & _ & Hres).
    destruct (Hres Hrp) as (_ & _ & ->).
    apply list_elem_of_fmap. exists u. split; [done |].
    by apply elem_of_completion_order.
  - intros r w.
    destruct (Overflow.saveReport e sched r w) as [[w' tr] res] eqn:Hs. simpl.
    intros Hres.
    destruct (Overflow_saveReport_trace _ _ _ _ _ _ _ Hs)
      as (trP & trD & -> & HP & Hcases).
    destruct Hcases as [[_ ?] | (_ & _ & _ & [(-> & _) | (_ & ? & _)])]; [done | | done].
    apply elem_of_app. right. by apply list_elem_of_singleton.
  - intros r w.
    destruct (RemoteBlob.saveReport e sched r w) as [[w' tr] res] eqn:Hs. simpl.
    intros Hres.
    destruct (RemoteBlob_saveReport_trace _ _ _ _ _ _ _ Hs)
      as (wp & trP & rp & trD & Hp & -> & HP & _ & _ & Hcases).
    destruct Hcases as [(_ & ? & _) | (_ & [(-> & _) | (_ & ? & _)])]; [done | | done].
    eexists. apply elem_of_app. right. by apply list_elem_of_singleton.
Qed.

Lemma C2_tier_writes_before_document_write_witness :
  IdbPut big_key (JStr big_payload) ∈ [IdbPut big_key (JStr big_payload)]
  ∧ local_blobs big_saved !! big_key = Some (JStr big_payload).
Proof.
  destruct (C2_tier_writes_before_document_write no_faults []) as (H & _).
  specialize (H big_report empty_world [IdbPut big_key (JStr big_payload)]
                (DocSet "RPT-2024-0001" big_cleaned) []).
  rewrite save_big_report, prepare_big_report in H.
  destruct (H eq_refl eq_refl) as (_ & Hputs).
  apply (Hputs (big_key, JStr big_payload)).
  apply list_elem_of_singleton. reflexivity.
Defined.

(** ** Saving twice *)

(** C3 (as stated, refuted). In the overflow variant the second of two
    saves of the same report repeats the overflow put of its oversized
    attachment: the put for that attachment is invoked twice. *)
Lemma C3_overflow_put_invoked_twice :
  let '(w1, tr1, _) := Overflow.saveReport no_faults [] big_report empty_world in
  let '(w2, tr2, _) := Overflow.saveReport no_faults [] big_report w1 in
  count_puts big_key (tr1 ++ tr2) = 2%nat.
Proof. rewrite save_big_report, save_big_report_again. reflexivity. Qed.

Lemma store_all_twice m l1 l2 :
  l1 ≡ₚ l2 →
  (∀ k v v', (k, v) ∈ l1 → (k, v') ∈ l1 → v' = v) →
  store_all (store_all m l1) l2 = store_all m l1.
Proof.
  intros Hperm Hfun. apply map_eq. intros k.
  destruct (decide (k ∈ l1.*1)) as [Hin|Hnin].
  - apply list_elem_of_fmap in Hin as ([k' v] & -> & Hin). simpl.
    rewrite (store_all_lookup m l1 k' v); [|done|by eauto].
    apply store_all_lookup.
    + by rewrite <- Hperm.
    + intros v' Hin'. rewrite <- Hperm in Hin'. by eauto.
  - assert (∀ v, (k, v) ∉ l1) as Hno.
    { intros v Hin. apply Hnin. apply list_elem_of_fmap. by exists (k, v). }
    rewrite store_all_lookup_ne; [done |].
    intros v Hin. rewrite <- Hperm in Hin. by apply (Hno v).
Qed.

(** C3 (amended). Two saves of the same report in a row, both resolving,
    leave the same stored document after the second as after the first.
    With a remote blob store the first save leaves the locators on the
    report's own attachments, so the second starts no upload: every upload
    is invoked once across both calls.  In the overflow variant the report
    is not changed by a save, and the second save repeats each overflow put
    of the first, with the same key and payload, leaving the overflow store
    as it was. *)
Theorem C3_second_save (e : env) (s1 s2 : list nat) :
  (∀ (r : report) w w1 tr1 res1 w2 tr2 res2,
     Overflow.saveReport e s1 r w = (w1, tr1, res1) →
     Overflow.saveReport e s2 r w1 = (w2, tr2, res2) →
     is_resolved res1 → is_resolved res2 →
     docs w2 = docs w1
     ∧ docs w2 !! id r = Some (Overflow.prepareForFirestore r).1
     ∧ local_blobs w2 = local_blobs w1
     ∧ ∀ kv, kv ∈ (Overflow.prepareForFirestore r).2 →
         idb_put_event kv ∈ tr1 ∧ idb_put_event kv ∈ tr2)
  ∧ (∀ (r : report_obj) w w1 tr1 res1 w2 tr2 res2,
     RemoteBlob.saveReport e s1 r w = (w1, tr1, res1) →
     RemoteBlob.saveReport e s2 r w1 = (w2, tr2, res2) →
     is_resolved res1 →
     ∃ doc,
       tr1 = (storage_put_event (id r) <$> completion_order s1 (started_uploads e w r))
             ++ [DocSet (id r) doc]
       ∧ docs w1 !! id r = Some doc
       ∧ started_uploads e w1 r = []
       ∧ (∀ path data, StoragePut path data ∉ tr2)
       ∧ storage w2 = storage w1
       ∧ (is_resolved res2 → tr2 = [DocSet (id r) doc] ∧ docs w2 = docs w1)).
Proof.
  split.
  - intros r w w1 tr1 res1 w2 tr2 res2 H1 H2 Hr1 Hr2.
    destruct (Overflow_saveReport_trace _ _ _ _ _ _ _ H1)
      as (trP1 & trD1 & -> & _ & [[_ ?] | (_ & -> & Hb1 & Hdoc1)]); [done |].
    destruct (Overflow_saveReport_trace _ _ _ _ _ _ _ H2)
      as (trP2 & trD2 & -> & _ & [[_ ?] | (_ & -> & Hb2 & Hdoc2)]); [done |].
    destruct Hdoc1 as [(-> & _ & Hd1) | (_ & ? & _)]; [|done].
    destruct Hdoc2 as [(-> & _ & Hd2) | (_ & ? & _)]; [|done].
    split; [by rewrite Hd2, Hd1, insert_insert_eq |].
    split; [by rewrite Hd2, lookup_insert_eq |].
    split.
    + rewrite Hb2, Hb1. apply store_all_twice.
      * by rewrite !completion_order_perm.
      * intros k v v' Hin%elem_of_completion_order Hin'%elem_of_completion_order.
        by apply (prepare_puts_functional r k).
    + intros kv Hin. split; apply elem_of_app; left;
        apply list_elem_of_fmap; exists kv; (split; [done |]);
        by apply elem_of_completion_order.
  - intros r w w1 tr1 res1 w2 tr2 res2 H1 H2 Hr1.
    destruct (RemoteBlob_saveReport_trace _ _ _ _ _ _ _ H1)
      as (wp & trP & rp & trD & Hp & -> & _ & Harr & Hsto & Hcases).
    destruct Hcases as [(_ & ? & _) | (Hrp & [(-> & -> & Hd1) | (_ & ? & _)])];
      [done | | done].
    destruct (RemoteBlob_prepare _ _ _ _ _ _ _ Hp) as (_ & _ & _ & Hres).
    destruct (Hres Hrp) as (_ & Hplaced & ->).
    assert (all_placed w1 r) as Hplaced1.
    { intros addr slots Ha Hs. rewrite Harr in Hs. by eapply Hplaced. }
    assert (RemoteBlob.snapshot w1 r = RemoteBlob.snapshot wp r) as Hsnap
      by (unfold RemoteBlob.snapshot; by rewrite Harr).
    exists (RemoteBlob.snapshot wp r).
    split; [done |]. split; [by rewrite Hd1, lookup_insert_eq |].
    split.
    { unfold started_uploads. destruct (attachments r) as [addr|] eqn:Ha; [|done].
      destruct (arrays w1 !! addr) as [slots|] eqn:Hs; simpl; [|done].
      by rewrite (map_callback_placed e 0 slots (Hplaced1 addr slots Ha Hs)). }
    revert H2. unfold RemoteBlob.saveReport, bind at 1.
    rewrite (RemoteBlob_prepare_placed e s2 r w1 Hplaced1).
    unfold bind, doc_set, ret. rewrite Hsnap.
    destruct (doc_set_fails e (id r)); intros [= <- <- <-]; simpl.
    + split; [by intros path data [[=]|?%elem_of_nil]%elem_of_cons |].
      split; [done |]. by intros [].
    + split; [by intros path data [[=]|?%elem_of_nil]%elem_of_cons |].
      split; [done |]. intros _. split; [done |].
      by rewrite Hd1, insert_insert_eq.
Qed.

Lemma result_eta {A} (x : world * list event * outcome A) : x = (x.1.1, x.1.2, x.2).
Proof. by destruct x as [[??]?]. Qed.

Lemma C3_second_save_witness :
  docs big_saved !! "RPT-2024-0001" = Some (Overflow.prepareForFirestore big_report).1
  ∧ ∀ path data,
      StoragePut path data
      ∉ (RemoteBlob.saveReport no_faults [] file_report
           (RemoteBlob.saveReport no_faults [] file_report file_world).1.1).1.2.
Proof.
  destruct (C3_second_save no_faults [] []) as [Ho Hs]. split.
  - destruct (Ho big_report empty_world _ _ _ _ _ _
                save_big_report save_big_report_again I I) as (_ & Hd & _).
    exact Hd.
  - assert (is_resolved (RemoteBlob.saveReport no_faults [] file_report file_world).2)
      as Hr by (vm_compute; exact I).
    destruct (Hs file_report file_world _ _ _ _ _ _
                (result_eta _) (result_eta _) Hr) as (doc & _ & _ & _ & Hno & _).
    exact Hno.
Defined.

(** ** Deleting *)

Lemma shrinks_refl w : shrinks w w.
Proof. by repeat split. Qed.

Lemma shrinks_trans w1 w2 w3 : shrinks w1 w2 → shrinks w2 w3 → shrinks w1 w3.
Proof.
  intros (Hd1 & Hs1 & Hb1) (Hd2 & Hs2 & Hb2). repeat split.
  - by etrans.
  - by etrans.
  - congruence.
Qed.

Lemma del_done_shrinks op w w' : shrinks w w' → del_done op w → del_done op w'.
Proof.
  intros (Hd & Hs & _). destruct op as [[path|]|doc_id]; simpl; [|done|].
  - intros H Hne. eapply lookup_weaken_None; [by apply H | done].
  - intros H. by eapply lookup_weaken_None.
Qed.

Lemma error_code_not_found err :
  String.eqb (error_code err) "storage/object-not-found" = false.
Proof. by destruct err. Qed.

Lemma run_del_spec e op w w' tr res :
  run_del e op w = (w', tr, res) →
  shrinks w w' ∧ (is_resolved res → del_done op w').
Proof.
  destruct op as [[path|]|doc_id]; simpl.
  - unfold RemoteBlob.deleteAttachment, RemoteBlob.truthy_str.
    destruct (String.eqb path "") eqn:Hp; simpl.
    { intros [= <- <- <-]. split; [apply shrinks_refl |].
      intros _ Hne. by apply String.eqb_eq in Hp. }
    unfold RemoteBlob.catch, RemoteBlob.storage_delete.
    destruct (storage_delete_error e path) as [err|].
    { rewrite error_code_not_found. unfold reject.
      intros [= <- <- <-]. split; [apply shrinks_refl | done]. }
    destruct (storage w !! path) as [data|] eqn:Hs.
    + intros [= <- <- <-]. split.
      * repeat split; simpl; [done | apply delete_subseteq].
      * intros _ _. simpl. apply lookup_delete_eq.
    + simpl. unfold ret. intros [= <- <- <-].
      split; [apply shrinks_refl | done].
  - intros [= <- <- <-]. split; [apply shrinks_refl | done].
  - unfold doc_delete. destruct (doc_delete_fails e doc_id); intros [= <- <- <-].
    + split; [apply shrinks_refl | done].
    + split.
      * repeat split; simpl; [apply delete_subseteq | done].
      * intros _. simpl. apply lookup_delete_eq.
Qed.

Lemma settle_dels e ops w w' tr res :
  settle (run_del e <$> ops) w = (w', tr, res) →
  shrinks w w' ∧ (is_resolved res → ∀ op, op ∈ ops → del_done op w').
Proof.
  revert w w' tr res. induction ops as [|op ops IH]; intros w w' tr res; simpl.
  - intros [= <- <- <-]. split; [apply shrinks_refl |].
    by intros _ op ?%elem_of_nil.
  - destruct (run_del e op w) as [[w1 t1] r1] eqn:H1.
    destruct (settle _ w1) as [[w2 t2] r2] eqn:H2. intros [= <- <- <-].
    destruct (run_del_spec _ _ _ _ _ _ H1) as (Hsh1 & Hdone1).
    destruct (IH _ _ _ _ H2) as (Hsh2 & Hdone2).
    split; [by eapply shrinks_trans |].
    intros Hr. destruct r1 as [x1|]; [|done]. destruct r2 as [x2|]; [|done].
    intros op' [->|Hin]%elem_of_cons.
    + eapply del_done_shrinks; [done | by apply Hdone1].
    + by apply Hdone2.
Qed.

Lemma deleteReport_ops e sched doc_id (doc : option report) :
  completion_order sched
    (match doc with
     | Some data => RemoteBlob.deleteAttachment e <$> RemoteBlob.storagePaths data
     | None => []
     end ++ [doc_delete e doc_id])
  = run_del e <$> completion_order sched
      (match doc with
       | Some data => DelBlob <$> RemoteBlob.storagePaths data
       | None => []
       end ++ [DelDoc doc_id]).
Proof.
  rewrite <- completion_order_fmap. f_equal. rewrite fmap_app. f_equal.
  destruct doc as [data|]; [|done]. by rewrite <- list_fmap_compose.
Qed.

(** C4 (as stated, refuted). In the overflow variant a report with an
    oversized attachment is saved and then deleted: the delete resolves and
    removes the document, and the overflow entry the document referenced is
    still in the overflow store. *)
Lemma C4_overflow_entry_survives_delete :
  let '(w1, _, _) := Overflow.saveReport no_faults [] big_report empty_world in
  let '(w2, _, res) := Overflow.deleteReport no_faults "RPT-2024-0001" w1 in
  docs w1 !! "RPT-2024-0001" = Some big_cleaned
  ∧ attachments big_cleaned = Some [set_dataUrl (local_ref_to big_key) big_att]
  ∧ res = Resolved ()
  ∧ docs w2 !! "RPT-2024-0001" = None
  ∧ local_blobs w2 !! big_key = Some (JStr big_payload).
Proof.
  rewrite save_big_report.
  unfold Overflow.deleteReport, doc_delete, big_saved. simpl.
  split; [apply lookup_insert_eq |]. split; [done |]. split; [done |].
  split; [apply lookup_delete_eq | apply lookup_insert_eq].
Qed.

(** C4 (amended). A delete that resolves has removed the remote document.
    With a remote blob store it has also removed every Storage object whose
    path the stored document carried.  Without one, [deleteReport] deletes
    the document only: the local overflow entries the document referenced
    stay in the overflow store. *)
Theorem C4_delete_removes_document_and_remote_blobs
    (e : env) (sched : list nat) (doc_id : string) (w : world) :
  (∀ w' tr res,
     RemoteBlob.deleteReport e sched doc_id w = (w', tr, res) →
     is_resolved res →
     docs w' !! doc_id = None
     ∧ (∀ data atts att path,
          docs w !! doc_id = Some data → attachments data = Some atts →
          att ∈ atts → att_storagePath att = Some path → path ≠ "" →
          storage w' !! path = None)
     ∧ local_blobs w' = local_blobs w)
  ∧ (∀ w' tr res,
     Overflow.deleteReport e doc_id w = (w', tr, res) →
     is_resolved res →
     docs w' !! doc_id = None
     ∧ local_blobs w' = local_blobs w ∧ storage w' = storage w).
Proof.
  split.
  - intros w' tr res. unfold RemoteBlob.deleteReport, bind, doc_get.
    destruct (doc_get_fails e doc_id); [by intros [= <- <- <-] |].
    unfold promise_all. rewrite deleteReport_ops.
    destruct (settle _ w) as [[w2 t2] r2] eqn:Hs. intros [= <- <- <-] Hr.
    destruct (settle_dels _ _ _ _ _ _ Hs) as ((_ & _ & Hb) & Hdone).
    specialize (Hdone Hr). split; [|split; [|done]].
    + apply (Hdone (DelDoc doc_id)). apply elem_of_completion_order.
      apply elem_of_app. right. by apply list_elem_of_singleton.
    + intros data atts att path Hdoc Hatts Hin Hpath Hne.
      apply (Hdone (DelBlob (Some path))); [|done].
      apply elem_of_completion_order. rewrite Hdoc.
      apply elem_of_app. left. apply list_elem_of_fmap_2.
      unfold RemoteBlob.storagePaths. apply list_elem_of_filter. split.
      * simpl. apply negb_true_iff. by apply String.eqb_neq.
      * rewrite Hatts. simpl. rewrite <- Hpath. by apply list_elem_of_fmap_2.
  - intros w' tr res. unfold Overflow.deleteReport, doc_delete.
    destruct (doc_delete_fails e doc_id); intros [= <- <- <-]; [done |].
    intros _. simpl. split; [apply lookup_delete_eq | done].
Qed.

Lemma C4_delete_removes_document_and_remote_blobs_witness :
  let saved := (RemoteBlob.saveReport no_faults [] file_report file_world).1.1 in
  let deleted := (RemoteBlob.deleteReport no_faults [1%nat] "RPT-2024-0003" saved).1.1 in
  is_Some (storage saved !! "attachments/RPT-2024-0003/photo.png")
  ∧ docs deleted !! "RPT-2024-0003" = None
  ∧ storage deleted !! "attachments/RPT-2024-0003/photo.png" = None.
Proof.
  intros saved deleted.
  destruct (C4_delete_removes_document_and_remote_blobs
              no_faults [1%nat] "RPT-2024-0003" saved) as [H _].
  assert (is_resolved (RemoteBlob.deleteReport no_faults [1%nat] "RPT-2024-0003" saved).2)
    as Hr by (vm_compute; exact I).
  destruct (H _ _ _ (result_eta _) Hr) as (Hdoc & Hblobs & _).
  split; [by vm_compute; eexists |]. split; [exact Hdoc |].
  eapply (Hblobs _ _ (RemoteBlob.set_located
                        ("https://storage/attachments/RPT-2024-0003/photo.png?gen=1",
                         "attachments/RPT-2024-0003/photo.png") file_att)).
  - vm_compute. reflexivity.
  - reflexivity.
  - apply list_elem_of_singleton. reflexivity.
  - reflexivity.
  - discriminate.
Defined.

(** ** Hydration *)

Lemma prefix_split p s : String.prefix p s = true → s = p +:+ string_drop (String.length p) s.
Proof.
  revert s. induction p as [|c p IH]; intros s H; [reflexivity |].
  destruct s as [|c' s]; [simpl in H; discriminate |].
  simpl in H. destruct (Ascii.ascii_dec c c') as [->|]; [|discriminate].
  change (String c' s = String c' (p +:+ string_drop (String.length p) s)).
  f_equal. by apply IH.
Qed.

Lemma set_dataUrl_same att : set_dataUrl (att_dataUrl att) att = att.
Proof. by destruct att. Qed.

Lemma local_ref_spec v :
  v ≠ JObj →
  (∃ key, v = local_ref_to key ∧ Overflow.local_ref v = Resolved (Some key))
  ∨ ((∀ key, v ≠ local_ref_to key) ∧ Overflow.local_ref v = Resolved None).
Proof.
  intros Hobj. unfold Overflow.local_ref, starts_with.
  destruct v as [| |s|]; [by right | by right | | done].
  destruct (String.prefix "local:" s) eqn:Hp.
  - left. exists (string_drop (String.length "local:") s).
    pose proof (prefix_split _ _ Hp) as Hs.
    set (key := string_drop (String.length "local:") s) in *. clearbody key.
    subst s. split; [done |].
    rewrite replace_first_prefix. reflexivity.
  - right. split.
    + intros key [= ->]. by rewrite prefix_app in Hp.
    + by destruct (truthy (JStr s)).
Qed.

Lemma finish_lookup_spec e att w :
  readable e att →
  ∃ ref att', Overflow.local_ref (att_dataUrl att) = Resolved ref
              ∧ Overflow.finish_lookup e (att, ref) w = (w, [], Resolved att')
              ∧ hydrates e w att att'.
Proof.
  intros (Hobj & Hopen). unfold Overflow.finish_lookup.
  destruct (local_ref_spec _ Hobj) as [(key & Hkey & Href) | (Hno & Href)].
  - exists (Some key). simpl.
    unfold Overflow.getBlobLocal, Overflow.openLocalDB, bind, ret.
    rewrite (Hopen key Hkey). simpl.
    destruct (idb_get_fails e key) eqn:Hget; simpl.
    + eexists. split; [done |]. split; [done |]. split; [done |]. split.
      * intros key' Hkey'. rewrite Hkey in Hkey'. injection Hkey' as Heq.
        change (key = key') in Heq. subst key'. split; [done |].
        intros v _ ?. congruence.
      * intros Hno. by destruct (Hno key).
    + eexists. split; [done |]. split; [done |]. split; [done |]. split.
      * intros key' Hkey'. rewrite Hkey in Hkey'. injection Hkey' as Heq.
        change (key = key') in Heq. subst key'. simpl. split.
        -- intros [-> | ?]; [done | congruence].
        -- by intros v ->.
      * intros Hno. by destruct (Hno key).
  - exists None, att. split; [done |]. split; [done |].
    split; [by rewrite set_dataUrl_same |].
    split; [|done]. intros key Hkey. by destruct (Hno key).
Qed.

Lemma restore_lookups_spec e atts w :
  Forall (readable e) atts →
  ∃ refs atts', Overflow.started_lookups atts = Resolved refs
                ∧ Overflow.await_lookups e refs w = (w, [], Resolved atts')
                ∧ Forall2 (hydrates e w) atts atts'.
Proof.
  induction atts as [|att atts IH]; intros Hall; simpl.
  - exists [], []. split; [done |]. split; [done | by constructor].
  - apply Forall_cons in Hall as [Ha Hl].
    destruct (finish_lookup_spec e att w Ha) as (ref & att' & Href & Hr & Hh).
    destruct (IH Hl) as (refs & atts' & Hrefs & Hrs & Hhs).
    exists ((att, ref) :: refs), (att' :: atts'). rewrite Href, Hrefs. simpl.
    unfold bind, ret. rewrite Hr, Hrs. simpl.
    split; [done |]. split; [done | by constructor].
Qed.

(** What [getReport] does when the document read succeeds and the overflow
    database can be opened.  For a document that does not exist it resolves
    with [null].  For a stored document written by the application it
    resolves with the full report whatever the overflow store holds: every
    field and every attachment is returned, an attachment whose ["local:"]
    key is absent from this device's overflow store, or whose get request
    errors, comes back with [dataUrl = null], one whose key is present comes
    back with the stored payload, and the others come back unchanged. *)
Lemma getReport_hydrates
    (e : env) (w : world) (doc_id : string) :
  doc_get_fails e doc_id = false →
  (docs w !! doc_id = None → Overflow.getReport e doc_id w = (w, [], Resolved None))
  ∧ (∀ data,
       docs w !! doc_id = Some data →
       (∀ atts, attachments data = Some atts → Forall (readable e) atts) →
       ∃ r, Overflow.getReport e doc_id w = (w, [], Resolved (Some r))
            ∧ r = set_attachments (attachments r) data
            ∧ match attachments data, attachments r with
              | None, None => True
              | Some atts, Some atts' => Forall2 (hydrates e w) atts atts'
              | _, _ => False
              end).
Proof.
  intros Hget. unfold Overflow.getReport, doc_get, bind. rewrite Hget. split.
  - by intros ->.
  - intros data -> Hread. unfold Overflow.restoreFromFirestore, ret.
    destruct data as [i pn sn na da cl su co lo [atts|]]; simpl in *.
    + destruct (restore_lookups_spec e atts w (Hread atts eq_refl))
        as (refs & atts' & Hrefs & Hr & Hh).
      destruct (length atts =? 0)%nat eqn:Hlen.
      * apply Nat.eqb_eq in Hlen. destruct atts; [|done].
        eexists. split; [done |]. split; [done |]. simpl. by constructor.
      * rewrite Hrefs. unfold bind. rewrite Hr. simpl.
        eexists. split; [done |]. by split.
    + eexists. split; [done |]. by split.
Qed.

(** On another device the report loads, and the attachment whose overflow
    entry is not there comes back with [dataUrl = null]. *)
Lemma getReport_on_other_device :
  ∃ r atts', Overflow.getReport no_faults "RPT-2024-0001" other_device
             = (other_device, [], Resolved (Some r))
             ∧ attachments r = Some atts'
             ∧ att_dataUrl <$> atts' = [JNull].
Proof.
  destruct (getReport_hydrates
              no_faults other_device "RPT-2024-0001" eq_refl) as [_ H].
  destruct (H big_cleaned) as (r & Hr & _ & Hatts).
  - apply lookup_insert_eq.
  - intros atts [= <-]. apply Forall_cons. split; [|by apply Forall_nil].
    split; [discriminate | reflexivity].
  - simpl in Hatts. destruct (attachments r) as [atts'|] eqn:Ha; [|done].
    exists r, atts'. split; [exact Hr |]. split; [exact Ha |].
    apply Forall2_cons_inv_l in Hatts as (att' & rest & (_ & Hloc & _) & Hnil & ->).
    apply Forall2_nil_inv_l in Hnil as ->.
    destruct (Hloc big_key eq_refl) as [Hnull _]. simpl. f_equal.
    apply Hnull. left. reflexivity.
Qed.

(** C8 (the code at the failing input). The report with an oversized
    attachment has been saved on this device: its document carries a
    ["local:"] reference and the overflow store holds the payload.  When
    IndexedDB then cannot be opened, [getReport] rejects: the whole load is
    aborted instead of returning the report with that attachment's payload
    absent. *)
Theorem C8_getReport_rejects_when_idb_unavailable :
  docs big_saved !! "RPT-2024-0001" = Some big_cleaned
  ∧ attachments big_cleaned = Some [set_dataUrl (local_ref_to big_key) big_att]
  ∧ Overflow.getReport idb_unavailable "RPT-2024-0001" big_saved
    = (big_saved, [], Rejected "IndexedDB open error").
Proof.
  assert (docs big_saved !! "RPT-2024-0001" = Some big_cleaned) as Hdoc
    by apply lookup_insert_eq.
  split; [done |]. split; [done |].
  unfold Overflow.getReport, doc_get, bind. rewrite Hdoc. reflexivity.
Qed.

(** * Further properties of the code *)

(** ** Overflow variant: what a save leaves behind *)

Lemma restored_equal e w (r : report) atts atts' :
  attachments r = Some atts →
  Forall plain_payload atts →
  (∀ key, idb_get_fails e key = false) →
  (∀ i att, atts !! i = Some att → Overflow.place att = Overflow.overflow →
            local_blobs w !! Overflow.blobKeyOf (id r) i = Some (att_dataUrl att)) →
  Forall2 (hydrates e w) (imap (Overflow.prepareAttachment (id r)) atts).*1 atts' →
  atts' = atts.
Proof.
  intros Hr Hplain Hget Hstore Hh. apply list_eq. intros i.
  destruct (atts !! i) as [att|] eqn:Hi.
  - assert ((imap (Overflow.prepareAttachment (id r)) atts).*1 !! i
            = Some (Overflow.prepareAttachment (id r) i att).1) as Hc
      by (by rewrite list_lookup_fmap, list_lookup_imap, Hi).
    destruct (Forall2_lookup_l _ _ _ _ _ Hh Hc) as (att' & Hi' & Heq & Hloc & Hother).
    rewrite Hi'. f_equal.
    destruct (proj1 (Forall_lookup _ _) Hplain i att Hi) as (_ & Hnoref).
    unfold Overflow.prepareAttachment in *.
    destruct (Overflow.place att) eqn:Hp; simpl in *.
    + by apply Hother.
    + destruct (Hloc _ eq_refl) as (_ & Hv).
      rewrite (Hv _ (Hstore i att Hi Hp) (Hget _)) in Heq.
      rewrite Heq. by destruct att.
  - apply Forall2_length in Hh. rewrite length_fmap, length_imap in Hh.
    apply lookup_ge_None. apply lookup_ge_None in Hi. lia.
Qed.

Lemma set_attachments_same {A} (r : report_of A) : set_attachments (attachments r) r = r.
Proof. by destruct r. Qed.

Lemma prepare_attachments (r : report) :
  attachments (Overflow.prepareForFirestore r).1
  = (λ atts, (imap (Overflow.prepareAttachment (id r)) atts).*1) <$> attachments r.
Proof.
  unfold Overflow.prepareForFirestore.
  destruct (attachments r) as [atts|] eqn:Hr; simpl; [|done].
  destruct (0 <? length atts)%nat eqn:Hlen; simpl; [done |].
  apply Nat.ltb_ge in Hlen. destruct atts; [by rewrite Hr | simpl in Hlen; lia].
Qed.

Lemma prepare_fields (r : report) :
  (Overflow.prepareForFirestore r).1
  = set_attachments (attachments (Overflow.prepareForFirestore r).1) r.
Proof.
  unfold Overflow.prepareForFirestore.
  destruct (attachments r) as [atts|] eqn:Hr; simpl.
  - destruct (0 <? length atts)%nat; simpl; [done |].
    by rewrite set_attachments_same.
  - by rewrite set_attachments_same.
Qed.

(** X1. Round trip in the overflow variant.  After a save that resolved,
    [getReport] on the same device returns the very report that was saved:
    every field, and every attachment with its original payload, whether it
    was kept inline or moved to the overflow store.  (No data URL of the
    report has the form of an overflow reference; the document read and the
    get requests succeed.) *)
Theorem save_then_getReport_returns_report
    (e : env) (sched : list nat) (r : report) (w w' : world) tr :
  Overflow.saveReport e sched r w = (w', tr, Resolved ()) →
  (∀ atts, attachments r = Some atts → Forall plain_payload atts) →
  doc_get_fails e (id r) = false →
  (∀ key, idb_get_fails e key = false) →
  Overflow.getReport e (id r) w' = (w', [], Resolved (Some r)).
Proof.
  intros Hsave Hplain Hdoc Hget.
  destruct (Overflow_saveReport_trace _ _ _ _ _ _ _ Hsave)
    as (trP & trD & -> & _ & [[_ ?] | (Hok & _ & Hb & Hdocs)]); [by destruct H |].
  destruct Hdocs as [(_ & _ & Hd) | (_ & ? & _)]; [|by destruct H].
  assert (docs w' !! id r = Some (Overflow.prepareForFirestore r).1) as Hlook
    by (by rewrite Hd, lookup_insert_eq).
  assert (∀ atts i att, attachments r = Some atts → atts !! i = Some att →
            Overflow.place att = Overflow.overflow →
            local_blobs w' !! Overflow.blobKeyOf (id r) i = Some (att_dataUrl att)
            ∧ idb_open_fails e (Overflow.blobKeyOf (id r) i) = false) as Hstored.
  { intros atts i att Hr Hi Hp.
    assert ((Overflow.blobKeyOf (id r) i, att_dataUrl att)
            ∈ (Overflow.prepareForFirestore r).2) as Hin
      by (apply (prepare_puts r atts _ _ Hr); by exists i, att).
    split.
    - rewrite Hb. apply store_all_lookup.
      + by apply elem_of_completion_order.
      + intros v' Hin'%elem_of_completion_order.
        by apply (prepare_puts_functional r (Overflow.blobKeyOf (id r) i)).
    - apply (proj1 (Forall_forall _ _) Hok
               (Overflow.blobKeyOf (id r) i, att_dataUrl att)).
      by apply elem_of_completion_order. }
  destruct (getReport_hydrates e w' (id r) Hdoc) as [_ Hhyd].
  destruct (Hhyd _ Hlook) as (r' & Hr' & Hfields & Hatts).
  { intros catts Hc. rewrite prepare_attachments in Hc.
    destruct (attachments r) as [atts|] eqn:Hr; [|done].
    injection Hc as <-. apply Forall_lookup. intros i catt Hi.
    rewrite list_lookup_fmap, list_lookup_imap in Hi.
    destruct (atts !! i) as [att|] eqn:Hatt; [|done]. simpl in Hi. injection Hi as <-.
    destruct (proj1 (Forall_lookup _ _) (Hplain atts eq_refl) i att Hatt) as (Hobj & Hnoref).
    unfold Overflow.prepareAttachment.
    destruct (Overflow.place att) eqn:Hp; simpl.
    - split; [done |]. intros key Hkey. by destruct (Hnoref key).
    - split; [done |]. intros key [= Hkey].
      change (Overflow.blobKeyOf (id r) i = key) in Hkey. subst key.
      by apply (Hstored atts i att). }
  rewrite Hr'. do 3 f_equal. rewrite Hfields.
  rewrite prepare_attachments in Hatts. rewrite prepare_fields.
  destruct (attachments r) as [atts|] eqn:Hr; simpl in Hatts.
  - destruct (attachments r') as [atts'|]; [|done].
    rewrite (restored_equal e w' r atts atts' Hr (Hplain atts eq_refl) Hget); [| |done].
    + destruct r; simpl in *. by subst.
    + intros i att Hi Hp. by apply (Hstored atts i att).
  - destruct (attachments r'); [done |]. destruct r; simpl in *. by subst.
Qed.

Lemma big_payload_head : ∃ rest, big_payload = String letter_A rest.
Proof.
  unfold big_payload. destruct (Pos2Nat.is_succ 800001) as [n ->]. by eexists.
Qed.

Lemma big_att_plain : plain_payload big_att.
Proof.
  split; [done |]. intros key. simpl. destruct big_payload_head as [rest ->].
  discriminate.
Qed.

Lemma save_then_getReport_returns_report_witness :
  Overflow.getReport no_faults "RPT-2024-0001" big_saved
  = (big_saved, [], Resolved (Some big_report)).
Proof.
  apply (save_then_getReport_returns_report no_faults [] big_report empty_world
           big_saved _ save_big_report).
  - intros atts [= <-]. apply Forall_cons. split; [apply big_att_plain |].
    by apply Forall_nil.
  - reflexivity.
  - reflexivity.
Defined.

Lemma settle_puts_frame e (l : list (string * jsval)) w w' tr res k :
  settle ((λ kv, Overflow.saveBlobLocal e kv.1 kv.2) <$> l) w = (w', tr, res) →
  (∀ v, (k, v) ∉ l) →
  local_blobs w' !! k = local_blobs w !! k.
Proof.
  revert w w' tr res. induction l as [|[k' v'] l IH]; intros w w' tr res; simpl.
  - by intros [= <- <- <-].
  - intros Hs Hnin.
    assert (k' ≠ k) as Hne
      by (intros ->; apply (Hnin v'), elem_of_cons; by left).
    assert (∀ v, (k, v) ∉ l) as Hnin'
      by (intros v ?; apply (Hnin v), elem_of_cons; by right).
    revert Hs.
    unfold Overflow.saveBlobLocal at 1, Overflow.openLocalDB, bind, ret, reject.
    destruct (idb_open_fails e k'); simpl.
    { destruct (settle _ w) as [[w2 t2] r2] eqn:Hs. intros [= <- <- <-]. by eapply IH. }
    destruct (idb_put_fails e k'); simpl.
    { destruct (settle _ w) as [[w2 t2] r2] eqn:Hs. intros [= <- <- <-]. by eapply IH. }
    destruct (settle _ (set_local_blobs _ w)) as [[w2 t2] r2] eqn:Hs.
    intros [= <- <- <-]. rewrite (IH _ _ _ _ Hs Hnin'). simpl.
    by rewrite lookup_insert_ne.
Qed.

(** X2. A save in the overflow variant is confined to its own report: it
    never changes another document, it never changes an overflow entry other
    than those keyed by its own report id, it leaves Storage and the memory
    of the page alone, and when it rejects the document store is exactly as
    it was. *)
Theorem saveReport_is_confined (e : env) (sched : list nat) (r : report) w w' tr res :
  Overflow.saveReport e sched r w = (w', tr, res) →
  (∀ j, j ≠ id r → docs w' !! j = docs w !! j)
  ∧ (¬ is_resolved res → docs w' = docs w)
  ∧ (∀ k, (∀ i, k ≠ Overflow.blobKeyOf (id r) i) →
          local_blobs w' !! k = local_blobs w !! k)
  ∧ storage w' = storage w ∧ arrays w' = arrays w.
Proof.
  unfold Overflow.saveReport.
  destruct (Overflow.prepareForFirestore r) as [cleaned puts] eqn:Hprep.
  unfold bind, promise_all. rewrite completion_order_fmap.
  destruct (settle _ w) as [[w1 t1] r1] eqn:Hs.
  destruct (settle_puts _ _ _ _ _ _ Hs) as (Hw & _).
  assert (∀ k, (∀ i, k ≠ Overflow.blobKeyOf (id r) i) →
               local_blobs w1 !! k = local_blobs w !! k) as Hframe.
  { intros k Hk. apply (settle_puts_frame _ _ _ _ _ _ _ Hs).
    intros v Hin%elem_of_completion_order.
    assert ((k, v) ∈ (Overflow.prepareForFirestore r).2) as Hin'
      by (by rewrite Hprep).
    destruct (attachments r) as [atts|] eqn:Hr.
    - destruct (proj1 (prepare_puts r atts k v Hr) Hin')
        as (i & att & _ & _ & Hkey & _).
      by apply (Hk i).
    - unfold Overflow.prepareForFirestore in Hin'. rewrite Hr in Hin'.
      by apply elem_of_nil in Hin'. }
  destruct r1 as [x|err].
  - unfold doc_set. destruct (doc_set_fails e (id r)); intros [= <- <- <-]; simpl.
    + rewrite Hw. simpl. by repeat split.
    + rewrite Hw. simpl. split; [intros j Hj; by rewrite lookup_insert_ne |].
      split; [by intros [] |]. by repeat split.
  - intros [= <- <- <-]. rewrite Hw. simpl. by repeat split.
Qed.

Lemma saveReport_is_confined_witness :
  storage big_saved = storage empty_world ∧ arrays big_saved = arrays empty_world.
Proof.
  apply (saveReport_is_confined no_faults [] big_report empty_world
           _ _ _ save_big_report).
Defined.

(** ** The list view *)

Lemma newer_first_total : Total newer_first.
Proof.
  intros a b. unfold newer_first.
  destruct (decide (date a.2 = date b.2)) as [Heq|Hne].
  - destruct (total String.le a.1 b.1); [right | left]; right; by split.
  - destruct (total String.le (date a.2) (date b.2)); [right | left]; left;
      by split.
Qed.
#[global] Existing Instance newer_first_total.

Lemma newer_first_trans : Transitive newer_first.
Proof.
  intros a b c. unfold newer_first.
  intros [[Hab Hle1] | [Hab Hle1]] [[Hbc Hle2] | [Hbc Hle2]].
  - left. split; [|by etrans]. intros Hac. rewrite Hac in Hle1.
    apply Hbc. by apply (anti_symm String.le).
  - left. rewrite <- Hbc. by split.
  - left. rewrite Hab. by split.
  - right. split; [congruence | by etrans].
Qed.
#[global] Existing Instance newer_first_trans.

Lemma newer_first_date a b : newer_first a b → String.le (date b.2) (date a.2).
Proof. intros [[_ ?] | [-> _]]; [done | reflexivity]. Qed.

Lemma strip_report_date (data : report) : date (Overflow.strip_report data) = date data.
Proof. unfold Overflow.strip_report. by destruct (attachments data). Qed.

Lemma remote_strip_report_date (data : report) :
  date (RemoteBlob.strip_report data) = date data.
Proof. unfold RemoteBlob.strip_report. by destruct (attachments data). Qed.

Lemma snapshot_sorted (f : report → report) (m : gmap string report) :
  (∀ data, date (f data) = date data) →
  StronglySorted (λ a b, String.le (date b) (date a))
                 (f <$> (merge_sort newer_first (map_to_list m)).*2).
Proof.
  intros Hdate. rewrite <- list_fmap_compose.
  eapply (StronglySorted_fmap _ newer_first); [|apply StronglySorted_merge_sort; apply _].
  intros a b Hab. simpl. rewrite !Hdate. by apply newer_first_date.
Qed.

Lemma strip_report_no_payload (data : report) atts :
  (attachments (Overflow.strip_report data) = Some atts
   ∨ attachments (RemoteBlob.strip_report data) = Some atts) →
  Forall (λ a, placed a ∧ att_textContent a = JUndefined) atts.
Proof.
  unfold Overflow.strip_report, RemoteBlob.strip_report.
  destruct (attachments data) as [l|] eqn:Ha; simpl.
  - intros [[= <-] | [= <-]]; apply Forall_fmap, Forall_true; by repeat split.
  - rewrite Ha. by intros [? | ?].
Qed.

(** X3. [getAllReports] (both Firestore variants) resolves with one entry
    per stored document, which is that document without the payloads of its
    attachments, later dates first; in every entry each attachment has no
    data URL, no file and no text content.  No store is changed.  When the
    query fails the promise rejects. *)
Theorem getAllReports_lists_each_document (w : world) :
  (∃ l : list report, Overflow.getAllReports false w = (w, [], Resolved l)
        ∧ l ≡ₚ fmap (M:=list) Overflow.strip_report (map_to_list (docs w)).*2
        ∧ StronglySorted (λ a b, String.le (date b) (date a)) l
        ∧ ∀ r atts, r ∈ l → attachments r = Some atts →
            Forall (λ a, placed a ∧ att_textContent a = JUndefined) atts)
  ∧ (∃ l : list report, RemoteBlob.getAllReports false w = (w, [], Resolved l)
          ∧ l ≡ₚ fmap (M:=list) RemoteBlob.strip_report (map_to_list (docs w)).*2
          ∧ StronglySorted (λ a b, String.le (date b) (date a)) l
          ∧ ∀ r atts, r ∈ l → attachments r = Some atts →
              Forall (λ a, placed a ∧ att_textContent a = JUndefined) atts)
  ∧ (∃ err, Overflow.getAllReports true w = (w, [], Rejected err))
  ∧ (∃ err, RemoteBlob.getAllReports true w = (w, [], Rejected err)).
Proof.
  split; [|split; [|split]].
  - eexists. split; [done |]. split; [|split].
    + by rewrite merge_sort_Permutation.
    + apply snapshot_sorted, strip_report_date.
    + intros r atts (data & -> & _)%list_elem_of_fmap Ha.
      apply (strip_report_no_payload data). by left.
  - eexists. split; [done |]. split; [|split].
    + by rewrite merge_sort_Permutation.
    + apply snapshot_sorted, remote_strip_report_date.
    + intros r atts (data & -> & _)%list_elem_of_fmap Ha.
      apply (strip_report_no_payload data). by right.
  - by eexists.
  - by eexists.
Qed.

(** ** Overflow variant: reports that fit the document *)

Lemma prepare_inline (r : report) :
  (∀ atts, attachments r = Some atts →
           Forall (λ a, Overflow.place a = Overflow.inline) atts) →
  Overflow.prepareForFirestore r = (r, []).
Proof.
  intros Hin. unfold Overflow.prepareForFirestore.
  destruct (attachments r) as [atts|] eqn:Ha; [|done].
  destruct (0 <? length atts)%nat; [|done].
  specialize (Hin atts eq_refl).
  assert (imap (Overflow.prepareAttachment (id r)) atts = (λ a, (a, [])) <$> atts) as ->.
  { rewrite <- imap_const. apply imap_ext. intros i a Hi. simpl.
    unfold Overflow.prepareAttachment.
    by rewrite (proj1 (Forall_lookup _ _) Hin i a Hi). }
  rewrite <- !list_fmap_compose. f_equal.
  - assert ((fst ∘ (λ a : attachment, (a, @nil (string * jsval)))) <$> atts = atts) as ->
      by exact (list_fmap_id atts).
    rewrite <- Ha. apply set_attachments_same.
  - clear. induction atts as [|a atts IH]; [done | by simpl].
Qed.

Lemma place_list_view att : Overflow.place (Overflow.list_view att) = Overflow.inline.
Proof. done. Qed.

(** X4. A report none of whose attachments exceeds the inline budget is
    saved by the document write alone: whatever the schedule, and even when
    IndexedDB cannot be opened, [saveReport] behaves as [doc(id).set(report)]
    with the report unchanged.  In particular, saving an entry of the list
    view replaces the stored document by one without attachment payloads. *)
Theorem saveReport_of_inline_report (e : env) (sched : list nat) (r : report) (w : world) :
  (∀ atts, attachments r = Some atts →
           Forall (λ a, Overflow.place a = Overflow.inline) atts) →
  Overflow.saveReport e sched r w = doc_set e (id r) r w
  ∧ Overflow.saveReport e sched (Overflow.strip_report r) w
    = doc_set e (id r) (Overflow.strip_report r) w.
Proof.
  intros Hin.
  assert (∀ r' : report, Overflow.prepareForFirestore r' = (r', []) →
            Overflow.saveReport e sched r' w = doc_set e (id r') r' w) as Hsave.
  { intros r' Hp. unfold Overflow.saveReport. rewrite Hp. simpl.
    unfold bind, promise_all. simpl. by destruct (doc_set e (id r') r' w) as [[??]?]. }
  split; [by apply Hsave, prepare_inline |].
  assert (id (Overflow.strip_report r) = id r) as Hid.
  { unfold Overflow.strip_report. by destruct (attachments r). }
  rewrite <- Hid. apply Hsave, prepare_inline.
  intros atts. unfold Overflow.strip_report.
  destruct (attachments r) as [l|] eqn:Ha; simpl.
  - intros [= <-]. apply Forall_fmap, Forall_true. intros a. apply place_list_view.
  - rewrite Ha. done.
Qed.

Lemma saveReport_of_inline_report_witness :
  Overflow.saveReport idb_unavailable [] small_report empty_world
  = doc_set idb_unavailable "RPT-2024-0001" small_report empty_world.
Proof.
  apply (proj1 (saveReport_of_inline_report idb_unavailable [] small_report empty_world
                  ltac:(intros atts [= <-]; by repeat constructor))).
Defined.

(** ** Overflow variant: saving many reports at once *)

Lemma write_all_snoc m batch op :
  write_all m (batch ++ [op]) = <[op.1 := op.2]> (write_all m batch).
Proof. unfold write_all. by rewrite foldl_app. Qed.

Lemma write_all_lookup m batch k v :
  (k, v) ∈ batch → (∀ v', (k, v') ∈ batch → v' = v) → write_all m batch !! k = Some v.
Proof.
  induction batch as [|[k' v'] l IH] using rev_ind; [by intros ?%elem_of_nil |].
  intros Hin Hfun. rewrite write_all_snoc. simpl.
  destruct (decide (k' = k)) as [->|Hne].
  - rewrite lookup_insert_eq. f_equal. apply Hfun.
    apply elem_of_app. right. by apply list_elem_of_singleton.
  - rewrite lookup_insert_ne by done. apply IH.
    + apply elem_of_app in Hin as [?|Hin]; [done |].
      apply list_elem_of_singleton in Hin. congruence.
    + intros v'' Hin'. apply Hfun. apply elem_of_app. by left.
Qed.

Lemma write_all_lookup_ne m batch k :
  (∀ v, (k, v) ∉ batch) → write_all m batch !! k = m !! k.
Proof.
  induction batch as [|[k' v'] l IH] using rev_ind; [done |].
  intros Hnin. rewrite write_all_snoc. simpl.
  rewrite lookup_insert_ne.
  - apply IH. intros v Hin. apply (Hnin v). apply elem_of_app. by left.
  - intros ->. apply (Hnin v'). apply elem_of_app. right.
    by apply list_elem_of_singleton.
Qed.

Lemma NoDup_fmap_agree {A B} (f : A → B) (l : list A) x y :
  NoDup (f <$> l) → x ∈ l → y ∈ l → f x = f y → x = y.
Proof.
  induction l as [|a l IH]; [by intros _ ?%elem_of_nil |].
  rewrite fmap_cons, NoDup_cons. intros [Hnin Hnd] Hx Hy Hf.
  apply elem_of_cons in Hx as [->|Hx]; apply elem_of_cons in Hy as [->|Hy].
  - done.
  - exfalso. apply Hnin. rewrite Hf. by apply list_elem_of_fmap_2.
  - exfalso. apply Hnin. rewrite <- Hf. by apply list_elem_of_fmap_2.
  - by apply IH.
Qed.

(** X5. [saveAllReports] of the overflow variant, for reports with pairwise
    different ids.  The documents are written together or not at all: when
    the promise rejects, no document has changed.  When it resolves, the
    document of every report is its cleaned copy, whatever the order in
    which the overflow writes completed and the [batch.set] calls ran, and
    no other document has changed.  Every document write comes after every
    overflow write. *)
Theorem saveAllReports_writes_documents_together
    (e : env) (sched_blobs sched_batch : list nat) (reports : list report) w w' tr res :
  Overflow.saveAllReports e sched_blobs sched_batch reports w = (w', tr, res) →
  NoDup (id <$> reports) →
  (¬ is_resolved res → docs w' = docs w)
  ∧ (is_resolved res →
       (∀ r, r ∈ reports → docs w' !! id r = Some (Overflow.prepareForFirestore r).1)
       ∧ (∀ j, j ∉ id <$> reports → docs w' !! j = docs w !! j))
  ∧ (∃ trP trD, tr = trP ++ trD ∧ no_doc_write trP
                ∧ Forall (λ ev, is_doc_write ev = true) trD)
  ∧ storage w' = storage w ∧ arrays w' = arrays w.
Proof.
  intros Hrun Hnd. revert Hrun. unfold Overflow.saveAllReports.
  unfold bind, promise_all. rewrite completion_order_fmap.
  destruct (settle _ w) as [[w1 t1] r1] eqn:Hs.
  destruct (settle_puts _ _ _ _ _ _ Hs) as (Hw & Ht & _).
  destruct r1 as [x|err].
  - unfold batch_commit.
    destruct (existsb _ _); intros [= <- <- <-]; simpl.
    + rewrite Hw. simpl. split; [done |]. split; [done |].
      split; [|done]. eexists _, _. split; [done |]. split; [done |].
      apply Forall_fmap, Forall_true. by intros [??].
    + rewrite Hw. simpl. split; [by intros [] |]. split.
      * intros _. split.
        -- intros r Hr. apply write_all_lookup.
           ++ apply elem_of_completion_order.
              by apply (list_elem_of_fmap_2 (λ r, (id r, (Overflow.prepareForFirestore r).1))).
           ++ intros v' (r' & [= Hid ->] & Hr')%elem_of_completion_order%list_elem_of_fmap.
              by rewrite (NoDup_fmap_agree id reports r r' Hnd Hr Hr' Hid).
        -- intros j Hj. apply write_all_lookup_ne.
           intros v (r' & [= -> ->] & Hr')%elem_of_completion_order%list_elem_of_fmap.
           apply Hj. by apply list_elem_of_fmap_2.
      * split; [|done]. eexists _, _. split; [done |]. split; [done |].
        apply Forall_fmap, Forall_true. by intros [??].
  - intros [= <- <- <-]. rewrite Hw. simpl. split; [done |]. split; [by intros [] |].
    split; [|done]. exists t1, []. split; [by rewrite app_nil_r |]. split; [done |].
    by apply Forall_nil.
Qed.

Lemma saveAllReports_writes_documents_together_witness :
  docs (Overflow.saveAllReports no_faults [] [1%nat]
          [small_report; mk_report "RPT-2024-0002" None] empty_world).1.1
    !! "RPT-2024-0001"
  = Some small_report.
Proof.
  pose proof (saveAllReports_writes_documents_together no_faults [] [1%nat]
                [small_report; mk_report "RPT-2024-0002" None] empty_world
                _ _ _ (result_eta _)) as H.
  destruct H as (_ & H & _).
  - apply NoDup_cons. split; [|apply NoDup_singleton].
    intros Hin%list_elem_of_singleton. discriminate Hin.
  - apply (proj1 (H I) small_report). apply elem_of_cons. by left.
Defined.

(** ** Storage variant: the document a save leaves behind *)

Lemma map_callback_detail e i atts slots ups :
  RemoteBlob.map_callback e i atts = (slots, ups, false) →
  length slots = length atts
  ∧ (∀ j att, atts !! j = Some att →
       (RemoteBlob.classify e att = RemoteBlob.AsIs
        ∧ slots !! j = Some (RemoteBlob.strip_payload att)
        ∧ (i + j)%nat ∉ RemoteBlob.up_index <$> ups)
       ∨ (∃ data, RemoteBlob.classify e att = RemoteBlob.Upload data
                  ∧ slots !! j = Some att
                  ∧ RemoteBlob.Started (i + j) (att_name att) data ∈ ups))
  ∧ NoDup (RemoteBlob.up_index <$> ups)
  ∧ (∀ u, u ∈ ups → (i ≤ RemoteBlob.up_index u)%nat).
Proof.
  revert i slots ups. induction atts as [|att atts IH]; intros i slots ups; simpl.
  - intros [= <- <-]. split; [done |]. split; [intros j att Hj; by rewrite lookup_nil in Hj |].
    split; [apply NoDup_nil_2 | by intros u ?%elem_of_nil].
  - destruct (RemoteBlob.classify e att) as [data| |] eqn:Hc; [| |done].
    + destruct (RemoteBlob.map_callback e (S i) atts) as [[slots1 ups1] threw1] eqn:Hm.
      intros [= <- <- ->].
      destruct (IH _ _ _ Hm) as (Hlen & Hslots & Hnd & Hge).
      split; [simpl; by rewrite Hlen |]. split; [|split].
      * intros [|j] a Hj; simpl in *.
        -- injection Hj as <-. right. exists data. rewrite Nat.add_0_r.
           split; [done |]. split; [done |]. apply elem_of_cons. by left.
        -- destruct (Hslots j a Hj) as [(?&?&Hnin)|(d&?&?&Hin)].
           ++ left. split; [done |]. split; [done |].
              rewrite <- Nat.add_succ_comm.
              intros [Heq|?]%elem_of_cons; [simpl in Heq; lia | done].
           ++ right. exists d. split; [done |]. split; [done |].
              apply elem_of_cons. right. by rewrite <- Nat.add_succ_comm.
      * simpl. apply NoDup_cons. split; [|done].
        intros (u & Hu & Hin)%list_elem_of_fmap. specialize (Hge u Hin). lia.
      * intros u [->|Hin]%elem_of_cons; [simpl; lia |]. specialize (Hge u Hin). lia.
    + destruct (RemoteBlob.map_callback e (S i) atts) as [[slots1 ups1] threw1] eqn:Hm.
      intros [= <- <- ->].
      destruct (IH _ _ _ Hm) as (Hlen & Hslots & Hnd & Hge).
      split; [simpl; by rewrite Hlen |]. split; [|split].
      * intros [|j] a Hj; simpl in *.
        -- injection Hj as <-. left. split; [done |]. split; [done |].
           intros (u & Hu & Hin)%list_elem_of_fmap. specialize (Hge u Hin). lia.
        -- destruct (Hslots j a Hj) as [(?&?&Hnin)|(d&?&?&Hin)].
           ++ left. split; [done |]. split; [done |]. by rewrite <- Nat.add_succ_comm.
           ++ right. exists d. split; [done |]. split; [done |].
              by rewrite <- Nat.add_succ_comm.
      * done.
      * intros u Hin. specialize (Hge u Hin). lia.
Qed.

Lemma run_upload_storage e rid addr u w w' tr res :
  RemoteBlob.run_upload e rid addr u w = (w', tr, res) →
  (∀ p, is_Some (storage w !! p) → is_Some (storage w' !! p))
  ∧ (is_resolved res →
       is_Some (storage w' !! upload_path rid u)
       ∧ ∃ url, arrays w' = alter (alter (RemoteBlob.set_located (url, upload_path rid u))
                                         (RemoteBlob.up_index u)) addr (arrays w)).
Proof.
  unfold RemoteBlob.run_upload, RemoteBlob.uploadAttachment, bind, ret,
    RemoteBlob.storage_put, RemoteBlob.getDownloadURL.
  fold (upload_path rid u).
  assert (∀ p d, is_Some (storage w !! p) →
                 is_Some (<[upload_path rid u := d]> (storage w) !! p)) as Hmono.
  { intros p d Hp. destruct (decide (upload_path rid u = p)) as [->|Hne].
    - rewrite lookup_insert_eq. by eexists.
    - by rewrite lookup_insert_ne. }
  destruct (storage_put_fails e _); simpl.
  { intros [= <- <- <-]. by split. }
  destruct (storage_url_fails e _); simpl.
  { intros [= <- <- <-]. simpl. split; [intros p; apply Hmono | done]. }
  intros [= <- <- <-]. simpl. split; [intros p; apply Hmono |].
  intros _. split; [rewrite lookup_insert_eq; by eexists | by eexists].
Qed.

Lemma settle_uploads_storage e rid addr us w w' tr res p :
  settle (RemoteBlob.run_upload e rid addr <$> us) w = (w', tr, res) →
  is_Some (storage w !! p) → is_Some (storage w' !! p).
Proof.
  revert w w' tr res. induction us as [|u us IH]; intros w w' tr res; simpl.
  - by intros [= <- <- <-].
  - destruct (RemoteBlob.run_upload e rid addr u w) as [[w1 t1] r1] eqn:Hu.
    destruct (settle _ w1) as [[w2 t2] r2] eqn:Hs. intros [= <- <- <-] Hp.
    eapply IH; [done |]. by apply (run_upload_storage _ _ _ _ _ _ _ _ Hu).
Qed.

Lemma settle_uploads_detail e rid addr us w w' tr x slots :
  settle (RemoteBlob.run_upload e rid addr <$> us) w = (w', tr, Resolved x) →
  NoDup (RemoteBlob.up_index <$> us) →
  arrays w !! addr = Some slots →
  ∃ slots', arrays w' !! addr = Some slots'
    ∧ length slots' = length slots
    ∧ (∀ j, j ∉ RemoteBlob.up_index <$> us → slots' !! j = slots !! j)
    ∧ (∀ u, u ∈ us →
         is_Some (storage w' !! upload_path rid u)
         ∧ ∃ url, slots' !! RemoteBlob.up_index u
                  = RemoteBlob.set_located (url, upload_path rid u)
                    <$> slots !! RemoteBlob.up_index u).
Proof.
  revert w w' tr x slots. induction us as [|u us IH]; intros w w' tr x slots; simpl.
  - intros [= <- <- <-] _ Hsl. exists slots. split; [done |]. split; [done |].
    split; [done | by intros u ?%elem_of_nil].
  - destruct (RemoteBlob.run_upload e rid addr u w) as [[w1 t1] r1] eqn:Hu.
    destruct (settle _ w1) as [[w2 t2] r2] eqn:Hs.
    destruct r1 as [x1|]; [|done]. destruct r2 as [x2|]; [|done].
    intros [= <- <- <-] [Hnin Hnd]%NoDup_cons Hsl.
    destruct (run_upload_storage _ _ _ _ _ _ _ _ Hu) as (_ & Hres).
    destruct (Hres I) as (Hst & url & Harr).
    assert (arrays w1 !! addr
            = Some (alter (RemoteBlob.set_located (url, upload_path rid u))
                          (RemoteBlob.up_index u) slots))
      as Hsl1 by (by rewrite Harr, lookup_alter_eq, Hsl).
    destruct (IH _ _ _ _ _ Hs Hnd Hsl1) as (slots' & Hsl' & Hlen & Hother & Hmine).
    exists slots'. split; [done |]. split; [by rewrite Hlen, length_alter |]. split.
    + intros j Hj. rewrite Hother.
      * apply list_lookup_alter_ne. intros Heq. apply Hj, elem_of_cons. by left.
      * intros Hin. apply Hj, elem_of_cons. by right.
    + intros u' [->|Hin]%elem_of_cons.
      * split; [by apply (settle_uploads_storage _ _ _ _ _ _ _ _ _ Hs) |].
        exists url. rewrite (Hother _ Hnin). apply list_lookup_alter_eq.
      * destruct (Hmine u' Hin) as (Hst' & url' & Hslot). split; [done |].
        exists url'. rewrite Hslot, list_lookup_alter_ne; [done |].
        intros Heq. apply Hnin. rewrite Heq. by apply list_elem_of_fmap_2.
Qed.

(** X6. After a save of the Storage variant that resolved, the stored
    document and the report's own attachment array hold the same slots, one
    per attachment, in order.  Each slot keeps the name, type, size and text
    content of its attachment and carries no payload.  An attachment that
    was uploaded (a file, or a legacy data URL without a storage URL) is
    located at "attachments/" + report id + "/" + name, where Storage holds
    an object, and has a download URL; any other attachment keeps the
    storage references it had. *)
Theorem RemoteBlob_saved_document
    (e : env) (sched : list nat) (r r' : report_obj) w w' tr addr atts :
  RemoteBlob.saveReport e sched r w = (w', tr, Resolved r') →
  attachments r = Some addr →
  arrays w !! addr = Some atts →
  ∃ slots, arrays w' !! addr = Some slots
    ∧ docs w' !! id r = Some (set_attachments (Some slots) r)
    ∧ Forall2 (saved_as e (id r) w') atts slots.
Proof.
  intros Hsave Hattr Harr.
  destruct (RemoteBlob_saveReport_trace _ _ _ _ _ _ _ Hsave)
    as (wp & trP & rp & trD & Hp & _ & _ & Harrs & Hsto & Hcases).
  destruct Hcases as [(_ & Hn & _) | (Hrp & [(_ & _ & Hdocs) | (_ & Hn & _)])];
    [by destruct Hn | | by destruct Hn].
  assert (∃ slots, arrays wp !! addr = Some slots
                   ∧ Forall2 (saved_as e (id r) wp) atts slots)
    as (slots & Hslots & Hall).
  { revert Hp. unfold RemoteBlob.prepareForFirestore. rewrite Hattr, Harr. simpl.
    destruct (length atts =? 0)%nat eqn:Hlen.
    { apply Nat.eqb_eq in Hlen. destruct atts; [|done].
      intros [= <- <- <-]. exists []. split; [done | apply Forall2_nil_2]. }
    destruct (RemoteBlob.map_callback e 0 atts) as [[slots0 ups] threw] eqn:Hm.
    unfold bind, promise_all. rewrite completion_order_fmap.
    destruct (settle _ _) as [[w1 t1] r1] eqn:Hs. simpl.
    destruct r1 as [x|err]; [|intros [= <- <- <-]; by destruct Hrp].
    destruct threw; unfold reject, ret; intros [= <- <- <-]; [by destruct Hrp |].
    destruct (map_callback_detail _ _ _ _ _ Hm) as (Hlen0 & Hcb & Hnd & _).
    destruct (settle_uploads_detail _ _ _ _ _ _ _ _ slots0 Hs) as
      (slots & Hsl & Hlens & Hother & Hmine).
    { rewrite <- completion_order_fmap. by rewrite completion_order_perm. }
    { simpl. apply lookup_insert_eq. }
    exists slots. split; [done |].
    apply Forall2_same_length_lookup_2; [congruence |].
    intros j att slot Hatt Hslot. unfold saved_as.
    destruct (Hcb j att Hatt) as [(Hc & Hs0 & Hnin) | (data & Hc & Hs0 & Hin)]; rewrite Hc.
    - rewrite Hother, Hs0 in Hslot.
      + injection Hslot as <-. simpl. by repeat split.
      + rewrite <- completion_order_fmap. by rewrite elem_of_completion_order.
    - destruct (Hmine (RemoteBlob.Started j (att_name att) data)) as (Hst & url & Hj).
      { by apply elem_of_completion_order. }
      simpl in Hj. rewrite Hslot, Hs0 in Hj. injection Hj as ->. simpl.
      by repeat split. }
  exists slots. split; [by rewrite Harrs |]. split.
  - rewrite Hdocs, lookup_insert_eq. unfold RemoteBlob.snapshot.
    rewrite Hattr. simpl. by rewrite Hslots.
  - eapply Forall2_impl; [exact Hall |].
    intros att slot (?&?&?&?&?&Hm). repeat (split; [done |]).
    destruct (RemoteBlob.classify e att); [|done|done]. by rewrite Hsto.
Qed.

Lemma RemoteBlob_saved_document_witness :
  ∃ slots,
    arrays (RemoteBlob.saveReport no_faults [] file_report file_world).1.1 !! 0%nat
    = Some slots
    ∧ Forall2 (saved_as no_faults "RPT-2024-0003"
                 (RemoteBlob.saveReport no_faults [] file_report file_world).1.1)
              [file_att] slots.
Proof.
  destruct (RemoteBlob_saved_document no_faults [] file_report file_report file_world
              _ _ 0%nat [file_att] (result_eta _) eq_refl eq_refl)
    as (slots & Hslots & _ & Hall).
  by exists slots.
Defined.

(** ** Storage variant: deleting what is not there *)

Lemma set_docs_id w : set_docs (docs w) w = w.
Proof. by destruct w. Qed.

Lemma run_del_resolves e op w :
  (∀ p, storage_delete_error e p = None) →
  (∀ d, op = DelDoc d → doc_delete_fails e d = false) →
  ∃ w' tr, run_del e op w = (w', tr, Resolved ()).
Proof.
  intros Hsto Hdoc. destruct op as [[path|]|d]; simpl.
  - unfold RemoteBlob.deleteAttachment.
    destruct (negb _); [|unfold ret; by eexists _, _].
    unfold RemoteBlob.catch, RemoteBlob.storage_delete. rewrite Hsto.
    destruct (storage w !! path); simpl; unfold ret; by eexists _, _.
  - unfold ret. by eexists _, _.
  - unfold doc_delete. rewrite (Hdoc d eq_refl). by eexists _, _.
Qed.

Lemma settle_dels_resolve e ops w :
  (∀ p, storage_delete_error e p = None) →
  (∀ d, DelDoc d ∈ ops → doc_delete_fails e d = false) →
  ∃ w' tr l, settle (run_del e <$> ops) w = (w', tr, Resolved l).
Proof.
  intros Hsto. revert w. induction ops as [|op ops IH]; intros w Hdoc.
  - by eexists _, _, _.
  - destruct (run_del_resolves e op w Hsto) as (w1 & t1 & Hop).
    { intros d ->. apply Hdoc, elem_of_cons. by left. }
    destruct (IH w1) as (w2 & t2 & l & Hs).
    { intros d Hin. apply Hdoc, elem_of_cons. by right. }
    rewrite fmap_cons. cbn [settle]. rewrite Hop, Hs. by eexists _, _, _.
Qed.

Lemma deleteReport_absent e sched doc_id w :
  doc_get_fails e doc_id = false →
  doc_delete_fails e doc_id = false →
  docs w !! doc_id = None →
  RemoteBlob.deleteReport e sched doc_id w = (w, [DocDelete doc_id], Resolved [()]).
Proof.
  intros Hget Hdel Hnone.
  unfold RemoteBlob.deleteReport, bind, doc_get. rewrite Hget, Hnone. simpl.
  unfold promise_all.
  assert (completion_order sched [doc_delete e doc_id] = [doc_delete e doc_id]) as ->.
  { simpl. by destruct (hd 0%nat sched). }
  simpl. unfold doc_delete. rewrite Hdel. simpl.
  by rewrite (delete_id _ _ Hnone), set_docs_id.
Qed.

(** X7. [deleteReport] of the Storage variant does not require anything to
    be there.  When Firestore and Storage report no error other than a
    missing object, it resolves for every id and every world, whether or not
    the document exists and whether or not the objects its attachments name
    are still in Storage; it only removes documents and objects.  Deleting
    the same id again resolves too and changes nothing. *)
Theorem deleteReport_tolerates_missing
    (e : env) (sched sched' : list nat) (doc_id : string) (w : world) :
  doc_get_fails e doc_id = false →
  doc_delete_fails e doc_id = false →
  (∀ p, storage_delete_error e p = None) →
  ∃ w' tr l,
    RemoteBlob.deleteReport e sched doc_id w = (w', tr, Resolved l)
    ∧ shrinks w w'
    ∧ docs w' !! doc_id = None
    ∧ RemoteBlob.deleteReport e sched' doc_id w' = (w', [DocDelete doc_id], Resolved [()]).
Proof.
  intros Hget Hdel Hsto.
  assert (∀ w', docs w' !! doc_id = None →
            RemoteBlob.deleteReport e sched' doc_id w'
            = (w', [DocDelete doc_id], Resolved [()])) as Hagain
    by (intros w'; by apply deleteReport_absent).
  unfold RemoteBlob.deleteReport at 1, bind at 1, doc_get. rewrite Hget.
  unfold promise_all. rewrite deleteReport_ops.
  destruct (settle_dels_resolve e
              (completion_order sched
                 (match docs w !! doc_id with
                  | Some data => DelBlob <$> RemoteBlob.storagePaths data
                  | None => []
                  end ++ [DelDoc doc_id])) w Hsto) as (w' & tr & l & Hs).
  { intros d [Hin|Hin%list_elem_of_singleton]%elem_of_completion_order%elem_of_app.
    - destruct (docs w !! doc_id); [|by apply elem_of_nil in Hin].
      by apply list_elem_of_fmap in Hin as (? & ? & _).
    - by injection Hin as ->. }
  rewrite Hs. simpl.
  destruct (settle_dels _ _ _ _ _ _ Hs) as (Hshr & Hdone).
  assert (docs w' !! doc_id = None) as Hnone.
  { apply (Hdone I (DelDoc doc_id)), elem_of_completion_order, elem_of_app.
    right. by apply list_elem_of_singleton. }
  exists w', (tr ++ []), l. split; [by rewrite app_nil_r |]. split; [done |].
  split; [done |]. by apply Hagain.
Qed.

Lemma deleteReport_tolerates_missing_witness :
  ∃ w' tr l,
    RemoteBlob.deleteReport no_faults [] "RPT-2024-0009" empty_world
    = (w', tr, Resolved l)
    ∧ shrinks empty_world w'
    ∧ docs w' !! "RPT-2024-0009" = None
    ∧ RemoteBlob.deleteReport no_faults [] "RPT-2024-0009" w'
      = (w', [DocDelete "RPT-2024-0009"], Resolved [()]).
Proof.
  apply (deleteReport_tolerates_missing no_faults [] [] "RPT-2024-0009" empty_world);
    reflexivity.
Defined.

(** ** IndexedDB-only variant *)

Lemma by_key_total : Total LocalOnly.by_key.
Proof. intros a b. unfold LocalOnly.by_key. apply (total String.le). Qed.
#[global] Existing Instance by_key_total.

Lemma by_key_trans : Transitive LocalOnly.by_key.
Proof. intros a b c. unfold LocalOnly.by_key. apply transitivity. Qed.
#[global] Existing Instance by_key_trans.

Lemma listing_elem_of (db : gmap string report) r :
  keyed db →
  r ∈ (merge_sort LocalOnly.by_key (map_to_list db)).*2 ↔ db !! id r = Some r.
Proof.
  intros Hk. rewrite merge_sort_Permutation, list_elem_of_fmap. split.
  - intros ([k r'] & -> & Hin%elem_of_map_to_list). simpl.
    by rewrite (Hk _ _ Hin).
  - intros Hr. exists (id r, r). split; [done |]. by apply elem_of_map_to_list.
Qed.

Lemma listing_sorted (db : gmap string report) :
  keyed db →
  let l := (merge_sort LocalOnly.by_key (map_to_list db)).*2 in
  StronglySorted (λ a b, String.le (id a) (id b)) l ∧ NoDup (id <$> l).
Proof.
  intros Hk l. subst l.
  assert (Forall (λ p : string * report, id p.2 = p.1)
                 (merge_sort LocalOnly.by_key (map_to_list db))) as Hall.
  { rewrite merge_sort_Permutation. apply Forall_forall.
    intros [k r] Hin%elem_of_map_to_list. by apply Hk. }
  split.
  - assert (StronglySorted LocalOnly.by_key
              (merge_sort LocalOnly.by_key (map_to_list db))) as Hs
      by (apply StronglySorted_merge_sort; apply _).
    revert Hs Hall. generalize (merge_sort LocalOnly.by_key (map_to_list db)).
    intros l Hs. induction Hs as [|p l Hs IH Hp]; intros Hall; [constructor |].
    apply Forall_cons in Hall as [Hp1 Hall]. rewrite fmap_cons.
    constructor; [by apply IH |].
    apply Forall_fmap, Forall_forall. intros q Hq. simpl.
    rewrite Hp1, (proj1 (Forall_forall _ _) Hall q Hq).
    by apply (proj1 (Forall_forall _ _) Hp q Hq).
  - rewrite <- list_fmap_compose.
    assert ((id ∘ snd) <$> merge_sort LocalOnly.by_key (map_to_list db)
            = (merge_sort LocalOnly.by_key (map_to_list db)).*1) as ->.
    { apply Forall_fmap_ext_1. eapply Forall_impl; [exact Hall |]. by intros [??]. }
    rewrite merge_sort_Permutation. apply NoDup_fst_map_to_list.
Qed.

(** X8. The IndexedDB-only variant keeps one record per report id.  In a
    store keyed by id, [getAllReports] lists the records in the order of
    their ids, each id once.  A save that resolves is an upsert: afterwards
    the listing contains the saved report, it is the only entry with that
    id, and the entries with other ids are those listed before.  A delete
    that resolves removes the entry with that id and no other.  A save or
    delete that rejects changes nothing. *)
Theorem LocalOnly_one_record_per_id
    (f : LocalOnly.faults) (r : report) (doc_id : string) (db : gmap string report) :
  keyed db →
  (∃ l, LocalOnly.getAllReports LocalOnly.healthy db = Resolved l
        ∧ StronglySorted (λ a b, String.le (id a) (id b)) l
        ∧ NoDup (id <$> l)
        ∧ ∀ r', r' ∈ l ↔ db !! id r' = Some r')
  ∧ (∀ db' l l',
       LocalOnly.saveReport f r db = (db', Resolved ()) →
       LocalOnly.getAllReports LocalOnly.healthy db = Resolved l →
       LocalOnly.getAllReports LocalOnly.healthy db' = Resolved l' →
       keyed db' ∧ r ∈ l'
       ∧ (∀ r', r' ∈ l' → id r' = id r → r' = r)
       ∧ (∀ r', id r' ≠ id r → (r' ∈ l' ↔ r' ∈ l)))
  ∧ (∀ db' l l',
       LocalOnly.deleteReport f doc_id db = (db', Resolved ()) →
       LocalOnly.getAllReports LocalOnly.healthy db = Resolved l →
       LocalOnly.getAllReports LocalOnly.healthy db' = Resolved l' →
       keyed db' ∧ ∀ r', r' ∈ l' ↔ r' ∈ l ∧ id r' ≠ doc_id)
  ∧ (∀ db' err, LocalOnly.saveReport f r db = (db', Rejected err) → db' = db)
  ∧ (∀ db' err, LocalOnly.deleteReport f doc_id db = (db', Rejected err) → db' = db).
Proof.
  intros Hk. split; [|split; [|split; [|split]]].
  - eexists. split; [done |]. destruct (listing_sorted db Hk) as [Hs Hnd].
    split; [done |]. split; [done |]. intros r'. by apply listing_elem_of.
  - intros db' l l'. unfold LocalOnly.saveReport.
    destruct (LocalOnly.open_fails f); [done |]. destruct (LocalOnly.tx_fails f); [done |].
    intros [= <-] [= <-] [= <-].
    assert (keyed (<[id r := r]> db)) as Hk'.
    { intros k r' [[<- <-] | [_ Hr']]%lookup_insert_Some; [done | by apply Hk]. }
    split; [done |]. split; [|split].
    + apply listing_elem_of; [done |]. apply lookup_insert_eq.
    + intros r' Hin%listing_elem_of Hid; [|done].
      rewrite Hid, lookup_insert_eq in Hin. by injection Hin.
    + intros r' Hne. rewrite !listing_elem_of by done.
      by rewrite lookup_insert_ne.
  - intros db' l l'. unfold LocalOnly.deleteReport.
    destruct (LocalOnly.open_fails f); [done |]. destruct (LocalOnly.tx_fails f); [done |].
    intros [= <-] [= <-] [= <-].
    assert (keyed (delete doc_id db)) as Hk'.
    { intros k r' [_ Hr']%lookup_delete_Some. by apply Hk. }
    split; [done |]. intros r'. rewrite !listing_elem_of by done.
    rewrite lookup_delete_Some. split; [by intros [??] | by intros [??]].
  - intros db' err. unfold LocalOnly.saveReport.
    destruct (LocalOnly.open_fails f); [by intros [= <-] |].
    destruct (LocalOnly.tx_fails f); [by intros [= <-] | done].
  - intros db' err. unfold LocalOnly.deleteReport.
    destruct (LocalOnly.open_fails f); [by intros [= <-] |].
    destruct (LocalOnly.tx_fails f); [by intros [= <-] | done].
Qed.

Lemma keyed_singleton (r : report) : keyed {[ id r := r ]}.
Proof. by intros k r' [<- <-]%lookup_singleton_Some. Qed.

Lemma LocalOnly_one_record_per_id_witness :
  ∃ l, LocalOnly.getAllReports LocalOnly.healthy {[ id small_report := small_report ]}
       = Resolved l
       ∧ StronglySorted (λ a b, String.le (id a) (id b)) l
       ∧ NoDup (id <$> l)
       ∧ ∀ r', r' ∈ l ↔ ({[ id small_report := small_report ]} : gmap string report)
                          !! id r' = Some r'.
Proof.
  apply (LocalOnly_one_record_per_id LocalOnly.healthy small_report "RPT-2024-0001"
           {[ id small_report := small_report ]} (keyed_singleton small_report)).
Defined.




(** ** dashboard.js: editing, searching, queueing files *)

Lemma editFirst_ids editingReportId (f : report → report) reports :
  (∀ r, id (f r) = id r) →
  id <$> Dashboard.editFirst editingReportId f reports = id <$> reports.
Proof.
  intros Hid. induction reports as [|r reports IH]; simpl; [done |].
  destruct (String.eqb (id r) editingReportId); simpl; [by rewrite Hid | f_equal; exact IH].
Qed.

Lemma editFirst_absent editingReportId (f : report → report) reports :
  editingReportId ∉ id <$> reports →
  Dashboard.editFirst editingReportId f reports = reports.
Proof.
  induction reports as [|r reports IH]; simpl; [done |].
  intros Hnin. destruct (String.eqb (id r) editingReportId) eqn:Heq.
  - apply String.eqb_eq in Heq. exfalso. apply Hnin, elem_of_cons. by left.
  - rewrite IH; [done |]. intros Hin. apply Hnin, elem_of_cons. by right.
Qed.

Lemma editFirst_present editingReportId (f : report → report) reports :
  editingReportId ∈ id <$> reports →
  ∃ before existing after,
    reports = before ++ existing :: after
    ∧ id existing = editingReportId
    ∧ (editingReportId ∉ id <$> before)
    ∧ Dashboard.editFirst editingReportId f reports = before ++ f existing :: after.
Proof.
  induction reports as [|r reports IH]; simpl; [by intros ?%elem_of_nil |].
  intros Hin. destruct (String.eqb (id r) editingReportId) eqn:Heq.
  - apply String.eqb_eq in Heq. exists [], r, reports.
    split; [done |]. split; [done |]. split; [by intros ?%elem_of_nil | done].
  - apply String.eqb_neq in Heq.
    apply elem_of_cons in Hin as [Hin|Hin]; [congruence |].
    destruct (IH Hin) as (before & existing & after & -> & Hid & Hnin & ->).
    exists (r :: before), existing, after.
    split; [done |]. split; [done |]. split; [|done].
    simpl. intros [?|?]%elem_of_cons; [congruence | done].
Qed.

(** X10. The EDIT branch of the submit handler changes one report and
    nothing else.  The ids of [REPORTS], their order and their number stay
    as they were.  When no report has the edited id nothing changes at all.
    Otherwise only the first report with that id is updated (reports created
    with a reused id further down the list are left alone): it keeps its id,
    it keeps its content when the form has none, and the new attachments are
    appended to the ones it had, none of which is dropped. *)
Theorem editReport_changes_one_report
    (editingReportId : string) (fm : Dashboard.form) (newAttachments : list attachment)
    (pg : Dashboard.page) :
  let pg' := Dashboard.editReport editingReportId fm newAttachments pg in
  id <$> Dashboard.REPORTS pg' = id <$> Dashboard.REPORTS pg
  ∧ Dashboard.console pg' = Dashboard.console pg
  ∧ (editingReportId ∉ id <$> Dashboard.REPORTS pg → pg' = pg)
  ∧ (editingReportId ∈ id <$> Dashboard.REPORTS pg →
       ∃ before existing edited after,
         Dashboard.REPORTS pg = before ++ existing :: after
         ∧ Dashboard.REPORTS pg' = before ++ edited :: after
         ∧ (editingReportId ∉ id <$> before)
         ∧ id existing = editingReportId ∧ id edited = editingReportId
         ∧ default [] (attachments edited)
           = default [] (attachments existing) ++ newAttachments
         ∧ (Dashboard.rpt_content fm = "" → content edited = content existing)).
Proof.
  simpl. split; [by apply editFirst_ids |]. split; [done |]. split.
  - intros Hnin. unfold Dashboard.editReport. rewrite editFirst_absent by done.
    by destruct pg.
  - intros Hin.
    destruct (editFirst_present editingReportId
                (Dashboard.applyEdit fm newAttachments) _ Hin)
      as (before & existing & after & Hr & Hid & Hnin & Hed).
    exists before, existing, (Dashboard.applyEdit fm newAttachments existing), after.
    split; [done |]. split; [done |]. split; [done |]. split; [done |].
    split; [done |]. split.
    + simpl. destruct newAttachments; simpl; [by rewrite app_nil_r | done].
    + intros Hc. simpl. by rewrite Hc.
Qed.

Lemma string_app_cons c s1 s2 : String c s1 +:+ s2 = String c (s1 +:+ s2).
Proof. done. Qed.

Lemma string_app_nil s : "" +:+ s = s.
Proof. done. Qed.

Lemma prefix_of_app q1 q2 s :
  String.prefix (q1 +:+ q2) s = true → String.prefix q1 s = true.
Proof.
  revert s. induction q1 as [|c q1 IH]; intros s; [by destruct s |].
  rewrite string_app_cons. destruct s as [|c' s]; [done |]. simpl.
  destruct (Ascii.ascii_dec c c'); [apply IH | done].
Qed.

Lemma includes_unfold s q :
  Dashboard.includes s q
  = String.prefix q s || match s with
                         | EmptyString => false
                         | String _ s' => Dashboard.includes s' q
                         end.
Proof. by destruct s. Qed.

Lemma includes_app s q1 q2 :
  Dashboard.includes s (q1 +:+ q2) = true → Dashboard.includes s q1 = true.
Proof.
  induction s as [|c s IH]; rewrite (includes_unfold _ q1), (includes_unfold _ (q1 +:+ q2)).
  - rewrite !orb_false_r. apply prefix_of_app.
  - intros [Hp|Hi]%orb_true_iff; apply orb_true_iff.
    + left. by apply (prefix_of_app q1 q2).
    + right. by apply IH.
Qed.

Lemma prefix_refl s : String.prefix s s = true.
Proof.
  induction s as [|c s IH]; simpl; [done |].
  destruct (Ascii.ascii_dec c c); [done | congruence].
Qed.

Lemma includes_refl s : Dashboard.includes s s = true.
Proof. destruct s; simpl; [done |]. apply orb_true_iff. left. apply (prefix_refl (String _ _)). Qed.

Lemma toLowerCase_app a b :
  Dashboard.toLowerCase (a +:+ b) = Dashboard.toLowerCase a +:+ Dashboard.toLowerCase b.
Proof.
  induction a as [|c a IH]; [done |].
  rewrite string_app_cons. simpl. by rewrite IH.
Qed.

Lemma matches_app q1 q2 r :
  Dashboard.matches (q1 +:+ q2) r = true → Dashboard.matches q1 r = true.
Proof.
  unfold Dashboard.matches.
  destruct (String.eqb q1 "") eqn:H1; [done |].
  assert (String.eqb (q1 +:+ q2) "" = false) as ->.
  { apply String.eqb_neq in H1. apply String.eqb_neq. by destruct q1. }
  rewrite !orb_true_iff. intros [[[[H|H]|H]|H]|H]; apply includes_app in H; tauto.
Qed.

Lemma filter_sublist {A} (f g : A → bool) l :
  (∀ x, f x = true → g x = true) → sublist (List.filter f l) (List.filter g l).
Proof.
  intros Hfg. induction l as [|x l IH]; simpl; [constructor |].
  destruct (f x) eqn:Hf.
  - rewrite (Hfg x Hf). by constructor.
  - destruct (g x); [by constructor | done].
Qed.

Lemma filter_all {A} (f : A → bool) l :
  (∀ x, f x = true) → List.filter f l = l.
Proof.
  intros Hf. induction l as [|x l IH]; simpl; [done |]. by rewrite Hf, IH.
Qed.

(** X11. The search of the sidebar, for ASCII text.  The reports shown are
    reports of [REPORTS], in the order of [REPORTS]; the empty filter shows
    all of them; typing more characters never brings back a report that the
    shorter filter had excluded; and a report is always found by its own id,
    its subject name or its passport number, in any letter case.  The
    sidebar shows "No reports match your search." exactly when no report
    matches, and the matching reports otherwise. *)
Theorem search_narrows (q1 q2 : string) (pg : Dashboard.page) :
  Dashboard.ascii_only q1 = true →
  Dashboard.ascii_only q2 = true →
  Forall ascii_report (Dashboard.REPORTS pg) →
  sublist (Dashboard.filtered (q1 +:+ q2) pg) (Dashboard.filtered q1 pg)
  ∧ sublist (Dashboard.filtered q1 pg) (Dashboard.REPORTS pg)
  ∧ Dashboard.filtered "" pg = Dashboard.REPORTS pg
  ∧ (∀ r, r ∈ Dashboard.REPORTS pg →
       r ∈ Dashboard.filtered (id r) pg
       ∧ r ∈ Dashboard.filtered (subjectName r) pg
       ∧ r ∈ Dashboard.filtered (passportNumber r) pg
       ∧ r ∈ Dashboard.filtered (Dashboard.toUpperCase (id r)) pg
       ∧ r ∈ Dashboard.filtered (Dashboard.toLowerCase (subjectName r)) pg)
  ∧ (Dashboard.renderReportList q1 pg
     = Dashboard.NoMatch "No reports match your search."
     ↔ Dashboard.filtered q1 pg = [])
  ∧ (Dashboard.filtered q1 pg ≠ [] →
     Dashboard.renderReportList q1 pg = Dashboard.Items (Dashboard.filtered q1 pg)).
Proof.
  intros _ _ _.
  assert ((Dashboard.renderReportList q1 pg
           = Dashboard.NoMatch "No reports match your search."
           ↔ Dashboard.filtered q1 pg = [])
          ∧ (Dashboard.filtered q1 pg ≠ [] →
             Dashboard.renderReportList q1 pg
             = Dashboard.Items (Dashboard.filtered q1 pg))) as [Hr1 Hr2].
  { unfold Dashboard.renderReportList. by destruct (Dashboard.filtered q1 pg). }
  unfold Dashboard.filtered.
  split; [|split; [|split; [|split; [|split; [exact Hr1 | exact Hr2]]]]].
  - apply filter_sublist. intros r. rewrite toLowerCase_app. apply matches_app.
  - rewrite <- (filter_all (λ _, true) (Dashboard.REPORTS pg)) at 2 by done.
    by apply filter_sublist.
  - by apply filter_all.
  - assert (∀ c, Dashboard.lower_ascii (Dashboard.upper_ascii c) = Dashboard.lower_ascii c)
      as Hlu by (by intros [[] [] [] [] [] [] [] []]).
    assert (∀ c, Dashboard.lower_ascii (Dashboard.lower_ascii c) = Dashboard.lower_ascii c)
      as Hll by (by intros [[] [] [] [] [] [] [] []]).
    assert (∀ s, Dashboard.toLowerCase (Dashboard.toUpperCase s) = Dashboard.toLowerCase s)
      as Hup by (intros s; induction s as [|c s IH]; simpl; [done | by rewrite Hlu, IH]).
    assert (∀ s, Dashboard.toLowerCase (Dashboard.toLowerCase s) = Dashboard.toLowerCase s)
      as Hlow by (intros s; induction s as [|c s IH]; simpl; [done | by rewrite Hll, IH]).
    intros r Hr. rewrite Hup, Hlow.
    assert (∀ q, Dashboard.matches q r = true →
                 r ∈ List.filter (Dashboard.matches q) (Dashboard.REPORTS pg)) as Hin.
    { intros q Hq. apply list_elem_of_In, filter_In. split; [|done].
      by apply list_elem_of_In. }
    repeat split; apply Hin; unfold Dashboard.matches;
      destruct (String.eqb _ ""); try done;
      rewrite !orb_true_iff; pose proof includes_refl; auto 10.
Qed.

Lemma search_narrows_witness :
  sublist
    (Dashboard.filtered ("rpt" +:+ "-2024")
       {| Dashboard.REPORTS := [small_report]; Dashboard.console := [] |})
    (Dashboard.filtered "rpt"
       {| Dashboard.REPORTS := [small_report]; Dashboard.console := [] |}).
Proof.
  apply (search_narrows "rpt" "-2024"
           {| Dashboard.REPORTS := [small_report]; Dashboard.console := [] |});
    [reflexivity | reflexivity |].
  apply Forall_cons. split; [by repeat split | apply Forall_nil_2].
Defined.

Lemma same_file_refl f : Dashboard.same_file f f = true.
Proof. unfold Dashboard.same_file. by rewrite String.eqb_refl, Z.eqb_refl. Qed.

Lemma same_file_sym p f : Dashboard.same_file p f = Dashboard.same_file f p.
Proof. unfold Dashboard.same_file. by rewrite String.eqb_sym, Z.eqb_sym. Qed.

Lemma handleFiles_cons f picked pendingFiles :
  Dashboard.handleFiles (f :: picked) pendingFiles
  = Dashboard.handleFiles picked
      (if existsb (λ p, Dashboard.same_file p f) pendingFiles then pendingFiles
       else pendingFiles ++ [f]).
Proof. done. Qed.

Lemma queue_step f (pendingFiles : list Dashboard.file) :
  let pending' := if existsb (λ p, Dashboard.same_file p f) pendingFiles
                  then pendingFiles else pendingFiles ++ [f] in
  pendingFiles `prefix_of` pending'
  ∧ (∃ p, p ∈ pending' ∧ Dashboard.same_file p f = true)
  ∧ (∀ p, p ∈ pending' → p ∈ pendingFiles ∨ p = f)
  ∧ (no_same_file pendingFiles → no_same_file pending').
Proof.
  simpl. destruct (existsb _ pendingFiles) eqn:Hex.
  - split; [done |]. split; [|split; [by left | done]].
    apply existsb_exists in Hex as (p & Hp%list_elem_of_In & Hs). by exists p.
  - split; [by apply prefix_app_r |]. split; [|split].
    + exists f. split; [|apply same_file_refl].
      apply elem_of_app. right. by apply list_elem_of_singleton.
    + intros p [?|Hp%list_elem_of_singleton]%elem_of_app; [by left | by right].
    + assert (∀ p, p ∈ pendingFiles → Dashboard.same_file p f = false) as Hno.
      { intros p Hp%list_elem_of_In. destruct (Dashboard.same_file p f) eqn:Hs; [|done].
        assert (existsb (λ p, Dashboard.same_file p f) pendingFiles = true) as Hy
          by (apply existsb_exists; by exists p).
        congruence. }
      intros Hd i j p q Hi Hj Hs.
      apply lookup_app_Some in Hi as [Hi | [Hil Hi]];
        apply lookup_app_Some in Hj as [Hj | [Hjl Hj]].
      * by apply (Hd i j p q).
      * apply list_lookup_singleton_Some in Hj as [_ <-].
        apply list_elem_of_lookup_2 in Hi. rewrite (Hno p Hi) in Hs. done.
      * apply list_lookup_singleton_Some in Hi as [_ <-].
        apply list_elem_of_lookup_2 in Hj. rewrite same_file_sym, (Hno q Hj) in Hs. done.
      * apply list_lookup_singleton_Some in Hi as [Hi _].
        apply list_lookup_singleton_Some in Hj as [Hj _]. lia.
Qed.

(** X12. [handleFiles] queues the picked files behind the files already
    waiting, which keep their places.  Every picked file is then represented
    in the queue by a file of the same name and size, nothing else is added,
    and a queue without two files of the same name and size stays so: a file
    picked twice, or picked again before the form is submitted, is queued
    once.  Removing an entry with its remove button keeps the queue free of
    such duplicates too. *)
Theorem handleFiles_queues_each_file_once (picked pendingFiles : list Dashboard.file) :
  let pending' := Dashboard.handleFiles picked pendingFiles in
  pendingFiles `prefix_of` pending'
  ∧ (∀ f, f ∈ picked → ∃ p, p ∈ pending' ∧ Dashboard.same_file p f = true)
  ∧ (∀ p, p ∈ pending' → p ∈ pendingFiles ∨ p ∈ picked)
  ∧ (no_same_file pendingFiles → no_same_file pending')
  ∧ Dashboard.handleFiles picked pending' = pending'
  ∧ (∀ i, no_same_file pendingFiles →
          no_same_file (Dashboard.removePending i pendingFiles)).
Proof.
  simpl.
  assert (∀ picked pendingFiles,
            (∀ f, f ∈ picked → ∃ p, p ∈ pendingFiles ∧ Dashboard.same_file p f = true) →
            Dashboard.handleFiles picked pendingFiles = pendingFiles) as Hfix.
  { clear. induction picked as [|f picked IH]; intros pendingFiles Hall; [done |].
    rewrite handleFiles_cons.
    destruct (Hall f) as (p & Hp & Hs); [apply elem_of_cons; by left |].
    assert (existsb (λ p, Dashboard.same_file p f) pendingFiles = true) as ->
      by (apply existsb_exists; exists p; by rewrite <- list_elem_of_In).
    apply IH. intros f' Hf'. apply Hall, elem_of_cons. by right. }
  assert (pendingFiles `prefix_of` Dashboard.handleFiles picked pendingFiles
          ∧ (∀ f, f ∈ picked →
               ∃ p, p ∈ Dashboard.handleFiles picked pendingFiles
                    ∧ Dashboard.same_file p f = true)
          ∧ (∀ p, p ∈ Dashboard.handleFiles picked pendingFiles →
               p ∈ pendingFiles ∨ p ∈ picked)
          ∧ (no_same_file pendingFiles →
             no_same_file (Dashboard.handleFiles picked pendingFiles))) as H.
  { revert pendingFiles. induction picked as [|f picked IH]; intros pendingFiles.
    - split; [done |]. split; [by intros f ?%elem_of_nil |]. split; [by left | done].
    - rewrite handleFiles_cons.
      destruct (queue_step f pendingFiles) as (Hpre & (p & Hp & Hs) & Hsub & Hd).
      simpl in *.
      destruct (IH (if existsb (λ p, Dashboard.same_file p f) pendingFiles
                    then pendingFiles else pendingFiles ++ [f]))
        as (Hpre' & Hall' & Hsub' & Hd').
      split; [by etrans |]. split; [|split].
      + intros f' [->|Hf']%elem_of_cons; [|by apply Hall'].
        exists p. split; [|done]. destruct Hpre' as [k ->].
        apply elem_of_app. by left.
      + intros q Hq. destruct (Hsub' q Hq) as [Hq'|Hq'].
        * destruct (Hsub q Hq') as [?| ->]; [by left |].
          right. apply elem_of_cons. by left.
        * right. apply elem_of_cons. by right.
      + intros Hno. by apply Hd', Hd. }
  destruct H as (H1 & H2 & H3 & H4).
  assert (∀ i, no_same_file pendingFiles →
               no_same_file (Dashboard.removePending i pendingFiles)) as Hremove.
  { intros i Hd j k p q Hj Hk Hs. unfold Dashboard.removePending in *.
    destruct (decide (j < i)%nat); destruct (decide (k < i)%nat);
      rewrite ?list_lookup_delete_lt in Hj by lia;
      rewrite ?list_lookup_delete_ge in Hj by lia;
      rewrite ?list_lookup_delete_lt in Hk by lia;
      rewrite ?list_lookup_delete_ge in Hk by lia;
      pose proof (Hd _ _ _ _ Hj Hk Hs); lia. }
  split; [done |]. split; [done |]. split; [done |]. split; [done |].
  split; [by apply Hfix | done].
Qed.

Lemma string_app_assoc a b c : (a +:+ b) +:+ c = a +:+ (b +:+ c).
Proof.
  induction a as [|x a IH]; [done |].
  rewrite !string_app_cons. by rewrite IH.
Qed.

(** X13. [formatFileSize] shows a size below 1024 in bytes, a size below
    1024 * 1024 in KB and any larger size in MB, with one decimal that is
    the size in that unit rounded to the nearest tenth.  The KB range ends
    on "1024.0 KB": the last 51 sizes below one megabyte are shown so rather
    than as "1.0 MB". *)
Theorem formatFileSize_rounds_to_a_tenth (bytes : Z) :
  (bytes < 1024 → Dashboard.formatFileSize bytes = pretty bytes +:+ " B")
  ∧ (1024 ≤ bytes < 1024 * 1024 →
       ∃ tenths,
         Dashboard.formatFileSize bytes
         = pretty (tenths / 10) +:+ "." +:+ pretty (tenths mod 10) +:+ " KB"
         ∧ 10 ≤ tenths ≤ 10240
         ∧ 2 * Z.abs (10 * bytes - 1024 * tenths) ≤ 1024)
  ∧ (1024 * 1024 ≤ bytes →
       ∃ tenths,
         Dashboard.formatFileSize bytes
         = pretty (tenths / 10) +:+ "." +:+ pretty (tenths mod 10) +:+ " MB"
         ∧ 10 ≤ tenths
         ∧ 2 * Z.abs (10 * bytes - 1024 * 1024 * tenths) ≤ 1024 * 1024)
  ∧ (1048525 ≤ bytes < 1048576 → Dashboard.formatFileSize bytes = "1024.0 KB")
  ∧ (1024 ≤ bytes < 1076 → Dashboard.formatFileSize bytes = "1.0 KB").
Proof.
  unfold Dashboard.formatFileSize, Dashboard.toFixed1.
  split; [|split; [|split; [|split]]].
  - intros H. apply Z.ltb_lt in H. by rewrite H.
  - intros [H1 H2]. apply Z.ltb_ge in H1. apply Z.ltb_lt in H2. rewrite H1, H2.
    apply Z.ltb_ge in H1. apply Z.ltb_lt in H2.
    exists ((20 * bytes + 1024) / (2 * 1024)). split; [by rewrite !string_app_assoc |].
    pose proof (Z.div_mod (20 * bytes + 1024) (2 * 1024) ltac:(lia)) as Hdm.
    pose proof (Z.mod_pos_bound (20 * bytes + 1024) (2 * 1024) ltac:(lia)) as Hb.
    lia.
  - intros H1. assert ((bytes <? 1024) = false) as -> by (apply Z.ltb_ge; lia).
    assert ((bytes <? 1024 * 1024) = false) as -> by (apply Z.ltb_ge; lia).
    exists ((20 * bytes + 1024 * 1024) / (2 * (1024 * 1024))).
    split; [by rewrite !string_app_assoc |].
    pose proof (Z.div_mod (20 * bytes + 1024 * 1024) (2 * (1024 * 1024)) ltac:(lia)) as Hdm.
    pose proof (Z.mod_pos_bound (20 * bytes + 1024 * 1024) (2 * (1024 * 1024))
                  ltac:(lia)) as Hb.
    lia.
  - intros [H1 H2]. assert ((bytes <? 1024) = false) as -> by (apply Z.ltb_ge; lia).
    assert ((bytes <? 1024 * 1024) = true) as -> by (apply Z.ltb_lt; lia).
    assert ((20 * bytes + 1024) / (2 * 1024) = 10240) as ->
      by (symmetry; apply (Z.div_unique_pos _ _ _ (20 * bytes + 1024 - 10240 * 2048)); lia).
    reflexivity.
  - intros [H1 H2]. assert ((bytes <? 1024) = false) as -> by (apply Z.ltb_ge; lia).
    assert ((bytes <? 1024 * 1024) = true) as -> by (apply Z.ltb_lt; lia).
    assert ((20 * bytes + 1024) / (2 * 1024) = 10) as ->
      by (symmetry; apply (Z.div_unique_pos _ _ _ (20 * bytes + 1024 - 10 * 2048)); lia).
    reflexivity.
Qed.

(** ** admin.js: what the activity feed shows *)

Lemma Forall_filter_bool {A} (P : A → Prop) (f : A → bool) l :
  Forall P l → Forall P (List.filter f l).
Proof.
  induction 1 as [|x l Hx Hl IH]; simpl; [constructor |].
  destruct (f x); [by constructor | done].
Qed.

Lemma StronglySorted_filter_bool {A} (R : relation A) (f : A → bool) l :
  StronglySorted R l → StronglySorted R (List.filter f l).
Proof.
  induction 1 as [|x l Hs IH Hx]; simpl; [constructor |].
  destruct (f x); [|done]. constructor; [done | by apply Forall_filter_bool].
Qed.

Lemma filter_filter_bool {A} (f g : A → bool) l :
  List.filter g (List.filter f l) = List.filter (λ a, f a && g a) l.
Proof.
  induction l as [|x l IH]; simpl; [done |].
  destruct (f x); simpl; [|done]. destruct (g x); by rewrite IH.
Qed.

Lemma filter_none {A} (f : A → bool) l :
  Forall (λ a, f a = false) l → List.filter f l = [].
Proof. induction 1 as [|x l Hx Hl IH]; simpl; [done |]. by rewrite Hx. Qed.

Lemma filter_take_sorted {A} (R : relation A) (p : A → bool) n l :
  StronglySorted R l →
  (∀ a b, R a b → p a = false → p b = false) →
  List.filter p (take n l) = take n (List.filter p l).
Proof.
  intros Hs Hp. revert n. induction Hs as [|x l Hs IH Hx]; intros n.
  - by destruct n.
  - destruct n as [|n]; [done |]. simpl. destruct (p x) eqn:Hpx.
    + simpl. by rewrite IH.
    + assert (Forall (λ a, p a = false) l) as Hall
        by (eapply Forall_impl; [exact Hx |]; intros b Hb; by apply (Hp x b)).
      rewrite (filter_none p l Hall), take_nil.
      apply filter_none. apply Forall_forall. intros b Hb%elem_of_take.
      destruct Hb as (i & Hb & _). apply list_elem_of_lookup_2 in Hb.
      by apply (proj1 (Forall_forall _ _) Hall).
Qed.

Lemma build_query_spec (fl : Admin.filters) (a : Admin.activity) :
  Admin.limit (Admin.build_query fl) = 50%nat
  ∧ (Admin.satisfies (Admin.build_query fl) a = true ↔
     (Admin.filterUserSelect fl = "" ∨ Admin.act_username a = Admin.filterUserSelect fl)
     ∧ (Admin.filterAction fl = "" ∨ Admin.act_action a = Admin.filterAction fl)).
Proof.
  unfold Admin.build_query, Admin.nonempty, Admin.satisfies.
  destruct (String.eqb_spec (Admin.filterUserSelect fl) "") as [Hu|Hu];
    destruct (String.eqb_spec (Admin.filterAction fl) "") as [Ha|Ha]; simpl;
    (split; [done |]); rewrite ?andb_true_iff, ?andb_true_r, ?String.eqb_eq;
    split; intros H; try tauto; try (split; [by left | by left]);
    destruct H as [[?|?] [?|?]]; try done; auto.
Qed.

(** X14. What the activity feed shows for the listener opened with given
    filter values, when Firestore delivers the collection ordered by
    timestamp, newest first.  When no event satisfies the user and action
    filters the feed is the message "No activity found."; otherwise it lists
    the 50 newest events that pass all three filters, newest first: the date
    filter, although applied in the page after the limit of the query, loses
    no event to that limit.  The second case includes the feed with no entry
    at all and no message, when events satisfy the user and action filters
    but all of them are older than the date. *)
Theorem feed_shows_newest_matching
    (Date_parse : string → option Z) (fl : Admin.filters)
    (collection : list Admin.activity) :
  newest_first collection →
  let since := Date_parse (Admin.filterDate fl) in
  let keep a := Admin.satisfies (Admin.build_query fl) a
                && negb (Admin.skipped_by_date (Admin.filterDate fl) since a) in
  (∀ a, keep a = true ↔ passes fl since a)
  ∧ ((∀ a, a ∈ collection → Admin.satisfies (Admin.build_query fl) a = false) →
     Admin.feed_for Date_parse fl collection
     = Admin.FeedMessage "No activity found." "var(--text-muted)")
  ∧ ((∃ a, a ∈ collection ∧ Admin.satisfies (Admin.build_query fl) a = true) →
     Admin.feed_for Date_parse fl collection
     = Admin.FeedItems (take 50 (List.filter keep collection))).
Proof.
  intros Hsorted since keep. split; [|split].
  - intros a. unfold keep, passes. rewrite andb_true_iff.
    rewrite (proj2 (build_query_spec fl a)).
    unfold Admin.skipped_by_date, Admin.nonempty.
    destruct (String.eqb_spec (Admin.filterDate fl) "") as [Hd|Hd]; simpl.
    { split; [intros [[??] _]; by repeat split | intros (?&?&_); by repeat split]. }
    destruct (Admin.act_timestamp a) as [t|]; [destruct since as [d|] |]; simpl.
    + rewrite negb_true_iff, Z.ltb_ge. split.
      * intros [[??] ?]. repeat split; try done. by intros _ d' t' [= <-] [= <-].
      * intros (?&?&H). repeat split; try done. by apply H.
    + split; [intros [[??] _]; by repeat split | intros (?&?&_); by repeat split].
    + split; [intros [[??] _]; by repeat split | intros (?&?&_); by repeat split].
  - intros Hnone. unfold Admin.feed_for, Admin.snapshot_of. simpl.
    rewrite filter_none; [by rewrite take_nil |]. by apply Forall_forall.
  - intros (a & Hin & Hsat). unfold Admin.feed_for, Admin.snapshot_of. simpl.
    rewrite (proj1 (build_query_spec fl a)).
    assert (a ∈ List.filter (Admin.satisfies (Admin.build_query fl)) collection) as Hin'
      by (apply list_elem_of_In, filter_In; split; [by apply list_elem_of_In | done]).
    unfold Admin.render_snapshot.
    destruct (take 50 (List.filter (Admin.satisfies (Admin.build_query fl)) collection))
      as [|b snap] eqn:Hsnap.
    { destruct (List.filter _ collection); [by apply elem_of_nil in Hin' | done]. }
    rewrite <- Hsnap. simpl. f_equal.
    rewrite (filter_take_sorted not_older).
    + by rewrite filter_filter_bool.
    + by apply StronglySorted_filter_bool.
    + intros x y Hxy. unfold not_older in Hxy.
      rewrite !negb_false_iff. unfold Admin.skipped_by_date.
      destruct (Admin.nonempty (Admin.filterDate fl)); simpl; [|done].
      destruct (Admin.act_timestamp x) as [tx|]; [|done].
      destruct (Admin.act_timestamp y) as [ty|]; [|done].
      fold since. destruct since as [d|]; [|done].
      rewrite !Z.ltb_lt. lia.
Qed.

Lemma feed_shows_newest_matching_witness :
  Admin.feed_for (λ _, Some 250)
    {| Admin.filterUserSelect := ""; Admin.filterAction := "";
       Admin.filterDate := "2024-06-01" |}
    [ {| Admin.act_username := "bob"; Admin.act_action := "login";
         Admin.act_timestamp := Some 300 |};
      {| Admin.act_username := "amy"; Admin.act_action := "search";
         Admin.act_timestamp := Some 200 |} ]
  = Admin.FeedItems
      [ {| Admin.act_username := "bob"; Admin.act_action := "login";
           Admin.act_timestamp := Some 300 |} ].
Proof.
  destruct (feed_shows_newest_matching (λ _, Some 250)
              {| Admin.filterUserSelect := ""; Admin.filterAction := "";
                 Admin.filterDate := "2024-06-01" |}
              [ {| Admin.act_username := "bob"; Admin.act_action := "login";
                   Admin.act_timestamp := Some 300 |};
                {| Admin.act_username := "amy"; Admin.act_action := "search";
                   Admin.act_timestamp := Some 200 |} ]) as (_ & _ & H).
  - constructor; [constructor; [constructor | constructor] |].
    constructor; [|constructor]. unfold not_older. simpl. lia.
  - rewrite H; [reflexivity |].
    eexists. split; [apply list_elem_of_here | reflexivity].
Defined.

(** ** activity.js: the debounce of the search log *)





(** ** auth.js, client-side variant *)

Lemma ToInt32_eqm x : ∃ k, AuthDemo.ToInt32 x = x + k * 2 ^ 32.
Proof.
  exists (- ((x + 2 ^ 31) / 2 ^ 32)). unfold AuthDemo.ToInt32.
  pose proof (Z.div_mod (x + 2 ^ 31) (2 ^ 32) ltac:(lia)). lia.
Qed.

Lemma ToInt32_shift x k : AuthDemo.ToInt32 (x + k * 2 ^ 32) = AuthDemo.ToInt32 x.
Proof.
  unfold AuthDemo.ToInt32.
  replace (x + k * 2 ^ 32 + 2 ^ 31) with (x + 2 ^ 31 + k * 2 ^ 32) by lia.
  by rewrite Z_mod_plus_full.
Qed.

Lemma hash_step_spec hash char :
  AuthDemo.hash_step hash char = AuthDemo.ToInt32 (31 * hash + char).
Proof.
  unfold AuthDemo.hash_step, AuthDemo.bor, AuthDemo.shl.
  change (AuthDemo.ToInt32 0) with 0. rewrite Z.lor_0_r, Z.shiftl_mul_pow2 by lia.
  destruct (ToInt32_eqm hash) as [k1 ->].
  destruct (ToInt32_eqm ((hash + k1 * 2 ^ 32) * 2 ^ 5)) as [k2 ->].
  destruct (ToInt32_eqm ((hash + k1 * 2 ^ 32) * 2 ^ 5 + k2 * 2 ^ 32 - hash + char))
    as [k3 ->].
  replace ((hash + k1 * 2 ^ 32) * 2 ^ 5 + k2 * 2 ^ 32 - hash + char + k3 * 2 ^ 32)
    with (31 * hash + char + (32 * k1 + k2 + k3) * 2 ^ 32) by lia.
  apply ToInt32_shift.
Qed.

Lemma fallback_hash_from a message :
  foldl AuthDemo.hash_step (AuthDemo.ToInt32 a) message
  = AuthDemo.ToInt32 (foldl (λ h c, 31 * h + c) a message).
Proof.
  revert a. induction message as [|c message IH]; intros a; simpl; [done |].
  rewrite hash_step_spec. destruct (ToInt32_eqm a) as [k ->].
  replace (31 * (a + k * 2 ^ 32) + c) with (31 * a + c + (31 * k) * 2 ^ 32) by lia.
  rewrite ToInt32_shift. apply IH.
Qed.

Lemma fallback_hash_poly (message : list Z) :
  AuthDemo.fallback_hash message = AuthDemo.ToInt32 (poly31 message).
Proof. apply (fallback_hash_from 0 message). Qed.

(** X16. The fallback of [sha256] is the polynomial hash with base 31 of
    the code units of the message, reduced to a signed 32-bit integer;
    the string it returns is "fallback-" followed by the absolute value of
    that integer in hexadecimal, so that a hash value and its negation give
    the same string. *)
Theorem fallback_hash_is_polynomial (message : list Z) :
  AuthDemo.fallback_hash message = AuthDemo.ToInt32 (poly31 message)
  ∧ - 2 ^ 31 ≤ AuthDemo.fallback_hash message < 2 ^ 31
  ∧ (AuthDemo.fallback_hash message - poly31 message) mod 2 ^ 32 = 0
  ∧ ∀ message',
      AuthDemo.fallback_hash message' = - AuthDemo.fallback_hash message →
      AuthDemo.sha256_fallback message' = AuthDemo.sha256_fallback message.
Proof.
  pose proof (fallback_hash_poly message) as Heq.
  split; [done |]. split; [|split].
  - rewrite Heq. unfold AuthDemo.ToInt32.
    pose proof (Z.mod_pos_bound (poly31 message + 2 ^ 31) (2 ^ 32) ltac:(lia)). lia.
  - rewrite Heq. destruct (ToInt32_eqm (poly31 message)) as [k ->].
    replace (poly31 message + k * 2 ^ 32 - poly31 message) with (k * 2 ^ 32) by lia.
    apply Z_mod_mult.
  - intros message' Hneg. unfold AuthDemo.sha256_fallback.
    by rewrite Hneg, Z.abs_opp.
Qed.

Lemma poly31_app a l1 l2 :
  foldl (λ h c, 31 * h + c) a (l1 ++ l2)
  = foldl (λ h c, 31 * h + c) (foldl (λ h c, 31 * h + c) a l1) l2.
Proof. apply foldl_app. Qed.

(** X17. The fallback hash does not tell passwords apart.  Raising one
    code unit of the message by one and lowering the next by 31 gives a
    different message with the same hash, so the login handler, where
    [crypto.subtle] is not available, accepts the one exactly when it
    accepts the other. *)
Theorem fallback_hash_collides (before after : list Z) (c1 c2 : Z) :
  0 ≤ c1 < 65535 →
  31 ≤ c2 < 65536 →
  let message := before ++ [c1; c2] ++ after in
  let message' := before ++ [c1 + 1; c2 - 31] ++ after in
  message' ≠ message
  ∧ Forall (λ c, 0 ≤ c < 65536) [c1 + 1; c2 - 31]
  ∧ AuthDemo.sha256_fallback message' = AuthDemo.sha256_fallback message
  ∧ AuthDemo.login_accepts message' = AuthDemo.login_accepts message.
Proof.
  intros H1 H2 message message'.
  assert (poly31 message' = poly31 message) as Hp.
  { unfold poly31, message, message'. rewrite !poly31_app. simpl. f_equal. lia. }
  assert (AuthDemo.sha256_fallback message' = AuthDemo.sha256_fallback message) as Hs.
  { unfold AuthDemo.sha256_fallback.
    by rewrite (fallback_hash_poly message), (fallback_hash_poly message'), Hp. }
  split; [|split; [|split]].
  - unfold message, message'. intros Heq%app_inv_head. injection Heq. lia.
  - repeat constructor; lia.
  - done.
  - unfold AuthDemo.login_accepts. by rewrite Hs.
Qed.

Lemma fallback_hash_collides_witness :
  AuthDemo.login_accepts (AuthDemo.charCodes "bEmin:classified2024")
  = AuthDemo.login_accepts (AuthDemo.charCodes "admin:classified2024").
Proof.
  destruct (fallback_hash_collides [] (AuthDemo.charCodes "min:classified2024") 97 100)
    as (_ & _ & _ & H); [lia | lia |].
  exact H.
Defined.

(** X18. The session of the client-side variant.  A session written by
    [setSession] is returned by [getSession] for 30 minutes and not after;
    an expired session is removed from the storage when it is read.
    [requireAuth] turns nobody away: whatever the storage holds, it leaves a
    session that [getSession] returns, which is the stored one when that is
    still valid and a fresh session of the user "admin" otherwise.  In
    particular, after [clearSession] the next [requireAuth] signs the
    visitor in as "admin". *)
Theorem requireAuth_always_signs_in
    (now : Z) (stored : option AuthDemo.session) (name : string) (t0 : Z) :
  (let written := AuthDemo.setSession t0 name stored in
   (now - t0 ≤ 30 * 60 * 1000 →
      AuthDemo.getSession now written = (written, written))
   ∧ (30 * 60 * 1000 < now - t0 →
      AuthDemo.getSession now written = (None, None)))
  ∧ (∃ s, AuthDemo.requireAuth now stored = Some s
          ∧ AuthDemo.getSession now (Some s) = (Some s, Some s)
          ∧ ((AuthDemo.getSession now stored).2 = Some s
             ∨ ((AuthDemo.getSession now stored).2 = None
                ∧ s = {| AuthDemo.username := "admin"; AuthDemo.timestamp := now |})))
  ∧ AuthDemo.requireAuth now (AuthDemo.clearSession stored)
    = Some {| AuthDemo.username := "admin"; AuthDemo.timestamp := now |}.
Proof.
  split; [|split].
  - unfold AuthDemo.getSession, AuthDemo.setSession.
    change (AuthDemo.timestamp {| AuthDemo.username := name; AuthDemo.timestamp := t0 |})
      with t0.
    destruct (Z.ltb_spec AuthDemo.SESSION_DURATION_MS (now - t0)) as [Hlt|Hge];
      unfold AuthDemo.SESSION_DURATION_MS in *; split; intros H; (done || lia).
  - assert (AuthDemo.getSession now
              (Some {| AuthDemo.username := "admin"; AuthDemo.timestamp := now |})
            = (Some {| AuthDemo.username := "admin"; AuthDemo.timestamp := now |},
               Some {| AuthDemo.username := "admin"; AuthDemo.timestamp := now |})) as Hfresh.
    { unfold AuthDemo.getSession.
      change (AuthDemo.timestamp {| AuthDemo.username := "admin";
                                    AuthDemo.timestamp := now |}) with now.
      destruct (Z.ltb_spec AuthDemo.SESSION_DURATION_MS (now - now)) as [Hlt|Hge];
        [unfold AuthDemo.SESSION_DURATION_MS in Hlt; lia | done]. }
    unfold AuthDemo.requireAuth.
    destruct stored as [s|]; simpl.
    + unfold AuthDemo.getSession.
      destruct (AuthDemo.SESSION_DURATION_MS <? now - AuthDemo.timestamp s) eqn:Hexp.
      * eexists. split; [done |]. split; [exact Hfresh |]. right. by split.
      * exists s. split; [done |]. split; [by rewrite Hexp |]. by left.
    + eexists. split; [done |]. split; [exact Hfresh |]. right. by split.
  - done.
Qed.

(** ** dashboard.js: the start-up load and the delete dialog *)

(** X19. The start-up load never loses reports and never hangs.  Whatever
    the remote read does, the block is left within [DB_TIMEOUT] = 3000 ms;
    [REPORTS] is either left as it was or replaced by a non-empty list the
    read delivered in time, so that a non-empty [REPORTS] is never emptied,
    not even by a read that delivers the empty list, which changes nothing;
    and at most one line is written to the console. *)
Theorem loadAll_never_empties (remote : Dashboard.settlement (list report))
                              (pg : Dashboard.page) :
  let pg' := (Dashboard.loadAll remote pg).1 in
  (Dashboard.loadAll remote pg).2 ≤ Dashboard.DB_TIMEOUT
  ∧ (Dashboard.REPORTS pg' = Dashboard.REPORTS pg
     ∨ ∃ t saved, remote = Dashboard.FulfilledAt t saved ∧ t ≤ 3000
                  ∧ saved ≠ [] ∧ Dashboard.REPORTS pg' = saved)
  ∧ (Dashboard.REPORTS pg ≠ [] → Dashboard.REPORTS pg' ≠ [])
  ∧ (∀ t, remote = Dashboard.FulfilledAt t [] → t ≤ 3000 → pg' = pg)
  ∧ (∃ entries, Dashboard.console pg' = entries ++ Dashboard.console pg
                ∧ (length entries ≤ 1)%nat).
Proof.
  unfold Dashboard.loadAll, Dashboard.race_dbTimeout, Dashboard.DB_TIMEOUT.
  destruct remote as [|t saved|t err]; simpl.
  - split; [lia |]. split; [by left |]. split; [done |]. split; [done |].
    eexists [_]. by split.
  - destruct (Z.leb_spec t 3000) as [Hle|Hgt]; simpl.
    + destruct saved as [|r saved]; simpl.
      * split; [done |]. split; [by left |]. split; [done |]. split; [done |].
        exists []. split; [done | simpl; lia].
      * split; [done |]. split; [right; by eexists _, _ |]. split; [done |].
        split; [done |]. eexists [_]. by split.
    + split; [lia |]. split; [by left |]. split; [done |].
      split; [intros t' [= -> _] ?; lia |]. eexists [_]. by split.
  - destruct (Z.leb_spec t 3000) as [Hle|Hgt]; simpl.
    + split; [done |]. split; [by left |]. split; [done |]. split; [done |].
      eexists [_]. by split.
    + split; [lia |]. split; [by left |]. split; [done |]. split; [done |].
      eexists [_]. by split.
Qed.

Lemma removeReport_absent report_id reports :
  report_id ∉ id <$> reports → Dashboard.removeReport report_id reports = reports.
Proof.
  induction reports as [|r reports IH]; simpl; [done |].
  intros Hnin. destruct (String.eqb (id r) report_id) eqn:Heq.
  - apply String.eqb_eq in Heq. exfalso. apply Hnin, elem_of_cons. by left.
  - rewrite IH; [done |]. intros Hin. apply Hnin, elem_of_cons. by right.
Qed.

Lemma removeReport_present report_id reports :
  report_id ∈ id <$> reports →
  ∃ before removed after,
    reports = before ++ removed :: after
    ∧ id removed = report_id
    ∧ (report_id ∉ id <$> before)
    ∧ Dashboard.removeReport report_id reports = before ++ after.
Proof.
  induction reports as [|r reports IH]; simpl; [by intros ?%elem_of_nil |].
  intros Hin. destruct (String.eqb (id r) report_id) eqn:Heq.
  - apply String.eqb_eq in Heq. exists [], r, reports.
    split; [done |]. split; [done |]. split; [by intros ?%elem_of_nil | done].
  - apply String.eqb_neq in Heq.
    apply elem_of_cons in Hin as [Hin|Hin]; [congruence |].
    destruct (IH Hin) as (before & removed & after & -> & Hid & Hnin & ->).
    exists (r :: before), removed, after.
    split; [done |]. split; [done |]. split; [|done].
    simpl. intros [?|?]%elem_of_cons; [congruence | done].
Qed.

(** X20. The delete dialog removes one report from [REPORTS]: the first one
    with the id of the report shown, all others staying in their order; when
    no report has that id the page is unchanged.  After reports were created
    with a reused id, the others with the same id are therefore still listed
    once one of them has been deleted. *)
Theorem confirmDelete_removes_first (report_id : string) (pg : Dashboard.page) :
  let pg' := Dashboard.confirmDelete report_id pg in
  (report_id ∉ id <$> Dashboard.REPORTS pg → pg' = pg)
  ∧ (report_id ∈ id <$> Dashboard.REPORTS pg →
       ∃ before removed after,
         Dashboard.REPORTS pg = before ++ removed :: after
         ∧ Dashboard.REPORTS pg' = before ++ after
         ∧ id removed = report_id
         ∧ (report_id ∉ id <$> before)
         ∧ (report_id ∈ id <$> Dashboard.REPORTS pg' ↔ report_id ∈ id <$> after))
  ∧ sublist (Dashboard.REPORTS pg') (Dashboard.REPORTS pg)
  ∧ Dashboard.console pg' = Dashboard.console pg.
Proof.
  simpl. split; [|split; [|split; [|done]]].
  - intros Hnin. unfold Dashboard.confirmDelete. rewrite removeReport_absent by done.
    by destruct pg.
  - intros Hin.
    destruct (removeReport_present report_id _ Hin)
      as (before & removed & after & Hr & Hid & Hnin & Hrm).
    exists before, removed, after. rewrite Hrm.
    split; [done |]. split; [done |]. split; [done |]. split; [done |].
    rewrite fmap_app, elem_of_app. split; [by intros [?|?] | by right].
  - destruct (decide (report_id ∈ id <$> Dashboard.REPORTS pg)) as [Hin|Hnin].
    + destruct (removeReport_present report_id _ Hin)
        as (before & removed & after & Hr & _ & _ & Hrm).
      rewrite Hrm, Hr. apply sublist_app; [done |]. by apply sublist_cons.
    + by rewrite removeReport_absent.
Qed.

(** ** Storage variant: what a save leaves alone *)

Lemma run_upload_frame e rid addr u w w' tr res :
  RemoteBlob.run_upload e rid addr u w = (w', tr, res) →
  (∀ a, a ≠ addr → arrays w' !! a = arrays w !! a)
  ∧ (∀ p, p ≠ upload_path rid u → storage w' !! p = storage w !! p).
Proof.
  unfold RemoteBlob.run_upload, RemoteBlob.uploadAttachment, bind, ret,
    RemoteBlob.storage_put, RemoteBlob.getDownloadURL.
  fold (upload_path rid u).
  destruct (storage_put_fails e _); simpl.
  { intros [= <- <- <-]. by split. }
  destruct (storage_url_fails e _); simpl.
  { intros [= <- <- <-]. simpl. split; [done |]. intros p Hp. by rewrite lookup_insert_ne. }
  intros [= <- <- <-]. simpl. split.
  - intros a Ha. by rewrite lookup_alter_ne.
  - intros p Hp. by rewrite lookup_insert_ne.
Qed.

Lemma settle_uploads_frame e rid addr us w w' tr res :
  settle (RemoteBlob.run_upload e rid addr <$> us) w = (w', tr, res) →
  (∀ a, a ≠ addr → arrays w' !! a = arrays w !! a)
  ∧ (∀ p, (∀ u, p ≠ upload_path rid u) → storage w' !! p = storage w !! p).
Proof.
  revert w w' tr res. induction us as [|u us IH]; intros w w' tr res; simpl.
  - intros [= <- <- <-]. by split.
  - destruct (RemoteBlob.run_upload e rid addr u w) as [[w1 t1] r1] eqn:Hu.
    destruct (settle _ w1) as [[w2 t2] r2] eqn:Hs. intros [= <- <- <-].
    destruct (run_upload_frame _ _ _ _ _ _ _ _ Hu) as [Ha1 Hp1].
    destruct (IH _ _ _ _ Hs) as [Ha2 Hp2]. split.
    + intros a Ha. by rewrite Ha2, Ha1.
    + intros p Hp. by rewrite Hp2, Hp1.
Qed.

Lemma RemoteBlob_prepare_frame e sched (r : report_obj) w w' tr res :
  RemoteBlob.prepareForFirestore e sched r w = (w', tr, res) →
  (∀ a, attachments r ≠ Some a → arrays w' !! a = arrays w !! a)
  ∧ (∀ p, (∀ u, p ≠ upload_path (id r) u) → storage w' !! p = storage w !! p)
  ∧ (∀ p, is_Some (storage w !! p) → is_Some (storage w' !! p)).
Proof.
  unfold RemoteBlob.prepareForFirestore.
  destruct (attachments r) as [addr|] eqn:Hattr.
  2:{ intros [= <- <- <-]. by repeat split. }
  destruct (length (default [] (arrays w !! addr)) =? 0)%nat.
  { intros [= <- <- <-]. by repeat split. }
  destruct (RemoteBlob.map_callback e 0 _) as [[slots ups] threw] eqn:Hm.
  unfold bind, promise_all. rewrite completion_order_fmap.
  destruct (settle _ _) as [[w1 t1] r1] eqn:Hs.
  destruct (settle_uploads_frame _ _ _ _ _ _ _ _ Hs) as [Ha Hsto].
  pose proof (λ p, settle_uploads_storage _ _ _ _ _ _ _ _ p Hs) as Hmono.
  simpl in *.
  assert ((∀ a, Some addr ≠ Some a → arrays w1 !! a = arrays w !! a)
          ∧ (∀ p, (∀ u, p ≠ upload_path (id r) u) → storage w1 !! p = storage w !! p)
          ∧ (∀ p, is_Some (storage w !! p) → is_Some (storage w1 !! p))) as Hgoal.
  { split; [|by split].
    intros a Hne. rewrite Ha by congruence. apply lookup_insert_ne. congruence. }
  destruct r1 as [x|err]; [destruct threw |]; unfold reject, ret;
    intros [= <- <- <-]; exact Hgoal.
Qed.

(** X21. A save of the Storage variant is confined to its own report: it
    never changes another document, the overflow store, an attachment array
    other than the one of the report, or a Storage object outside
    "attachments/" + report id + "/"; it never removes a Storage object; and
    when it rejects the document store is exactly as it was, although
    objects it uploaded before the failure stay in Storage. *)
Theorem RemoteBlob_saveReport_is_confined
    (e : env) (sched : list nat) (r : report_obj) w w' tr res :
  RemoteBlob.saveReport e sched r w = (w', tr, res) →
  (∀ j, j ≠ id r → docs w' !! j = docs w !! j)
  ∧ (¬ is_resolved res → docs w' = docs w)
  ∧ local_blobs w' = local_blobs w
  ∧ (∀ a, attachments r ≠ Some a → arrays w' !! a = arrays w !! a)
  ∧ (∀ p, (∀ name, p ≠ "attachments/" +:+ id r +:+ "/" +:+ name) →
          storage w' !! p = storage w !! p)
  ∧ (∀ p, is_Some (storage w !! p) → is_Some (storage w' !! p)).
Proof.
  unfold RemoteBlob.saveReport, bind at 1.
  destruct (RemoteBlob.prepareForFirestore e sched r w) as [[wp trP] rp] eqn:Hp.
  destruct (RemoteBlob_prepare _ _ _ _ _ _ _ Hp) as (Hd & Hb & _ & _).
  destruct (RemoteBlob_prepare_frame _ _ _ _ _ _ _ Hp) as (Ha & Hsto & Hmono).
  assert (∀ p, (∀ name, p ≠ "attachments/" +:+ id r +:+ "/" +:+ name) →
               storage wp !! p = storage w !! p) as Hsto'
    by (intros p Hne; apply Hsto; intros u; apply Hne).
  destruct rp as [c|err].
  - unfold bind, doc_set, ret. destruct (doc_set_fails e (id r)); intros [= <- <- <-]; simpl.
    + split; [by rewrite Hd |]. split; [by rewrite Hd |]. by repeat split.
    + split; [intros j Hj; by rewrite lookup_insert_ne, Hd |].
      split; [by intros [] |]. by repeat split.
  - intros [= <- <- <-]. split; [by rewrite Hd |]. split; [by rewrite Hd |].
    by repeat split.
Qed.

Lemma RemoteBlob_saveReport_is_confined_witness :
  local_blobs (RemoteBlob.saveReport no_faults [] file_report file_world).1.1
  = local_blobs file_world.
Proof.
  apply (RemoteBlob_saveReport_is_confined no_faults [] file_report file_world
           _ _ _ (result_eta _)).
Defined.
